(** * Campaign dispatch and delivery tracking of Xeno-Mini_CRM

    A shallow embedding of the backend pipeline: the Customer, Campaign and
    CommunicationLog models (Mongoose schemas with their instance methods),
    the campaign routes (launch, personalisation, vendor submission) and the
    vendor routes (delivery receipts, open/click tracking).

    Conventions.
    - A Mongo collection of campaigns is a finite map from [_id] to document;
      the collection of communication logs is a list in insertion order, a
      document's position standing for its [_id], and [findOne] returns the
      first match.
    - Dates are integers (milliseconds since the epoch); every clock reading
      ([new Date()], [Date.now()]) and every [Math.random()] draw is an
      explicit input of the operation that performs it.
    - JS numbers that hold counts or amounts are integers ([nat] for counters
      that start at 0 and are only incremented, [Z] elsewhere).
    - An [await]ed handler runs as one atomic step on the store. *)

From Stdlib Require Import ZArith Ascii String DecimalString.
From stdpp Require Import base option list gmap strings fin_maps.

Local Open Scope Z_scope.

(** ** Results of fallible operations *)

Inductive Error :=
  | ValidationError (path : string).

Inductive Result (A : Type) :=
  | Ok (a : A)
  | Throw (e : Error).
Arguments Ok {A} a.
Arguments Throw {A} e.

(** ** models/Customer *)

Module Customer.

Inductive Status := active | inactive | churned.

(** [totalSpent] and [visitCount] are optional: the code reads them with
    [?.] and [|| 0]. *)
Record t := mk {
  _id : string;
  name : string;
  totalSpent : option Z;
  visitCount : option Z;
  lastOrderDate : option Z;
  status : Status;
  city : option string
}.

(** [this.totalSpent >= k]; a comparison with [undefined] is false. *)
Definition spentAtLeast (c : t) (k : Z) : bool :=
  match totalSpent c with
  | Some v => k <=? v
  | None => false
  end.

(** The [valueCategory] virtual. *)
Definition valueCategory (c : t) : string :=
  if spentAtLeast c 50000 then "premium"
  else if spentAtLeast c 10000 then "high-value"
  else if spentAtLeast c 1000 then "regular"
  else "new".

End Customer.


(** ** Enumerations shared by the schemas *)

Inductive Channel := email | sms | push | whatsapp.

(** The [status] values a delivery receipt may carry; the webhook and the
    batch endpoint validate the field against this list and the mock vendor
    only produces [sent] and [failed]. *)
Inductive ReceiptStatus := r_sent | r_delivered | r_failed | r_bounced.

Definition statusName (s : ReceiptStatus) : string :=
  match s with
  | r_sent => "sent"
  | r_delivered => "delivered"
  | r_failed => "failed"
  | r_bounced => "bounced"
  end.

Module Receipt.
Record t := mk {
  messageId : string;
  status : ReceiptStatus;
  timestamp : Z;
  errorCode : option string;
  errorMessage : option string;
  vendorMessageId : option string
}.
End Receipt.

(** ** models/CommunicationLog *)

Module CommunicationLog.

Inductive Status :=
  pending | sent | delivered | failed | bounced | opened | clicked.

Global Instance Status_eq_dec : EqDecision Status.
Proof. solve_decision. Defined.

Record PersonalizedData := mkData {
  customerName : string;
  customTotalSpent : option Z;
  customVisitCount : option Z
}.

Record t := mk {
  campaignId : string;
  customerId : string;
  messageId : string;
  message : string;
  channel : Channel;
  status : Status;
  sentAt : option Z;
  deliveredAt : option Z;
  failedAt : option Z;
  errorCode : option string;
  errorMessage : option string;
  vendorId : option string;
  vendorResponse : option Receipt.t;
  openedAt : option Z;
  clickedAt : option Z;
  retryCount : nat;
  nextRetryAt : option Z;
  personalizedData : PersonalizedData
}.

(** Field assignments [this.f = v]. *)
Definition set_status (v : Status) (l : t) : t :=
  mk (campaignId l) (customerId l) (messageId l) (message l) (channel l)
     v (sentAt l) (deliveredAt l) (failedAt l) (errorCode l)
     (errorMessage l) (vendorId l) (vendorResponse l) (openedAt l)
     (clickedAt l) (retryCount l) (nextRetryAt l) (personalizedData l).
Definition set_sentAt (v : option Z) (l : t) : t :=
  mk (campaignId l) (customerId l) (messageId l) (message l) (channel l)
     (status l) v (deliveredAt l) (failedAt l) (errorCode l)
     (errorMessage l) (vendorId l) (vendorResponse l) (openedAt l)
     (clickedAt l) (retryCount l) (nextRetryAt l) (personalizedData l).
Definition set_deliveredAt (v : option Z) (l : t) : t :=
  mk (campaignId l) (customerId l) (messageId l) (message l) (channel l)
     (status l) (sentAt l) v (failedAt l) (errorCode l)
     (errorMessage l) (vendorId l) (vendorResponse l) (openedAt l)
     (clickedAt l) (retryCount l) (nextRetryAt l) (personalizedData l).
Definition set_failedAt (v : option Z) (l : t) : t :=
  mk (campaignId l) (customerId l) (messageId l) (message l) (channel l)
     (status l) (sentAt l) (deliveredAt l) v (errorCode l)
     (errorMessage l) (vendorId l) (vendorResponse l) (openedAt l)
     (clickedAt l) (retryCount l) (nextRetryAt l) (personalizedData l).
Definition set_error (code msg : option string) (l : t) : t :=
  mk (campaignId l) (customerId l) (messageId l) (message l) (channel l)
     (status l) (sentAt l) (deliveredAt l) (failedAt l) code
     msg (vendorId l) (vendorResponse l) (openedAt l)
     (clickedAt l) (retryCount l) (nextRetryAt l) (personalizedData l).
Definition set_vendor (id : option string) (resp : option Receipt.t)
    (l : t) : t :=
  mk (campaignId l) (customerId l) (messageId l) (message l) (channel l)
     (status l) (sentAt l) (deliveredAt l) (failedAt l) (errorCode l)
     (errorMessage l) id resp (openedAt l)
     (clickedAt l) (retryCount l) (nextRetryAt l) (personalizedData l).
Definition set_openedAt (v : option Z) (l : t) : t :=
  mk (campaignId l) (customerId l) (messageId l) (message l) (channel l)
     (status l) (sentAt l) (deliveredAt l) (failedAt l) (errorCode l)
     (errorMessage l) (vendorId l) (vendorResponse l) v
     (clickedAt l) (retryCount l) (nextRetryAt l) (personalizedData l).
Definition set_clickedAt (v : option Z) (l : t) : t :=
  mk (campaignId l) (customerId l) (messageId l) (message l) (channel l)
     (status l) (sentAt l) (deliveredAt l) (failedAt l) (errorCode l)
     (errorMessage l) (vendorId l) (vendorResponse l) (openedAt l)
     v (retryCount l) (nextRetryAt l) (personalizedData l).
Definition set_retryCount (v : nat) (l : t) : t :=
  mk (campaignId l) (customerId l) (messageId l) (message l) (channel l)
     (status l) (sentAt l) (deliveredAt l) (failedAt l) (errorCode l)
     (errorMessage l) (vendorId l) (vendorResponse l) (openedAt l)
     (clickedAt l) v (nextRetryAt l) (personalizedData l).
Definition set_nextRetryAt (v : option Z) (l : t) : t :=
  mk (campaignId l) (customerId l) (messageId l) (message l) (channel l)
     (status l) (sentAt l) (deliveredAt l) (failedAt l) (errorCode l)
     (errorMessage l) (vendorId l) (vendorResponse l) (openedAt l)
     (clickedAt l) (retryCount l) v (personalizedData l).

(** The schema bound [retryCount: { max: 3 }]. *)
Definition maxRetryCount : nat := 3.

(** [this.save()]: Mongoose validates the modified (and the required)
    paths before writing and rejects the save when a validator fails; of the
    paths the instance methods assign only [retryCount] carries a validator,
    so the flag says whether that path was modified. *)
Definition save (retryCountModified : bool) (l : t) : Result t :=
  if retryCountModified && (maxRetryCount <? retryCount l)%nat
  then Throw (ValidationError "retryCount")
  else Ok l.

Definition markAsSent (now : Z) (l : t) : Result t :=
  save false (set_sentAt (Some now) (set_status sent l)).

Definition markAsDelivered (now : Z) (l : t) : Result t :=
  save false (set_deliveredAt (Some now) (set_status delivered l)).

(** [Math.pow(2, this.retryCount) * 5], read after the increment. *)
Definition retryDelayMinutes (retries : nat) : Z := 2 ^ Z.of_nat retries * 5.

(** [now] is the reading of [new Date()], [now'] the one of [Date.now()]
    two statements later. *)
Definition markAsFailed (code msg : option string) (now now' : Z) (l : t)
    : Result t :=
  let l1 := set_status failed l in
  let l2 := set_failedAt (Some now) l1 in
  let l3 := set_error code msg l2 in
  let l4 := set_retryCount (retryCount l3 + 1)%nat l3 in
  let l5 := set_nextRetryAt
              (Some (now' + retryDelayMinutes (retryCount l4) * 60 * 1000))
              l4 in
  save true l5.

(** The engagement methods return the document itself when the guard
    fails, without saving. *)
Definition markAsOpened (now : Z) (l : t) : Result t :=
  if decide (status l = delivered)
  then save false (set_openedAt (Some now) (set_status opened l))
  else Ok l.

Definition markAsClicked (now : Z) (l : t) : Result t :=
  if decide (status l = delivered \/ status l = opened)
  then save false (set_clickedAt (Some now) (set_status clicked l))
  else Ok l.

(** [getMessagesForRetry]'s filter. *)
Definition dueForRetry (now : Z) (l : t) : bool :=
  bool_decide (status l = failed) && (retryCount l <? 3)%nat &&
  match nextRetryAt l with Some d => d <=? now | None => false end.

End CommunicationLog.

(** ** Audience rules and the Mongo queries built from them *)

Module Audience.

(** Condition values ([Mixed] in the schema): numbers, strings, booleans
    and arrays of these. *)
Inductive Scalar := SNum (n : Z) | SStr (s : string) | SBool (b : bool).
Inductive Value := VScalar (s : Scalar) | VArray (l : list Scalar).

Global Instance Scalar_eq_dec : EqDecision Scalar.
Proof. solve_decision. Defined.

Inductive Operator :=
  op_gt | op_gte | op_lt | op_lte | op_eq | op_ne | op_in | op_nin
| op_exists.

Record Condition := mkCond {
  field : string;
  operator : Operator;
  value : Value
}.

Inductive Logic := AND | OR.

Record Rules := mkRules {
  conditions : list Condition;
  logic : Logic
}.

(** What a query object holds under one field name. *)
Inductive Criterion :=
  | q_gt (v : Value) | q_gte (v : Value) | q_lt (v : Value)
  | q_lte (v : Value)
  | q_is (v : Value)
  | q_ne (v : Value)
  | q_in (l : list Scalar) | q_nin (l : list Scalar)
  | q_exists (b : bool).

(** [Array.isArray(value) ? value : [value]] *)
Definition asArray (v : Value) : list Scalar :=
  match v with VArray l => l | VScalar s => [s] end.

(** [Boolean(value)] *)
Definition truthy (v : Value) : bool :=
  match v with
  | VScalar (SNum n) => negb (n =? 0)
  | VScalar (SStr s) => negb (String.eqb s "")
  | VScalar (SBool b) => b
  | VArray _ => true
  end.

(** [buildConditionQuery]: an object with the single key [field]. The
    operator is one of the nine of the schema, so the [default] branch of
    the switch is not taken. *)
Definition buildConditionQuery (c : Condition) : gmap string Criterion :=
  let crit :=
    match operator c with
    | op_gt => q_gt (value c)
    | op_gte => q_gte (value c)
    | op_lt => q_lt (value c)
    | op_lte => q_lte (value c)
    | op_eq => q_is (value c)
    | op_ne => q_ne (value c)
    | op_in => q_in (asArray (value c))
    | op_nin => q_nin (asArray (value c))
    | op_exists => q_exists (truthy (value c))
    end in
  {[ field c := crit ]}.

(** [Object.assign(target, source)]: the keys of [source] overwrite. *)
Definition assign (target source : gmap string Criterion)
    : gmap string Criterion :=
  source ∪ target.

(** The query object [evaluateAudience] hands to [Customer.find]: either
    plain field criteria or a single [$or] array. *)
Inductive Query :=
  | Q_fields (q : gmap string Criterion)
  | Q_or (qs : list (gmap string Criterion)).

Definition buildQuery (r : Rules) : Query :=
  match logic r with
  | OR => Q_or (map buildConditionQuery (conditions r))
  | AND =>
      Q_fields (foldl (fun query c => assign query (buildConditionQuery c))
                      ∅ (conditions r))
  end.

(** *** The store's side: how Mongo matches a stored customer

    A query sees stored paths only. Of the six fields a condition may name,
    [totalSpent], [visitCount], [status] and [city] are stored; the virtuals
    [daysSinceLastOrder] and [valueCategory] are not, so a criterion on them
    sees a missing field. Comparison operators relate values of one type
    and are false across types.

    This is Mongo's matching of the filter it is sent. Mongoose casts the
    values given for a stored path to the schema type of the path first (a
    numeric string to a number, a number to a string, an array under
    equality to [$in]) and rejects what it cannot cast; the cast is not
    modelled, so these definitions follow the code for conditions whose
    values already have the type of their path ([wellTyped] below), for
    which the cast changes nothing. *)
Definition getField (c : Customer.t) (f : string) : option Scalar :=
  if String.eqb f "totalSpent" then SNum <$> Customer.totalSpent c
  else if String.eqb f "visitCount" then SNum <$> Customer.visitCount c
  else if String.eqb f "status" then
    Some (SStr match Customer.status c with
               | Customer.active => "active"
               | Customer.inactive => "inactive"
               | Customer.churned => "churned"
               end)
  else if String.eqb f "city" then SStr <$> Customer.city c
  else None.

Definition compareScalar (a b : Scalar) : option comparison :=
  match a, b with
  | SNum x, SNum y => Some (x ?= y)
  | SStr x, SStr y => Some (String.compare x y)
  | SBool x, SBool y => Some (Bool.compare x y)
  | _, _ => None
  end.

Definition compares (ok : comparison -> bool) (fv : option Scalar)
    (v : Value) : bool :=
  match fv, v with
  | Some a, VScalar b =>
      match compareScalar a b with Some c => ok c | None => false end
  | _, _ => false
  end.

Definition equals (fv : option Scalar) (v : Value) : bool :=
  match fv, v with
  | Some a, VScalar b => bool_decide (a = b)
  | _, _ => false
  end.

Definition among (fv : option Scalar) (l : list Scalar) : bool :=
  match fv with
  | Some a => bool_decide (a ∈ l)
  | None => false
  end.

Definition matchCriterion (fv : option Scalar) (crit : Criterion) : bool :=
  match crit with
  | q_gt v => compares (fun c => match c with Gt => true | _ => false end) fv v
  | q_gte v => compares (fun c => match c with Lt => false | _ => true end) fv v
  | q_lt v => compares (fun c => match c with Lt => true | _ => false end) fv v
  | q_lte v => compares (fun c => match c with Gt => false | _ => true end) fv v
  | q_is v => equals fv v
  | q_ne v => negb (equals fv v)
  | q_in l => among fv l
  | q_nin l => negb (among fv l)
  | q_exists b => Bool.eqb (bool_decide (is_Some fv)) b
  end.

(** Every key of a query object must match. *)
Definition matchesFields (c : Customer.t) (q : gmap string Criterion)
    : bool :=
  bool_decide
    (map_Forall (fun f crit => matchCriterion (getField c f) crit = true) q).

Definition matchesQuery (c : Customer.t) (q : Query) : bool :=
  match q with
  | Q_fields q => matchesFields c q
  | Q_or qs => existsb (matchesFields c) qs
  end.

(** [Customer.find(query)] *)
Definition find (customers : list Customer.t) (q : Query)
    : list Customer.t :=
  List.filter (fun c => matchesQuery c q) customers.

(** [Campaign.evaluateAudience(rules)] over the customer collection;
    [None] stands for a missing [rules] or [rules.conditions]. *)
Definition evaluateAudience (customers : list Customer.t)
    (rules : option Rules) : list Customer.t :=
  match rules with
  | None => []
  | Some r =>
      match conditions r with
      | [] => []
      | _ => find customers (buildQuery r)
      end
  end.

(** The match set of one condition taken alone. *)
Definition matchesCondition (c : Customer.t) (cond : Condition) : bool :=
  matchesFields c (buildConditionQuery cond).

End Audience.

(** ** JS string primitives used by the routes *)

Module JS.

(** [String(n)] for an integer. *)
Definition showZ (z : Z) : string := NilZero.string_of_int (Z.to_int z).

Fixpoint drop (n : nat) (s : string) : string :=
  match n, s with
  | S k, String _ s' => drop k s'
  | _, _ => s
  end.

(** Digit grouping of the [en-IN] locale on the reversed digits: the last
    three digits, then groups of two. *)
Fixpoint group2 (ds : list ascii) : list ascii :=
  match ds with
  | a :: b :: ((_ :: _) as rest) => a :: b :: ","%char :: group2 rest
  | _ => ds
  end.

Definition group3 (ds : list ascii) : list ascii :=
  match ds with
  | a :: b :: c :: ((_ :: _) as rest) =>
      a :: b :: c :: ","%char :: group2 rest
  | _ => ds
  end.

(** [n.toLocaleString('en-IN')] for an integer [n]. *)
Definition toLocaleString_enIN (z : Z) : string :=
  let digits := list_ascii_of_string (showZ (Z.abs z)) in
  let grouped := string_of_list_ascii (rev (group3 (rev digits))) in
  if z <? 0 then String "-" grouped else grouped.

(** [GetSubstitution] for a pattern without capture groups: in the
    replacement text [$$] is a dollar sign, [$&] the match, [$`] the text
    before the match and [$'] the text after it. *)
Fixpoint getSubstitution (matched before after rep : string) : string :=
  match rep with
  | "" => ""
  | String "$" (String "$" r) =>
      String "$" (getSubstitution matched before after r)
  | String "$" (String "&" r) =>
      matched +:+ getSubstitution matched before after r
  | String "$" (String "`" r) =>
      before +:+ getSubstitution matched before after r
  | String "$" (String "'" r) =>
      after +:+ getSubstitution matched before after r
  | String c r => String c (getSubstitution matched before after r)
  end.

Section Replace.
(** A global replace of the literal [pat]; [sub before after] is the text
    put in place of a match found between [before] and [after]. *)
Variable pat : string.
Variable sub : string -> string -> string.

(** Left-to-right scan. [skip] counts the characters of the current
    match still to be passed over. *)
Fixpoint scan (skip : nat) (before s : string) : string :=
  match s with
  | "" => ""
  | String c s' =>
      match skip with
      | S k => scan k (before +:+ String c "") s'
      | O =>
          if String.prefix pat s
          then sub before (drop (String.length pat) s)
               +:+ scan (String.length pat - 1)
                     (before +:+ String c "") s'
          else String c (scan 0 (before +:+ String c "") s')
      end
  end.

Definition replaceWith (s : string) : string := scan 0 "" s.
End Replace.

(** [s.replace(/pat/g, rep)] for a literal, non-empty [pat] and a string
    [rep]. *)
Definition replaceAll (pat rep s : string) : string :=
  replaceWith pat (fun before after => getSubstitution pat before after rep) s.

(** [s.length]: UTF-16 code units of a UTF-8 encoded string. *)
Definition codeUnits (c : ascii) : nat :=
  let n := nat_of_ascii c in
  if (n <? 128)%nat then 1%nat
  else if (n <? 192)%nat then 0%nat
  else if (n <? 240)%nat then 1%nat
  else 2%nat.

Fixpoint jsLength (s : string) : nat :=
  match s with
  | "" => 0%nat
  | String c s' => (codeUnits c + jsLength s')%nat
  end.

(** [s.includes(x)] as a proposition. *)
Definition occurs (x s : string) : Prop :=
  exists pre post, s = pre +:+ x +:+ post.

End JS.

(** U+20B9, the rupee sign, in UTF-8. *)
Definition rupee : string :=
  String "226" (String "130" (String "185" "")).

(** [personalizeMessage(template, customer)] of routes/campaigns. *)
Definition personalizeMessage (template : string) (customer : Customer.t)
    : string :=
  let spent :=
    match Customer.totalSpent customer with
    | Some v => JS.toLocaleString_enIN v
    | None => JS.showZ 0
    end in
  let visits :=
    match Customer.visitCount customer with
    | Some v => JS.showZ v
    | None => JS.showZ 0
    end in
  JS.replaceAll "{visitCount}" visits
    (JS.replaceAll "{totalSpent}" (rupee +:+ spent)
      (JS.replaceAll "{name}" (Customer.name customer) template)).

Definition johnDoe : Customer.t :=
  Customer.mk "c1" "John Doe" (Some 15000) (Some 8) None Customer.active None.

(** ** models/Campaign *)


Module Campaign.

Inductive Status :=
  draft | scheduled | running | completed | paused | cancelled.

Global Instance Status_eq_dec : EqDecision Status.
Proof. solve_decision. Defined.

Record Stats := mkStats {
  sent : nat;
  delivered : nat;
  failed : nat;
  pending : nat
}.

Record t := mk {
  _id : string;
  name : string;
  audienceRules : Audience.Rules;
  messageTemplate : string;
  audienceSize : nat;
  status : Status;
  startedAt : option Z;
  completedAt : option Z;
  stats : Stats;
  channel : Channel
}.

Definition set_stats (v : Stats) (c : t) : t :=
  mk (_id c) (name c) (audienceRules c) (messageTemplate c)
     (audienceSize c) (status c) (startedAt c) (completedAt c) v
     (channel c).
Definition set_status (v : Status) (c : t) : t :=
  mk (_id c) (name c) (audienceRules c) (messageTemplate c)
     (audienceSize c) v (startedAt c) (completedAt c) (stats c)
     (channel c).
Definition set_startedAt (v : option Z) (c : t) : t :=
  mk (_id c) (name c) (audienceRules c) (messageTemplate c)
     (audienceSize c) (status c) v (completedAt c) (stats c)
     (channel c).
Definition set_completedAt (v : option Z) (c : t) : t :=
  mk (_id c) (name c) (audienceRules c) (messageTemplate c)
     (audienceSize c) (status c) (startedAt c) v (stats c)
     (channel c).

(** [this.stats[status]]: [None] is [undefined]. *)
Definition readStat (s : Stats) (key : string) : option nat :=
  if String.eqb key "sent" then Some (sent s)
  else if String.eqb key "delivered" then Some (delivered s)
  else if String.eqb key "failed" then Some (failed s)
  else if String.eqb key "pending" then Some (pending s)
  else None.

(** [this.stats[status] = v] for a key of the stats block. *)
Definition writeStat (s : Stats) (key : string) (v : nat) : Stats :=
  if String.eqb key "sent" then mkStats v (delivered s) (failed s) (pending s)
  else if String.eqb key "delivered" then mkStats (sent s) v (failed s) (pending s)
  else if String.eqb key "failed" then mkStats (sent s) (delivered s) v (pending s)
  else if String.eqb key "pending" then mkStats (sent s) (delivered s) (failed s) v
  else s.

(** [updateStats(status)]; the caller stores the returned document. *)
Definition updateStats (key : string) (c : t) : t :=
  match readStat (stats c) key with
  | Some v => set_stats (writeStat (stats c) key (v + 1)%nat) c
  | None => c
  end.

Definition start (now : Z) (c : t) : t :=
  set_startedAt (Some now) (set_status running c).

Definition complete (now : Z) (c : t) : t :=
  set_completedAt (Some now) (set_status completed c).

End Campaign.

(** ** The store *)

Record DB := mkDB {
  customers : list Customer.t;
  campaigns : gmap string Campaign.t;
  logs : list CommunicationLog.t
}.

Definition set_campaigns (v : gmap string Campaign.t) (db : DB) : DB :=
  mkDB (customers db) v (logs db).
Definition set_logs (v : list CommunicationLog.t) (db : DB) : DB :=
  mkDB (customers db) (campaigns db) v.

(** [CommunicationLog.findOne({ messageId })]: the position and the
    document of the first match. *)
Definition findOne (messageId : string) (db : DB)
    : option (nat * CommunicationLog.t) :=
  list_find (fun l => CommunicationLog.messageId l = messageId) (logs db).

(** [Campaign.findById(id)] *)
Definition findById (id : string) (db : DB) : option Campaign.t :=
  campaigns db !! id.

(** ** routes/vendor *)

Module Vendor.

(** The clock readings and random draws of one receipt: [markedAt] is the
    [new Date()] of the mark method, [retryBase] the [Date.now()] of
    [markAsFailed], [completedAt] the [new Date()] of [complete], and
    [openDraw] says whether [Math.random() < 0.3] held. *)
Record Env := mkEnv {
  markedAt : Z;
  retryBase : Z;
  completedAt : Z;
  openDraw : bool
}.

(** How a call of [processDeliveryReceipt] ends: it returns after
    processing (with the document whose "opened" timer it armed, if any),
    it returns having discarded an unknown messageId, or it throws. *)
Inductive Outcome :=
  | Processed (timer : option (nat * CommunicationLog.t))
  | Discarded
  | Thrown (e : Error).

(** The key handed to [updateStats]. *)
Definition statKey (s : ReceiptStatus) : string :=
  match s with
  | r_bounced => "failed"
  | _ => statusName s
  end.

Definition mark (r : Receipt.t) (env : Env) (l : CommunicationLog.t)
    : Result CommunicationLog.t :=
  match Receipt.status r with
  | r_sent => CommunicationLog.markAsSent (markedAt env) l
  | r_delivered => CommunicationLog.markAsDelivered (markedAt env) l
  | r_failed | r_bounced =>
      CommunicationLog.markAsFailed (Receipt.errorCode r)
        (Receipt.errorMessage r) (markedAt env) (retryBase env) l
  end.

(** The campaign part of a receipt: count it, then complete the campaign
    when [sent + failed] has reached [audienceSize] while running. *)
Definition recordOutcome (r : Receipt.t) (env : Env) (c : Campaign.t)
    : Campaign.t :=
  let c1 := Campaign.updateStats (statKey (Receipt.status r)) c in
  let totalSent :=
    (Campaign.sent (Campaign.stats c1) + Campaign.failed (Campaign.stats c1))%nat in
  if (Campaign.audienceSize c1 <=? totalSent)%nat
     && bool_decide (Campaign.status c1 = Campaign.running)
  then Campaign.complete (completedAt env) c1
  else c1.

Definition processDeliveryReceipt (r : Receipt.t) (env : Env) (db : DB)
    : Outcome * DB :=
  match findOne (Receipt.messageId r) db with
  | None => (Discarded, db)
  | Some (i, log) =>
      let log1 :=
        CommunicationLog.set_vendor (Receipt.vendorMessageId r) (Some r) log in
      match mark r env log1 with
      | Throw e => (Thrown e, db)
      | Ok log2 =>
          let timer :=
            match Receipt.status r with
            | r_delivered => if openDraw env then Some (i, log2) else None
            | _ => None
            end in
          let db1 := set_logs (<[i := log2]> (logs db)) db in
          match findById (CommunicationLog.campaignId log2) db1 with
          | None => (Processed timer, db1)
          | Some c =>
              (Processed timer,
               set_campaigns
                 (<[CommunicationLog.campaignId log2 := recordOutcome r env c]>
                    (campaigns db1))
                 db1)
          end
      end
  end.

(** The armed timers: they act on the document captured when the receipt
    was processed and save the two paths they assign. *)
Definition openTimer (i : nat) (doc : CommunicationLog.t) (now : Z)
    (clickDraw : bool) (db : DB)
    : option (nat * CommunicationLog.t) * DB :=
  match CommunicationLog.markAsOpened now doc with
  | Ok doc' =>
      let stored l :=
        CommunicationLog.set_openedAt (CommunicationLog.openedAt doc')
          (CommunicationLog.set_status (CommunicationLog.status doc') l) in
      (if clickDraw then Some (i, doc') else None,
       if decide (CommunicationLog.status doc = CommunicationLog.delivered)
       then set_logs (alter stored i (logs db)) db else db)
  | Throw _ => (None, db)
  end.

Definition clickTimer (i : nat) (doc : CommunicationLog.t) (now : Z)
    (db : DB) : DB :=
  match CommunicationLog.markAsClicked now doc with
  | Ok doc' =>
      let stored l :=
        CommunicationLog.set_clickedAt (CommunicationLog.clickedAt doc')
          (CommunicationLog.set_status (CommunicationLog.status doc') l) in
      if decide (CommunicationLog.status doc = CommunicationLog.delivered
                 \/ CommunicationLog.status doc = CommunicationLog.opened)
      then set_logs (alter stored i (logs db)) db else db
  | Throw _ => db
  end.

(** [GET /track/open/:messageId] and [GET /track/click/:messageId]: what
    they do to the store; the response is the pixel, respectively the
    redirect, in every case. *)
Definition trackOpen (messageId : string) (now : Z) (db : DB) : DB :=
  match findOne messageId db with
  | Some (i, log) =>
      match CommunicationLog.markAsOpened now log with
      | Ok log' => set_logs (<[i := log']> (logs db)) db
      | Throw _ => db
      end
  | None => db
  end.

Definition trackClick (messageId : string) (now : Z) (db : DB) : DB :=
  match findOne messageId db with
  | Some (i, log) =>
      match CommunicationLog.markAsClicked now log with
      | Ok log' => set_logs (<[i := log']> (logs db)) db
      | Throw _ => db
      end
  | None => db
  end.


(** [POST /batch-update]: each update goes through
    [processDeliveryReceipt]; a throw is recorded and the loop goes on. *)
Fixpoint batchUpdate (updates : list (Receipt.t * Env)) (db : DB)
    : list Outcome * DB :=
  match updates with
  | [] => ([], db)
  | (r, env) :: rest =>
      let '(o, db1) := processDeliveryReceipt r env db in
      let '(os, db2) := batchUpdate rest db1 in
      (o :: os, db2)
  end.

End Vendor.

(** ** The validators in front of the campaign routes *)

(** The six fields a condition may name ([isIn] of the validators, [enum]
    of the schema). *)
Definition validField (f : string) : bool :=
  existsb (String.eqb f)
    ["totalSpent"; "visitCount"; "daysSinceLastOrder"; "status"; "city";
     "valueCategory"].

(** The validators of [audienceRules] shared by [POST /preview], [POST /]
    and [PUT /:id]: at least one condition, and every condition on one of
    the six fields (the operator is one of the nine by its type). *)
Definition validRules (rules : Audience.Rules) : bool :=
  match Audience.conditions rules with
  | [] => false
  | conds => forallb (fun cond => validField (Audience.field cond)) conds
  end.

(** [Customer.find] casts a filter value to the schema type of the path it
    is given for: [Number] for [totalSpent] and [visitCount], [String] for
    [status] and [city]; the two virtuals are not paths of the schema and
    their values are left as they are. A condition is well typed when that
    cast leaves its value as it is: a number on a number path, a string on a
    string path (for [in] and [nin] every element of the array), anything on
    a virtual and under [exists]. For other values the cast converts the
    value or throws, which [Audience.matchCriterion] does not follow. *)
Inductive Kind := KNumber | KString | KVirtual.

Definition pathKind (f : string) : Kind :=
  if String.eqb f "totalSpent" || String.eqb f "visitCount" then KNumber
  else if String.eqb f "status" || String.eqb f "city" then KString
  else KVirtual.

Definition hasKind (k : Kind) (s : Audience.Scalar) : bool :=
  match k, s with
  | KNumber, Audience.SNum _ => true
  | KString, Audience.SStr _ => true
  | KVirtual, _ => true
  | _, _ => false
  end.

Definition wellTyped (cond : Audience.Condition) : bool :=
  let k := pathKind (Audience.field cond) in
  validField (Audience.field cond) &&
  match Audience.operator cond with
  | Audience.op_exists => true
  | Audience.op_in | Audience.op_nin =>
      forallb (hasKind k) (Audience.asArray (Audience.value cond))
  | _ =>
      match Audience.value cond with
      | Audience.VScalar v => hasKind k v
      | Audience.VArray _ => match k with KVirtual => true | _ => false end
      end
  end.

Definition wellTypedRules (rules : Audience.Rules) : bool :=
  forallb wellTyped (Audience.conditions rules).

(** The sanitizer [trim()] and the validator [isLength] of express-validator
    (validator.js, as of 13.12), on UTF-8 encoded strings. *)
Module Validator.

Definition bytes (l : list nat) : string :=
  string_of_list_ascii (List.map ascii_of_nat l).

(** The characters the class [\s] holds: tab, line feed, vertical tab, form
    feed, carriage return, space, U+00A0, U+1680, U+2000 to U+200A, U+2028,
    U+2029, U+202F, U+205F, U+3000 and U+FEFF. *)
Definition whiteSpace : list string :=
  List.map bytes
    ([[9]; [10]; [11]; [12]; [13]; [32]; [194; 160]; [225; 154; 128]]
     ++ List.map (fun k => [226; 128; 128 + k]) (seq 0 11)
     ++ [[226; 128; 168]; [226; 128; 169]; [226; 128; 175]; [226; 129; 159];
         [227; 128; 128]; [239; 187; 191]])%nat.

Definition reverse (s : string) : string :=
  string_of_list_ascii (rev (list_ascii_of_string s)).

(** The string without one leading character of [spaces], if it starts
    with one. *)
Definition stripOne (spaces : list string) (s : string) : option string :=
  match List.find (fun w => String.prefix w s) spaces with
  | Some w => Some (JS.drop (String.length w) s)
  | None => None
  end.

Fixpoint stripAll (spaces : list string) (fuel : nat) (s : string) : string :=
  match fuel with
  | O => s
  | S fuel' =>
      match stripOne spaces s with
      | Some s' => stripAll spaces fuel' s'
      | None => s
      end
  end.

Definition ltrim (s : string) : string :=
  stripAll whiteSpace (String.length s) s.

Definition rtrim (s : string) : string :=
  reverse (stripAll (List.map reverse whiteSpace) (String.length s) (reverse s)).

(** [trim(str)] is [rtrim(ltrim(str))]. *)
Definition trim (s : string) : string := rtrim (ltrim s).

(** The length [isLength] compares: [str.length] less the surrogate pairs
    and less the variation selectors U+FE0E and U+FE0F, that is the code
    points other than these two. *)
Definition isLead (c : ascii) : bool :=
  let n := nat_of_ascii c in (n <? 128)%nat || (192 <=? n)%nat.

Fixpoint countedLength (s : string) : nat :=
  match s with
  | "" => 0%nat
  | String c s' =>
      ((if isLead c
           && negb (String.prefix (bytes [239; 184; 142]) s
                    || String.prefix (bytes [239; 184; 143]) s)
        then 1 else 0) + countedLength s')%nat
  end.

Definition isLength (lo hi : nat) (s : string) : bool :=
  let n := countedLength s in (lo <=? n)%nat && (n <=? hi)%nat.

End Validator.

(** [validateCampaign] on the fields of a body: the name and the template
    are trimmed in place and must then count 1 to 100, respectively 1 to
    1000, characters; the rule must pass [validRules]. The optional
    [description] and [type], which nothing modelled here reads, are taken
    to be absent or valid. *)
Definition validateCampaign (name template : string)
    (rules : Audience.Rules) : bool :=
  Validator.isLength 1 100 (Validator.trim name)
  && Validator.isLength 1 1000 (Validator.trim template)
  && validRules rules.

(** The validators of the campaign schema that a validated body can still
    fail: [maxlength] compares [length], which counts a character outside
    the basic plane twice. *)
Definition schemaAccepts (c : Campaign.t) : bool :=
  (0 <? JS.jsLength (Campaign.name c))%nat
  && (JS.jsLength (Campaign.name c) <=? 100)%nat
  && (0 <? JS.jsLength (Campaign.messageTemplate c))%nat
  && (JS.jsLength (Campaign.messageTemplate c) <=? 1000)%nat.

(** ** routes/campaigns *)

Module Campaigns.

(** What a launch reads from its environment: the clock at [start()], the
    [Date.now()] and the random suffix that go into the i-th messageId,
    and whether the i-th [axios.post] to the vendor resolved. *)
Record Env := mkEnv {
  startedNow : Z;
  idClock : nat -> Z;
  idSuffix : nat -> string;
  accepted : nat -> bool
}.

(** The writes and calls a launch issues, in order. A save sends the
    modified paths of the in-memory campaign document: [SaveStarted] is
    the save of [start()], [SaveStat] the save of [updateStats] (the key
    and the value now held under it, if the key names a counter). *)
Inductive Effect :=
  | SaveStarted (cid : string) (now : Z)
  | InsertMany (docs : list CommunicationLog.t)
  | VendorSend (log : CommunicationLog.t)
  | SaveStat (cid : string) (key : string) (v : option nat).

Definition newMessageId (cid : string) (env : Env) (index : nat) : string :=
  "MSG-" +:+ cid +:+ "-" +:+ JS.showZ (idClock env index) +:+ "-"
  +:+ JS.showZ (Z.of_nat index) +:+ "-" +:+ idSuffix env index.

(** The log document made for one customer; the schema defaults fill the
    fields the route leaves out. *)
Definition newLog (campaign : Campaign.t) (env : Env) (index : nat)
    (customer : Customer.t) : CommunicationLog.t :=
  CommunicationLog.mk
    (Campaign._id campaign) (Customer._id customer)
    (newMessageId (Campaign._id campaign) env index)
    (personalizeMessage (Campaign.messageTemplate campaign) customer)
    (Campaign.channel campaign)
    CommunicationLog.pending None None None None None None None None None
    0%nat None
    (CommunicationLog.mkData (Customer.name customer)
       (Customer.totalSpent customer) (Customer.visitCount customer)).

(** [insertMany] validates every document first and inserts none when one
    fails: [message] is required and at most 2000 characters long. *)
Definition validLog (l : CommunicationLog.t) : bool :=
  let n := JS.jsLength (CommunicationLog.message l) in
  (0 <? n)%nat && (n <=? 2000)%nat.

(** [sendMessagesToVendor]: for each log in turn the vendor call, then
    the count on the launch's own campaign document. [index] is the
    position of the first log of [logs] in the batch. *)
Fixpoint sendMessagesToVendor (logs : list CommunicationLog.t)
    (campaign : Campaign.t) (env : Env) (index : nat)
    : list Effect * Campaign.t :=
  match logs with
  | [] => ([], campaign)
  | log :: rest =>
      let key := if accepted env index then "sent" else "failed" in
      let campaign' := Campaign.updateStats key campaign in
      let '(effects, final) :=
        sendMessagesToVendor rest campaign' env (S index) in
      (VendorSend log
         :: SaveStat (Campaign._id campaign) key
              (Campaign.readStat (Campaign.stats campaign') key)
         :: effects,
       final)
  end.

Definition launchCampaign (campaign : Campaign.t)
    (audience : list Customer.t) (env : Env)
    : list Effect * Result Campaign.t :=
  let started := Campaign.start (startedNow env) campaign in
  let communicationLogs := imap (newLog started env) audience in
  let saved := SaveStarted (Campaign._id campaign) (startedNow env) in
  match communicationLogs with
  | [] => ([saved], Ok started)
  | _ =>
      if forallb validLog communicationLogs then
        let '(effects, final) :=
          sendMessagesToVendor communicationLogs started env 0 in
        (saved :: InsertMany communicationLogs :: effects, Ok final)
      else ([saved], Throw (ValidationError "message"))
  end.

(** What an effect does to the store. *)
Definition applyEffect (db : DB) (e : Effect) : DB :=
  match e with
  | SaveStarted cid now =>
      set_campaigns (alter (Campaign.start now) cid (campaigns db)) db
  | InsertMany docs => set_logs (logs db ++ docs) db
  | VendorSend _ => db
  | SaveStat cid key (Some v) =>
      set_campaigns
        (alter (fun c =>
                  Campaign.set_stats
                    (Campaign.writeStat (Campaign.stats c) key v) c)
               cid (campaigns db))
        db
  | SaveStat _ _ None => db
  end.

Definition exec (effects : list Effect) (db : DB) : DB :=
  foldl applyEffect db effects.

Inductive Response :=
  | R200 (message : string)
  | R201 (message : string)
  | R400 (message : string)
  | R404 (message : string)
  | R500 (e : Error).

(** The error-handling middleware of the server, which [next(error)]
    reaches: a Mongoose [ValidationError] is answered 400. *)
Definition errorResponse (e : Error) : Response :=
  match e with
  | ValidationError _ => R400 "Validation Error"
  end.

(** [POST /:id/launch], past the [auth] middleware. *)
Definition launchRoute (id : string) (env : Env) (db : DB)
    : Response * list Effect :=
  match findById id db with
  | None => (R404 "Campaign not found", [])
  | Some campaign =>
      if decide (Campaign.status campaign <> Campaign.draft)
      then (R400 "Only draft campaigns can be launched", [])
      else
        let audience :=
          Audience.evaluateAudience (customers db)
            (Some (Campaign.audienceRules campaign)) in
        match launchCampaign campaign audience env with
        | (effects, Ok _) => (R200 "Campaign launched successfully", effects)
        | (effects, Throw e) => (errorResponse e, effects)
        end
  end.

(** The route run to its end with nothing else in between. *)
Definition postLaunch (id : string) (env : Env) (db : DB)
    : Response * DB :=
  let '(response, effects) := launchRoute id env db in
  (response, exec effects db).

(** The body of [POST /]: the fields [validateCampaign] names, the
    [launch] flag, and the fields of the campaign schema the model follows,
    which [new Campaign({...req.body})] takes from the body as well
    ([None] and zero counters stand for an absent field). *)
Record Body := mkBody {
  b_name : string;
  b_messageTemplate : string;
  b_audienceRules : Audience.Rules;
  b_channel : Channel;
  b_launch : bool;
  b_status : option Campaign.Status;
  b_stats : Campaign.Stats;
  b_startedAt : option Z;
  b_completedAt : option Z
}.

(** The document [new Campaign({...req.body, audienceSize})] makes of a
    validated (and so trimmed) body. *)
Definition newCampaign (body : Body) (newId : string) (audienceSize : nat)
    : Campaign.t :=
  Campaign.mk newId (Validator.trim (b_name body)) (b_audienceRules body)
    (Validator.trim (b_messageTemplate body)) audienceSize
    (default Campaign.draft (b_status body))
    (b_startedAt body) (b_completedAt body) (b_stats body) (b_channel body).

(** [POST /]: validate the body, create the campaign with the size of the
    audience found now, and launch it at once when asked to. [newId] is the
    [_id] the new document gets; a document of that [_id] in the collection
    makes the insert fail on the index of [_id]. *)
Definition postCreate (body : Body) (newId : string) (env : Env) (db : DB)
    : Response * DB :=
  if validateCampaign (b_name body) (b_messageTemplate body)
       (b_audienceRules body)
  then
    let audience :=
      Audience.evaluateAudience (customers db)
        (Some (b_audienceRules body)) in
    let campaign := newCampaign body newId (length audience) in
    if negb (schemaAccepts campaign) then (R400 "Validation Error", db)
    else if bool_decide (is_Some (findById newId db))
    then (R400 "_id already exists", db)
    else
      let db1 := set_campaigns (<[newId := campaign]> (campaigns db)) db in
      if b_launch body then
        match launchCampaign campaign audience env with
        | (effects, Ok _) =>
            (R201 "Campaign created and launched successfully",
             exec effects db1)
        | (effects, Throw e) => (errorResponse e, exec effects db1)
        end
      else (R201 "Campaign created successfully", db1)
  else (R400 "Validation failed", db).

End Campaigns.

(** ** Schedules: a launch interleaved with the other handlers *)

Module Schedule.

(** One atomic step of the server: the next write or call of the launch
    under observation, or one run of another handler or timer. *)
Inductive Step :=
  | Launch (e : Campaigns.Effect)
  | Receipt (r : Receipt.t) (env : Vendor.Env)
  | TrackOpen (messageId : string) (now : Z)
  | TrackClick (messageId : string) (now : Z)
  | OpenTimer (i : nat) (doc : CommunicationLog.t) (now : Z) (clickDraw : bool)
  | ClickTimer (i : nat) (doc : CommunicationLog.t) (now : Z).

Definition step (db : DB) (s : Step) : DB :=
  match s with
  | Launch e => Campaigns.applyEffect db e
  | Receipt r env => (Vendor.processDeliveryReceipt r env db).2
  | TrackOpen m now => Vendor.trackOpen m now db
  | TrackClick m now => Vendor.trackClick m now db
  | OpenTimer i doc now clickDraw => (Vendor.openTimer i doc now clickDraw db).2
  | ClickTimer i doc now => Vendor.clickTimer i doc now db
  end.

Definition run (schedule : list Step) (db : DB) : DB :=
  foldl step db schedule.

(** The launch's own effects within a schedule. *)
Definition launchOf (schedule : list Step) : list Campaigns.Effect :=
  omap (fun s => match s with Launch e => Some e | _ => None end) schedule.

End Schedule.

(** ** Further parts of the models and routes *)

(** [Math.ceil(a / b)] for integers [a] and [b > 0]. *)
Definition ceilDiv (a b : Z) : Z := - ((- a) / b).

(** [Math.ceil(Math.abs(t2 - t1) / (1000 * 60))] *)
Definition minutesBetween (t1 t2 : Z) : Z :=
  ceilDiv (Z.abs (t2 - t1)) (1000 * 60).

(** The [duration] virtual of a campaign. *)
Definition duration (c : Campaign.t) : option Z :=
  match Campaign.startedAt c, Campaign.completedAt c with
  | Some started, Some completed => Some (minutesBetween started completed)
  | _, _ => None
  end.

(** The [deliveryTime] virtual of a communication log. *)
Definition deliveryTime (l : CommunicationLog.t) : option Z :=
  match CommunicationLog.sentAt l, CommunicationLog.deliveredAt l with
  | Some sent, Some delivered => Some (minutesBetween sent delivered)
  | _, _ => None
  end.

(** [CommunicationLog.getMessagesForRetry()] at clock reading [now],
    without the [populate]. *)
Definition getMessagesForRetry (now : Z) (db : DB) : list CommunicationLog.t :=
  List.filter (CommunicationLog.dueForRetry now) (logs db).

(** The [summary] of [POST /batch-update]: an update is reported as
    processed when [processDeliveryReceipt] returned, as an error when it
    threw. *)
Definition isError (o : Vendor.Outcome) : bool :=
  match o with Vendor.Thrown _ => true | _ => false end.

Record Summary := mkSummary {
  total : nat;
  processed : nat;
  errors : nat
}.

Definition batchSummary (outcomes : list Vendor.Outcome) : Summary :=
  mkSummary (length outcomes)
    (length (List.filter (fun o => negb (isError o)) outcomes))
    (length (List.filter isError outcomes)).

(** [POST /preview]: [None] is the 400 answer of the validators;
    otherwise the size of the audience and its first five customers. *)
Record Preview := mkPreview {
  p_audienceSize : nat;
  p_sampleCustomers : list Customer.t
}.

Definition postPreview (rules : Audience.Rules) (db : DB) : option Preview :=
  if validRules rules then
    let audience := Audience.evaluateAudience (customers db) (Some rules) in
    Some (mkPreview (length audience) (take 5 audience))
  else None.

(** The body of [PUT /:id]: the fields [validateCampaign] names (the
    channel is optional) and the fields of the campaign schema the model
    follows, which [findByIdAndUpdate(id, req.body)] sets when the body
    holds them. *)
Record Changes := mkChanges {
  u_name : string;
  u_messageTemplate : string;
  u_audienceRules : Audience.Rules;
  u_channel : option Channel;
  u_status : option Campaign.Status;
  u_stats : option Campaign.Stats;
  u_startedAt : option Z;
  u_completedAt : option Z
}.

(** The document after [findByIdAndUpdate] with a validated body. *)
Definition updatedCampaign (body : Changes) (audienceSize : nat)
    (campaign : Campaign.t) : Campaign.t :=
  Campaign.mk (Campaign._id campaign) (Validator.trim (u_name body))
    (u_audienceRules body) (Validator.trim (u_messageTemplate body))
    audienceSize
    (default (Campaign.status campaign) (u_status body))
    (match u_startedAt body with
     | Some t => Some t
     | None => Campaign.startedAt campaign
     end)
    (match u_completedAt body with
     | Some t => Some t
     | None => Campaign.completedAt campaign
     end)
    (default (Campaign.stats campaign) (u_stats body))
    (default (Campaign.channel campaign) (u_channel body)).

Definition putUpdate (id : string) (body : Changes) (db : DB)
    : Campaigns.Response * DB :=
  if validateCampaign (u_name body) (u_messageTemplate body)
       (u_audienceRules body)
  then
    match findById id db with
    | None => (Campaigns.R404 "Campaign not found", db)
    | Some campaign =>
        if decide (Campaign.status campaign <> Campaign.draft)
        then (Campaigns.R400 "Only draft campaigns can be updated", db)
        else
          let audience :=
            Audience.evaluateAudience (customers db)
              (Some (u_audienceRules body)) in
          let updated := updatedCampaign body (length audience) campaign in
          if negb (schemaAccepts updated)
          then (Campaigns.R400 "Validation Error", db)
          else
            (Campaigns.R200 "Campaign updated successfully",
             set_campaigns (<[id := updated]> (campaigns db)) db)
    end
  else (Campaigns.R400 "Validation failed", db).

(** The pagination of [GET /]: [matches] is what [find(filter).sort(sort)]
    yields before [skip] and [limit]; [page >= 1] and [1 <= limit <= 100]
    are checked by the route's validators ([None] is their 400 answer). *)
Module Listing.

Record Pagination := mkPagination {
  currentPage : nat;
  totalPages : nat;
  totalCount : nat;
  hasNextPage : bool;
  hasPrevPage : bool
}.

(** [Math.ceil(totalCount / limit)] *)
Definition pages (count limit : nat) : nat := ((count + limit - 1) / limit)%nat.

Definition paginate {A : Type} (matches : list A) (page limit : nat)
    : option (list A * Pagination) :=
  if (1 <=? page)%nat && (1 <=? limit)%nat && (limit <=? 100)%nat then
    let skip := ((page - 1) * limit)%nat in
    let totalPages := pages (length matches) limit in
    Some (take limit (drop skip matches),
          mkPagination page totalPages (length matches)
            (page <? totalPages)%nat (1 <? page)%nat)
  else None.

End Listing.

(** The calls of the campaign and vendor routes, one after the other. *)
Inductive Call :=
  | Create (body : Campaigns.Body) (newId : string) (env : Campaigns.Env)
  | Update (id : string) (body : Changes)
  | LaunchById (id : string) (env : Campaigns.Env)
  | DeliveryReceipt (r : Receipt.t) (env : Vendor.Env)
  | BatchUpdate (updates : list (Receipt.t * Vendor.Env))
  | Open (messageId : string) (now : Z)
  | Click (messageId : string) (now : Z).

Definition call (db : DB) (c : Call) : DB :=
  match c with
  | Create body newId env => (Campaigns.postCreate body newId env db).2
  | Update id body => (putUpdate id body db).2
  | LaunchById id env => (Campaigns.postLaunch id env db).2
  | DeliveryReceipt r env => (Vendor.processDeliveryReceipt r env db).2
  | BatchUpdate updates => (Vendor.batchUpdate updates db).2
  | Open m now => Vendor.trackOpen m now db
  | Click m now => Vendor.trackClick m now db
  end.

Definition calls (cs : list Call) (db : DB) : DB := foldl call db cs.

(** A condition is the last of a rule to name its field. *)
Definition lastForField (conds : list Audience.Condition)
    (cond : Audience.Condition) : Prop :=
  exists pre post,
    conds = pre ++ cond :: post /\
    forall other, other ∈ post -> Audience.field other <> Audience.field cond.

(** The two virtual fields of the customer schema a condition may name. *)
Definition virtualField (f : string) : Prop :=
  f = "valueCategory" \/ f = "daysSinceLastOrder".

(** Every log entry of a store respects the schema bound on retries. *)
Definition retriesBounded (db : DB) : Prop :=
  Forall (fun l => (CommunicationLog.retryCount l <= 3)%nat) (logs db).

(** The fields of a log entry no method assigns. *)
Definition sameMessage (l l' : CommunicationLog.t) : Prop :=
  CommunicationLog.campaignId l' = CommunicationLog.campaignId l /\
  CommunicationLog.customerId l' = CommunicationLog.customerId l /\
  CommunicationLog.messageId l' = CommunicationLog.messageId l /\
  CommunicationLog.message l' = CommunicationLog.message l /\
  CommunicationLog.channel l' = CommunicationLog.channel l /\
  CommunicationLog.personalizedData l' = CommunicationLog.personalizedData l.

(** ** Observations and sample data used by the statements *)

Definition undelivered (s : CommunicationLog.Status) : Prop :=
  s = CommunicationLog.pending \/ s = CommunicationLog.sent \/
  s = CommunicationLog.failed \/ s = CommunicationLog.bounced.

Definition sampleLog (status : CommunicationLog.Status) (retries : nat)
    : CommunicationLog.t :=
  CommunicationLog.mk "c1" "u1" "MSG-c1-0-0-abc" "Hi John Doe" email status
    None None None None None None None None None retries (Some 0)
    (CommunicationLog.mkData "John Doe" (Some 15000) (Some 8)).

Definition isFailure (s : ReceiptStatus) : Prop := s = r_failed \/ s = r_bounced.

Definition failedReceipt : Receipt.t :=
  Receipt.mk "MSG-c1-0-0-abc" r_failed 0 (Some "DELIVERY_FAILED")
    (Some "recipient unavailable") (Some "VENDOR-1").

Definition receiptEnv : Vendor.Env := Vendor.mkEnv 1000 1000 2000 false.

Definition sampleRules : Audience.Rules :=
  Audience.mkRules
    [Audience.mkCond "totalSpent" Audience.op_gt
       (Audience.VScalar (Audience.SNum 10000))]
    Audience.AND.

Definition sampleCampaign (status : Campaign.Status) (size : nat)
    : Campaign.t :=
  Campaign.mk "c1" "Diwali" sampleRules "Hi {name}" size status None None
    (Campaign.mkStats 0 0 0 0) email.

Definition launchEnv : Campaigns.Env :=
  Campaigns.mkEnv 100 (fun _ => 0) (fun _ => "abc") (fun _ => true).

(** The log status a receipt leaves behind. *)
Definition markedStatus (s : ReceiptStatus) : CommunicationLog.Status :=
  match s with
  | r_sent => CommunicationLog.sent
  | r_delivered => CommunicationLog.delivered
  | r_failed | r_bounced => CommunicationLog.failed
  end.


Definition sentReceipt : Receipt.t :=
  Receipt.mk "MSG-c1-0-0-abc" r_sent 0 None None (Some "VENDOR-1").

Definition runningStore : DB :=
  mkDB [johnDoe] {[ "c1" := sampleCampaign Campaign.running 5 ]}
    [sampleLog CommunicationLog.pending 0].

(** The vendor submissions among a launch's effects. *)
Definition submissions (effects : list Campaigns.Effect)
    : list CommunicationLog.t :=
  omap (fun e => match e with Campaigns.VendorSend l => Some l | _ => None end)
       effects.

(** The batch inserts among a launch's effects. *)
Definition batches (effects : list Campaigns.Effect)
    : list (list CommunicationLog.t) :=
  omap (fun e => match e with Campaigns.InsertMany b => Some b | _ => None end)
       effects.

(** The messageIds the log collection holds. *)
Definition messageIds (db : DB) : list string :=
  CommunicationLog.messageId <$> logs db.

Definition emptyStore : DB := mkDB [johnDoe] ∅ [].

Definition launchBody : Campaigns.Body :=
  Campaigns.mkBody "Diwali" "Hi {name}" sampleRules email true None
    (Campaign.mkStats 0 0 0 0) None None.










Definition spent (id : string) (amount : Z) : Customer.t :=
  Customer.mk id id (Some amount) (Some 1) None Customer.active None.

Definition threeCustomers : list Customer.t :=
  [spent "a" 500; spent "b" 3000; spent "c" 15000].

Definition above1000 : Audience.Condition :=
  Audience.mkCond "totalSpent" Audience.op_gt (Audience.VScalar (Audience.SNum 1000)).
Definition below5000 : Audience.Condition :=
  Audience.mkCond "totalSpent" Audience.op_lt (Audience.VScalar (Audience.SNum 5000)).

(** The customers that match every condition of a list, each condition
    taken alone. *)
Definition matchAll (customers : list Customer.t)
    (conds : list Audience.Condition) : list Customer.t :=
  List.filter (fun c => forallb (Audience.matchesCondition c) conds) customers.

(** The customers that match at least one condition. *)
Definition matchAny (customers : list Customer.t)
    (conds : list Audience.Condition) : list Customer.t :=
  List.filter (fun c => existsb (Audience.matchesCondition c) conds) customers.

(** One of two strings is a prefix of the other. *)
Definition agree (a b : string) : bool :=
  String.prefix a b || String.prefix b a.

(** [x] is a barrier for [pat]: in no string does an occurrence of [pat]
    overlap an occurrence of [x]. *)
Definition Barrier (pat x : string) : Prop :=
  forall pre post u v,
    pre +:+ x +:+ post = u +:+ pat +:+ v ->
    (String.length u + String.length pat <= String.length pre)%nat \/
    (String.length pre + String.length x <= String.length u)%nat.

(** The same test for two given strings, by computation. *)
Definition clashb (pat x : string) : bool :=
  forallb (fun k => negb (agree (JS.drop k pat) x))
          (seq 1 (String.length pat - 1))
  && forallb (fun j => negb (agree pat (JS.drop j x)))
             (seq 0 (String.length x)).

Fixpoint hasChar (c : ascii) (s : string) : bool :=
  match s with
  | "" => false
  | String d s' => Ascii.eqb c d || hasChar c s'
  end.

(** A name between braces holds no brace itself. *)
Definition braceFree (w : string) : Prop :=
  hasChar "{" w = false /\ hasChar "}" w = false.

Definition token (w : string) : string := "{" +:+ w +:+ "}".

Definition rupee15000 : string := rupee +:+ "15,000".

Definition premiumOnly : Audience.Condition :=
  Audience.mkCond "valueCategory" Audience.op_eq
    (Audience.VScalar (Audience.SStr "premium")).

(** How many of the first [n] vendor calls of a launch resolved, and how
    many were rejected. *)
Definition acceptedCount (env : Campaigns.Env) (index n : nat) : nat :=
  length (List.filter (Campaigns.accepted env) (seq index n)).

Definition refusedCount (env : Campaigns.Env) (index n : nat) : nat :=
  length (List.filter (fun i => negb (Campaigns.accepted env i)) (seq index n)).

(** Every campaign is stored under its own [_id]. *)
Definition keyed (db : DB) : Prop :=
  forall k c, campaigns db !! k = Some c -> Campaign._id c = k.

(** What the author of a campaign wrote, and the audience size recorded
    with it. *)
Definition sameContent (c c' : Campaign.t) : Prop :=
  Campaign._id c' = Campaign._id c /\
  Campaign.name c' = Campaign.name c /\
  Campaign.audienceRules c' = Campaign.audienceRules c /\
  Campaign.messageTemplate c' = Campaign.messageTemplate c /\
  Campaign.channel c' = Campaign.channel c /\
  Campaign.audienceSize c' = Campaign.audienceSize c.

(** The body of [POST /] with its [launch] flag set to [b]. *)
Definition withLaunch (b : bool) (body : Campaigns.Body) : Campaigns.Body :=
  Campaigns.mkBody (Campaigns.b_name body) (Campaigns.b_messageTemplate body)
    (Campaigns.b_audienceRules body) (Campaigns.b_channel body) b
    (Campaigns.b_status body) (Campaigns.b_stats body)
    (Campaigns.b_startedAt body) (Campaigns.b_completedAt body).

(** The campaign document a launch ends with when every vendor call has
    been counted. *)
Definition launched (campaign : Campaign.t) (env : Campaigns.Env) (n : nat)
    : Campaign.t :=
  let started := Campaign.start (Campaigns.startedNow env) campaign in
  Campaign.set_stats
    (Campaign.mkStats
       (Campaign.sent (Campaign.stats campaign) + acceptedCount env 0 n)
       (Campaign.delivered (Campaign.stats campaign))
       (Campaign.failed (Campaign.stats campaign) + refusedCount env 0 n)
       (Campaign.pending (Campaign.stats campaign)))
    started.

(** A store with one draft campaign and the customer it selects. *)
Definition draftStore : DB :=
  mkDB [johnDoe] {[ "c1" := sampleCampaign Campaign.draft 1 ]} [].

Fixpoint repeatString (n : nat) (s : string) : string :=
  match n with
  | O => ""
  | S n' => s +:+ repeatString n' s
  end.

(** A customer with a name of 100 characters and a draft campaign whose
    template (180 characters) names the customer 30 times: the message
    rendered for that customer has 3000 characters. *)
Definition longNamed : Customer.t :=
  Customer.mk "u2" (repeatString 100 "a") (Some 15000) (Some 8) None
    Customer.active None.

Definition echoCampaign : Campaign.t :=
  Campaign.mk "c1" "Echo" sampleRules (repeatString 30 "{name}") 1
    Campaign.draft None None (Campaign.mkStats 0 0 0 0) email.

Definition echoStore : DB := mkDB [longNamed] {[ "c1" := echoCampaign ]} [].

(** The ids a sequence of calls creates campaigns under. *)
Definition createdIds (cs : list Call) : list string :=
  omap (fun c => match c with Create _ newId _ => Some newId | _ => None end) cs.

(** What stays of a campaign that has left the draft state. *)
Definition settled (c c' : Campaign.t) : Prop :=
  sameContent c c' /\
  Campaign.startedAt c' = Campaign.startedAt c /\
  Campaign.status c' <> Campaign.draft /\
  (Campaign.status c <> Campaign.running ->
   Campaign.status c' = Campaign.status c /\
   Campaign.completedAt c' = Campaign.completedAt c).

(** The receipts of a batch as steps of a schedule. *)
Definition receiptSteps (updates : list (Receipt.t * Vendor.Env))
    : list Schedule.Step :=
  (fun u => Schedule.Receipt u.1 u.2) <$> updates.





(** * Properties *)

(** ** Value categories (C9) *)

(** C9: for a customer with non-negative totalSpent the value category is
    "new" exactly below 1000, "regular" exactly in [1000, 10000),
    "high-value" exactly in [10000, 50000) and "premium" exactly from 50000
    upwards. *)
Theorem valueCategory_thresholds (c : Customer.t) (v : Z) :
  Customer.totalSpent c = Some v -> 0 <= v ->
  (Customer.valueCategory c = "new" <-> v < 1000) /\
  (Customer.valueCategory c = "regular" <-> 1000 <= v < 10000) /\
  (Customer.valueCategory c = "high-value" <-> 10000 <= v < 50000) /\
  (Customer.valueCategory c = "premium" <-> 50000 <= v).
Proof.
  intros Hv Hpos.
  unfold Customer.valueCategory, Customer.spentAtLeast. rewrite Hv.
  destruct (Z.leb_spec 50000 v); [repeat split; (lia || discriminate || done)|].
  destruct (Z.leb_spec 10000 v); [repeat split; (lia || discriminate || done)|].
  destruct (Z.leb_spec 1000 v); repeat split; (lia || discriminate || done).
Qed.

Lemma valueCategory_thresholds_witness :
  (Customer.valueCategory johnDoe = "new" <-> 15000 < 1000) /\
  (Customer.valueCategory johnDoe = "regular" <-> 1000 <= 15000 < 10000) /\
  (Customer.valueCategory johnDoe = "high-value" <-> 10000 <= 15000 < 50000) /\
  (Customer.valueCategory johnDoe = "premium" <-> 50000 <= 15000).
Proof.
  exact (valueCategory_thresholds johnDoe 15000 eq_refl ltac:(lia)).
Defined.

(** ** Evaluations *)

Example personalize_john :
  personalizeMessage "Hi {name}, you spent {totalSpent} in {visitCount} visits {x}" johnDoe
  = "Hi John Doe, you spent " +:+ rupee +:+ "15,000 in 8 visits {x}".
Proof. vm_compute. reflexivity. Qed.

Example toLocale_lakh : JS.toLocaleString_enIN 1234567 = "12,34,567".
Proof. vm_compute. reflexivity. Qed.

Example replace_dollar :
  JS.replaceAll "{name}" "<$&|$$>" "a{name}b" = "a<{name}|$>b".
Proof. vm_compute. reflexivity. Qed.

(** ** Store lemmas *)

Lemma set_logs_same (db : DB) : set_logs (logs db) db = db.
Proof. by destruct db. Qed.

Lemma findOne_lookup (m : string) (db : DB) (i : nat)
    (l : CommunicationLog.t) :
  findOne m db = Some (i, l) ->
  logs db !! i = Some l /\ CommunicationLog.messageId l = m.
Proof.
  unfold findOne. intros H. apply list_find_Some in H. tauto.
Qed.

Lemma store_same_doc (db : DB) (i : nat) (l : CommunicationLog.t) :
  logs db !! i = Some l -> set_logs (<[i := l]> (logs db)) db = db.
Proof.
  intros H. rewrite list_insert_id by done. apply set_logs_same.
Qed.

(** Overwriting the found entry with a document of the same messageId does
    not change which entry [findOne] finds. *)
Lemma findOne_stored (m : string) (db : DB) (i : nat)
    (l l' : CommunicationLog.t) :
  findOne m db = Some (i, l) ->
  CommunicationLog.messageId l' = m ->
  findOne m (set_logs (<[i := l']> (logs db)) db) = Some (i, l').
Proof.
  unfold findOne. intros H Hm. apply list_find_Some in H as (Hi & _ & Hbefore).
  apply list_find_Some. simpl. split_and!.
  - apply list_lookup_insert_eq. by eapply lookup_lt_Some.
  - done.
  - intros j y Hj Hlt. rewrite list_lookup_insert_ne in Hj by lia. eauto.
Qed.

Lemma findOne_campaigns (m : string) (db : DB)
    (cs : gmap string Campaign.t) :
  findOne m (set_campaigns cs db) = findOne m db.
Proof. done. Qed.

(** The mark methods leave the identifying fields alone. *)
Lemma mark_keeps_ids (r : Receipt.t) (env : Vendor.Env)
    (l l' : CommunicationLog.t) :
  Vendor.mark r env l = Ok l' ->
  CommunicationLog.messageId l' = CommunicationLog.messageId l /\
  CommunicationLog.campaignId l' = CommunicationLog.campaignId l.
Proof.
  unfold Vendor.mark, CommunicationLog.markAsSent,
    CommunicationLog.markAsDelivered, CommunicationLog.markAsFailed,
    CommunicationLog.save.
  destruct (Receipt.status r); simpl;
    repeat case_match; intros [= <-]; done.
Qed.

(** ** Engagement tracking (C10) *)

Lemma markAsOpened_spec (now : Z) (l : CommunicationLog.t) :
  CommunicationLog.markAsOpened now l =
  Ok (if decide (CommunicationLog.status l = CommunicationLog.delivered)
      then CommunicationLog.set_openedAt (Some now)
             (CommunicationLog.set_status CommunicationLog.opened l)
      else l).
Proof. unfold CommunicationLog.markAsOpened. by case_decide. Qed.

Lemma markAsClicked_spec (now : Z) (l : CommunicationLog.t) :
  CommunicationLog.markAsClicked now l =
  Ok (if decide (CommunicationLog.status l = CommunicationLog.delivered \/
                 CommunicationLog.status l = CommunicationLog.opened)
      then CommunicationLog.set_clickedAt (Some now)
             (CommunicationLog.set_status CommunicationLog.clicked l)
      else l).
Proof. unfold CommunicationLog.markAsClicked. by case_decide. Qed.

(** C10: markAsOpened changes an entry (to opened, with openedAt) only from
    delivered, markAsClicked (to clicked, with clickedAt) only from delivered
    or opened; on an entry that is pending, sent, failed or bounced both
    return it unchanged, and the tracking endpoints leave the store as it
    is. *)
Theorem engagement_guarded (l : CommunicationLog.t) (now : Z) :
  (CommunicationLog.status l = CommunicationLog.delivered ->
     CommunicationLog.markAsOpened now l =
     Ok (CommunicationLog.set_openedAt (Some now)
           (CommunicationLog.set_status CommunicationLog.opened l))) /\
  (CommunicationLog.status l <> CommunicationLog.delivered ->
     CommunicationLog.markAsOpened now l = Ok l) /\
  (CommunicationLog.status l = CommunicationLog.delivered \/
   CommunicationLog.status l = CommunicationLog.opened ->
     CommunicationLog.markAsClicked now l =
     Ok (CommunicationLog.set_clickedAt (Some now)
           (CommunicationLog.set_status CommunicationLog.clicked l))) /\
  (CommunicationLog.status l <> CommunicationLog.delivered ->
   CommunicationLog.status l <> CommunicationLog.opened ->
     CommunicationLog.markAsClicked now l = Ok l) /\
  (undelivered (CommunicationLog.status l) ->
     CommunicationLog.markAsOpened now l = Ok l /\
     CommunicationLog.markAsClicked now l = Ok l /\
     forall (db : DB) (m : string) (i : nat),
       findOne m db = Some (i, l) ->
       Vendor.trackOpen m now db = db /\ Vendor.trackClick m now db = db).
Proof.
  rewrite markAsOpened_spec, markAsClicked_spec.
  split_and!.
  - intros H. by rewrite decide_True.
  - intros H. by rewrite decide_False.
  - intros H. by rewrite decide_True.
  - intros H1 H2. rewrite decide_False; [done | tauto].
  - intros Hu.
    assert (Hd : CommunicationLog.status l <> CommunicationLog.delivered)
      by (destruct Hu as [H|[H|[H|H]]]; rewrite H; discriminate).
    assert (Ho : CommunicationLog.status l <> CommunicationLog.opened)
      by (destruct Hu as [H|[H|[H|H]]]; rewrite H; discriminate).
    rewrite decide_False by done.
    rewrite decide_False by tauto.
    split_and!; [done | done |].
    intros db m i Hf. unfold Vendor.trackOpen, Vendor.trackClick.
    rewrite Hf, markAsOpened_spec, markAsClicked_spec.
    rewrite decide_False by done.
    rewrite decide_False by tauto.
    apply findOne_lookup in Hf as [Hi _].
    by rewrite store_same_doc.
Qed.

Lemma engagement_guarded_witness :
  let l := sampleLog CommunicationLog.sent 0 in
  let db := mkDB [] ∅ [l] in
  CommunicationLog.markAsOpened 7 l = Ok l /\
  CommunicationLog.markAsClicked 7 l = Ok l /\
  Vendor.trackOpen "MSG-c1-0-0-abc" 7 db = db /\
  Vendor.trackClick "MSG-c1-0-0-abc" 7 db = db.
Proof.
  intros l db.
  destruct (engagement_guarded l 7) as (_ & _ & _ & _ & H).
  destruct (H ltac:(right; left; reflexivity)) as (H1 & H2 & H3).
  destruct (H3 db "MSG-c1-0-0-abc" 0%nat eq_refl) as [H4 H5].
  exact (conj H1 (conj H2 (conj H4 H5))).
Defined.

(** ** Failed receipts and the retry schedule (C4) *)

Lemma markAsFailed_below_bound (code msg : option string) (now now' : Z)
    (l : CommunicationLog.t) :
  (CommunicationLog.retryCount l < 3)%nat ->
  CommunicationLog.markAsFailed code msg now now' l =
  Ok (CommunicationLog.set_nextRetryAt
        (Some (now' + CommunicationLog.retryDelayMinutes
                        (CommunicationLog.retryCount l + 1) * 60 * 1000))
        (CommunicationLog.set_retryCount (CommunicationLog.retryCount l + 1)
           (CommunicationLog.set_error code msg
              (CommunicationLog.set_failedAt (Some now)
                 (CommunicationLog.set_status CommunicationLog.failed l))))).
Proof.
  intros Hlt. unfold CommunicationLog.markAsFailed, CommunicationLog.save.
  simpl. unfold CommunicationLog.maxRetryCount.
  destruct (Nat.ltb_spec 3 (CommunicationLog.retryCount l + 1)); [lia | done].
Qed.

Lemma markAsFailed_at_bound (code msg : option string) (now now' : Z)
    (l : CommunicationLog.t) :
  (3 <= CommunicationLog.retryCount l)%nat ->
  CommunicationLog.markAsFailed code msg now now' l =
  Throw (ValidationError "retryCount").
Proof.
  intros Hge. unfold CommunicationLog.markAsFailed, CommunicationLog.save.
  simpl. unfold CommunicationLog.maxRetryCount.
  destruct (Nat.ltb_spec 3 (CommunicationLog.retryCount l + 1)); [done | lia].
Qed.

(** C4, as the code has it: a failed or bounced receipt for an entry with
    fewer than 3 retries stores the entry as failed with the receipt's error,
    retryCount one higher and nextRetryAt = processing time + 5 minutes x
    2^retryCount (the new count; 10 minutes after the first failure). For
    an entry that already has 3 retries the save is rejected by the schema
    bound: the call throws and the store keeps the entry as it was. *)
Theorem failed_receipt_backoff (r : Receipt.t) (env : Vendor.Env) (db : DB)
    (i : nat) (l : CommunicationLog.t) :
  findOne (Receipt.messageId r) db = Some (i, l) ->
  isFailure (Receipt.status r) ->
  ((CommunicationLog.retryCount l < 3)%nat ->
     exists l',
       logs (Vendor.processDeliveryReceipt r env db).2 !! i = Some l' /\
       CommunicationLog.status l' = CommunicationLog.failed /\
       CommunicationLog.errorCode l' = Receipt.errorCode r /\
       CommunicationLog.errorMessage l' = Receipt.errorMessage r /\
       CommunicationLog.retryCount l' = (CommunicationLog.retryCount l + 1)%nat /\
       (CommunicationLog.retryCount l' <= 3)%nat /\
       CommunicationLog.nextRetryAt l' =
         Some (Vendor.retryBase env
               + (5 * 2 ^ Z.of_nat (CommunicationLog.retryCount l')) * 60 * 1000) /\
       (CommunicationLog.retryCount l = 0%nat ->
          CommunicationLog.retryCount l' = 1%nat /\
          CommunicationLog.nextRetryAt l' =
            Some (Vendor.retryBase env + 10 * 60 * 1000))) /\
  ((3 <= CommunicationLog.retryCount l)%nat ->
     Vendor.processDeliveryReceipt r env db =
     (Vendor.Thrown (ValidationError "retryCount"), db)).
Proof.
  intros Hf Hfail. unfold Vendor.processDeliveryReceipt. rewrite Hf.
  assert (Hmark : Vendor.mark r env
            (CommunicationLog.set_vendor (Receipt.vendorMessageId r) (Some r) l)
          = CommunicationLog.markAsFailed (Receipt.errorCode r)
              (Receipt.errorMessage r) (Vendor.markedAt env)
              (Vendor.retryBase env)
              (CommunicationLog.set_vendor (Receipt.vendorMessageId r) (Some r) l)).
  { unfold Vendor.mark. by destruct Hfail as [-> | ->]. }
  rewrite Hmark. apply findOne_lookup in Hf as [Hi _].
  split.
  - intros Hlt. rewrite markAsFailed_below_bound by done.
    eexists. split.
    + case_match; simpl; apply list_lookup_insert_eq; by eapply lookup_lt_Some.
    + simpl. unfold CommunicationLog.retryDelayMinutes.
      split_and!; try done; try lia.
      * do 2 f_equal. lia.
      * intros ->. split; [done |]. simpl. do 2 f_equal.
  - intros Hge. by rewrite markAsFailed_at_bound.
Qed.

Lemma failed_receipt_backoff_witness :
  let db := mkDB [] ∅ [sampleLog CommunicationLog.sent 0] in
  exists l',
    logs (Vendor.processDeliveryReceipt failedReceipt receiptEnv db).2 !! 0%nat
      = Some l' /\
    CommunicationLog.status l' = CommunicationLog.failed /\
    CommunicationLog.retryCount l' = 1%nat /\
    CommunicationLog.nextRetryAt l' = Some (1000 + 10 * 60 * 1000).
Proof.
  intros db.
  destruct (failed_receipt_backoff failedReceipt receiptEnv db 0
              (sampleLog CommunicationLog.sent 0) eq_refl
              ltac:(left; reflexivity)) as [H _].
  destruct (H ltac:(simpl; lia)) as (l' & H1 & H2 & _ & _ & _ & _ & _ & H3).
  destruct (H3 eq_refl) as [H4 H5].
  exists l'. exact (conj H1 (conj H2 (conj H4 H5))).
Defined.

(** Counterexample to C4 as stated, at an entry that already has 3
    retries: a delivered entry with retryCount 3 receives a failed receipt;
    the call throws, and the stored entry is still delivered with its old
    nextRetryAt. *)
Lemma failed_receipt_at_bound_counterexample :
  let l := sampleLog CommunicationLog.delivered 3 in
  let db := mkDB [] ∅ [l] in
  Vendor.processDeliveryReceipt failedReceipt receiptEnv db
    = (Vendor.Thrown (ValidationError "retryCount"), db) /\
  logs (Vendor.processDeliveryReceipt failedReceipt receiptEnv db).2 !! 0%nat
    = Some l /\
  CommunicationLog.status l <> CommunicationLog.failed /\
  CommunicationLog.nextRetryAt l
    <> Some (Vendor.retryBase receiptEnv + (5 * 2 ^ 3) * 60 * 1000).
Proof. vm_compute. split_and!; congruence. Qed.

(** ** Receipts for unknown messages (C7) *)

(** C7: a receipt whose messageId matches no delivery-log entry is discarded:
    the call returns without throwing and the store (every campaign, every
    log entry, the number of log entries) is what it was. *)
Theorem orphan_receipt_discarded (r : Receipt.t) (env : Vendor.Env)
    (db : DB) :
  (forall l, l ∈ logs db ->
     CommunicationLog.messageId l <> Receipt.messageId r) ->
  Vendor.processDeliveryReceipt r env db = (Vendor.Discarded, db).
Proof.
  intros Hnone. unfold Vendor.processDeliveryReceipt.
  destruct (findOne (Receipt.messageId r) db) as [[i l]|] eqn:Hf; [|done].
  apply findOne_lookup in Hf as [Hi Hm].
  exfalso. eapply Hnone; [|exact Hm]. by eapply list_elem_of_lookup_2.
Qed.

Lemma orphan_receipt_discarded_witness :
  let db :=
    mkDB [] ∅ [sampleLog CommunicationLog.sent 0] in
  let r := Receipt.mk "MSG-unknown" r_delivered 0 None None None in
  Vendor.processDeliveryReceipt r receiptEnv db = (Vendor.Discarded, db).
Proof.
  intros db r. apply (orphan_receipt_discarded r receiptEnv db).
  intros l Hl. apply list_elem_of_singleton in Hl. subst l. discriminate.
Defined.

(** ** Launching a campaign that is not a draft (C8) *)

(** C8: for a campaign that is not a draft the launch route answers 400,
    issues no write and no vendor call, and the store is unchanged. *)
Theorem launch_rejects_non_draft (id : string) (env : Campaigns.Env)
    (db : DB) (c : Campaign.t) :
  findById id db = Some c ->
  Campaign.status c <> Campaign.draft ->
  Campaigns.launchRoute id env db
    = (Campaigns.R400 "Only draft campaigns can be launched", []) /\
  Campaigns.postLaunch id env db
    = (Campaigns.R400 "Only draft campaigns can be launched", db).
Proof.
  intros Hc Hs. unfold Campaigns.postLaunch, Campaigns.launchRoute.
  rewrite Hc. by rewrite decide_True.
Qed.

Lemma launch_rejects_non_draft_witness :
  let c := sampleCampaign Campaign.running 1 in
  let db := mkDB [johnDoe] {[ "c1" := c ]} [] in
  Campaigns.postLaunch "c1" launchEnv db
    = (Campaigns.R400 "Only draft campaigns can be launched", db).
Proof.
  intros c db.
  exact (proj2 (launch_rejects_non_draft "c1" launchEnv db c eq_refl
                  ltac:(discriminate))).
Defined.

(** ** Duplicate receipts (C1) *)

Lemma mark_status (r : Receipt.t) (env : Vendor.Env)
    (l l' : CommunicationLog.t) :
  Vendor.mark r env l = Ok l' ->
  CommunicationLog.status l' = markedStatus (Receipt.status r).
Proof.
  unfold Vendor.mark, CommunicationLog.markAsSent,
    CommunicationLog.markAsDelivered, CommunicationLog.markAsFailed,
    CommunicationLog.save.
  destruct (Receipt.status r); simpl;
    repeat case_match; intros [= <-]; done.
Qed.



(** What a receipt for a known message does, by cases on the mark. *)
Lemma processDeliveryReceipt_found (r : Receipt.t) (env : Vendor.Env)
    (db : DB) (i : nat) (l : CommunicationLog.t) :
  findOne (Receipt.messageId r) db = Some (i, l) ->
  let log1 :=
    CommunicationLog.set_vendor (Receipt.vendorMessageId r) (Some r) l in
  (exists e, Vendor.mark r env log1 = Throw e /\
     Vendor.processDeliveryReceipt r env db = (Vendor.Thrown e, db)) \/
  (exists log2 timer, Vendor.mark r env log1 = Ok log2 /\
     (Vendor.processDeliveryReceipt r env db).1 = Vendor.Processed timer /\
     logs (Vendor.processDeliveryReceipt r env db).2 = <[i := log2]> (logs db) /\
     campaigns (Vendor.processDeliveryReceipt r env db).2 =
       match findById (CommunicationLog.campaignId l) db with
       | Some c =>
           <[CommunicationLog.campaignId l := Vendor.recordOutcome r env c]>
             (campaigns db)
       | None => campaigns db
       end).
Proof.
  intros Hf log1. unfold Vendor.processDeliveryReceipt. rewrite Hf.
  fold log1. destruct (Vendor.mark r env log1) as [log2|e] eqn:Hm.
  - right. exists log2. eexists. split; [done|].
    apply mark_keeps_ids in Hm as [_ Hc]. rewrite Hc. unfold findById. simpl.
    destruct (campaigns db !! CommunicationLog.campaignId l); simpl; done.
  - left. eauto.
Qed.




(** ** Log entries exist before the vendor is called (C6) *)

Lemma sendMessagesToVendor_effects (batch : list CommunicationLog.t)
    (campaign : Campaign.t) (env : Campaigns.Env) (index : nat) :
  submissions (Campaigns.sendMessagesToVendor batch campaign env index).1 = batch /\
  batches (Campaigns.sendMessagesToVendor batch campaign env index).1 = [].
Proof.
  revert campaign index.
  induction batch as [|log rest IH]; intros campaign index; [done|].
  simpl.
  specialize (IH (Campaign.updateStats
                    (if Campaigns.accepted env index then "sent" else "failed")
                    campaign) (S index)).
  destruct (Campaigns.sendMessagesToVendor rest _ env (S index)) as [effects final].
  simpl in *. destruct IH as [-> ->]. done.
Qed.

(** The effects of a launch: the save of [start()] alone, or that save, one
    batch insert holding a log for every member of the audience, and then
    the vendor calls, one per log of the batch and in its order. *)
Lemma launchCampaign_shape (campaign : Campaign.t)
    (audience : list Customer.t) (env : Campaigns.Env) :
  let batch :=
    imap (Campaigns.newLog (Campaign.start (Campaigns.startedNow env) campaign) env)
         audience in
  let saved :=
    Campaigns.SaveStarted (Campaign._id campaign) (Campaigns.startedNow env) in
  let effects := (Campaigns.launchCampaign campaign audience env).1 in
  effects = [saved] \/
  exists sends,
    effects = saved :: Campaigns.InsertMany batch :: sends /\
    submissions sends = batch /\ batches sends = [].
Proof.
  intros batch saved. unfold Campaigns.launchCampaign. fold batch. fold saved.
  destruct batch as [|l0 rest] eqn:Hb; [by left|].
  destruct (forallb Campaigns.validLog (l0 :: rest)); [|by left].
  pose proof (sendMessagesToVendor_effects (l0 :: rest)
                (Campaign.start (Campaigns.startedNow env) campaign) env 0)
    as [Hs Hn].
  destruct (Campaigns.sendMessagesToVendor (l0 :: rest) _ env 0)
    as [effects final].
  right. exists effects. done.
Qed.

Lemma findOne_is_Some (m : string) (db : DB) :
  m ∈ messageIds db <-> is_Some (findOne m db).
Proof.
  unfold messageIds, findOne. split.
  - intros (l & -> & Hl)%list_elem_of_fmap.
    by apply (list_find_elem_of _ _ l).
  - intros [[i l] (Hi & Hm & _)%list_find_Some].
    apply list_elem_of_fmap. exists l. split; [done|].
    by eapply list_elem_of_lookup_2.
Qed.

Lemma messageIds_stored (db : DB) (i : nat) (l l' : CommunicationLog.t) :
  logs db !! i = Some l ->
  CommunicationLog.messageId l' = CommunicationLog.messageId l ->
  CommunicationLog.messageId <$> <[i := l']> (logs db) = messageIds db.
Proof.
  intros Hi Hm. unfold messageIds. rewrite list_fmap_insert.
  apply list_insert_id. by rewrite list_lookup_fmap, Hi, Hm.
Qed.

Lemma messageIds_altered (db : DB) (i : nat)
    (g : CommunicationLog.t -> CommunicationLog.t) :
  (forall l, CommunicationLog.messageId (g l) = CommunicationLog.messageId l) ->
  CommunicationLog.messageId <$> alter g i (logs db) = messageIds db.
Proof.
  intros Hg. unfold messageIds. rewrite (list_fmap_alter _ g id).
  - by apply list_alter_id.
  - apply Forall_forall. intros l _. apply Hg.
Qed.

(** No handler removes a log entry or changes its messageId. *)
Lemma step_messageIds (db : DB) (s : Schedule.Step) :
  exists added, messageIds (Schedule.step db s) = messageIds db ++ added.
Proof.
  destruct s as [e | r env | m now | m now | i doc now click | i doc now]; simpl.
  - destruct e as [cid now | docs | log | cid key [v|]]; simpl;
      try (exists []; by rewrite app_nil_r).
    exists (CommunicationLog.messageId <$> docs).
    unfold messageIds. simpl. by rewrite fmap_app.
  - exists []. rewrite app_nil_r.
    destruct (findOne (Receipt.messageId r) db) as [[i l]|] eqn:Hf.
    + destruct (processDeliveryReceipt_found r env db i l Hf)
        as [(e & _ & ->) | (log2 & timer & Hm & _ & Hlogs & _)]; [done|].
      unfold messageIds at 1. rewrite Hlogs.
      apply findOne_lookup in Hf as [Hi _].
      apply (messageIds_stored db i _ _ Hi).
      by apply mark_keeps_ids in Hm as [-> _].
    + unfold Vendor.processDeliveryReceipt. by rewrite Hf.
  - exists []. rewrite app_nil_r. unfold Vendor.trackOpen.
    destruct (findOne m db) as [[i l]|] eqn:Hf; [|done].
    rewrite markAsOpened_spec. apply findOne_lookup in Hf as [Hi _].
    unfold messageIds at 1. simpl. apply (messageIds_stored db i _ _ Hi).
    by case_decide.
  - exists []. rewrite app_nil_r. unfold Vendor.trackClick.
    destruct (findOne m db) as [[i l]|] eqn:Hf; [|done].
    rewrite markAsClicked_spec. apply findOne_lookup in Hf as [Hi _].
    unfold messageIds at 1. simpl. apply (messageIds_stored db i _ _ Hi).
    by case_decide.
  - exists []. rewrite app_nil_r. unfold Vendor.openTimer.
    rewrite markAsOpened_spec. simpl. case_decide; [|done].
    unfold messageIds at 1. simpl. by apply messageIds_altered.
  - exists []. rewrite app_nil_r. unfold Vendor.clickTimer.
    rewrite markAsClicked_spec. case_decide; [|done].
    unfold messageIds at 1. simpl. by apply messageIds_altered.
Qed.

Lemma run_messageIds (schedule : list Schedule.Step) (db : DB) :
  exists added, messageIds (Schedule.run schedule db) = messageIds db ++ added.
Proof.
  revert db. induction schedule as [|s rest IH]; intros db.
  - exists []. by rewrite app_nil_r.
  - destruct (step_messageIds db s) as [a1 H1].
    destruct (IH (Schedule.step db s)) as [a2 H2].
    exists (a1 ++ a2). unfold Schedule.run in *. simpl.
    by rewrite H2, H1, app_assoc.
Qed.

Lemma run_app (p q : list Schedule.Step) (db : DB) :
  Schedule.run (p ++ q) db = Schedule.run q (Schedule.run p db).
Proof. unfold Schedule.run. apply foldl_app. Qed.

Lemma run_keeps_message (m : string) (schedule : list Schedule.Step)
    (db : DB) :
  m ∈ messageIds db -> m ∈ messageIds (Schedule.run schedule db).
Proof.
  intros Hm. destruct (run_messageIds schedule db) as [added ->].
  apply elem_of_app. by left.
Qed.

Lemma known_receipt_not_discarded (r : Receipt.t) (env : Vendor.Env)
    (db : DB) :
  Receipt.messageId r ∈ messageIds db ->
  (Vendor.processDeliveryReceipt r env db).1 <> Vendor.Discarded.
Proof.
  intros [[i l] Hf]%findOne_is_Some.
  destruct (processDeliveryReceipt_found r env db i l Hf)
    as [(e & _ & ->) | (log2 & timer & _ & -> & _)]; discriminate.
Qed.

Lemma submissions_cons (e : Campaigns.Effect)
    (effects : list Campaigns.Effect) :
  submissions (e :: effects) =
  match e with
  | Campaigns.VendorSend l => l :: submissions effects
  | _ => submissions effects
  end.
Proof. by destruct e. Qed.

Lemma batches_cons (e : Campaigns.Effect) (effects : list Campaigns.Effect) :
  batches (e :: effects) =
  match e with
  | Campaigns.InsertMany b => b :: batches effects
  | _ => batches effects
  end.
Proof. by destruct e. Qed.

Lemma launch_order (campaign : Campaign.t) (audience : list Customer.t)
    (env : Campaigns.Env) (pre post : list Campaigns.Effect)
    (log : CommunicationLog.t) :
  (Campaigns.launchCampaign campaign audience env).1
    = pre ++ Campaigns.VendorSend log :: post ->
  let batch :=
    imap (Campaigns.newLog (Campaign.start (Campaigns.startedNow env) campaign) env)
         audience in
  Campaigns.InsertMany batch ∈ pre /\ log ∈ batch.
Proof.
  intros Heff batch.
  destruct (launchCampaign_shape campaign audience env)
    as [Hone | (sends & Hshape & Hsub & _)]; rewrite Heff in *.
  - destruct pre as [|a [|b pre]]; discriminate.
  - destruct pre as [|a [|b pre]]; [discriminate | discriminate |].
    injection Hshape as -> -> Hsends. split.
    + apply elem_of_cons; right; apply elem_of_cons; by left.
    + fold batch in Hsub. rewrite <- Hsub, <- Hsends.
      unfold submissions. apply list_elem_of_omap.
      exists (Campaigns.VendorSend log). split; [|done].
      apply elem_of_app. right. apply elem_of_cons. by left.
Qed.

(** C6: a launch makes one log entry per customer of the audience and, when
    the audience is not empty and every message passes the log schema,
    inserts them all by a single batch insert and then submits exactly these
    entries, in their order, to the vendor (an invalid message makes the
    insert fail as a whole: nothing is inserted and nothing submitted). The
    batch insert comes before every vendor submission; so in every
    interleaving of the launch with the other handlers the log entry of a
    message is in the store when the message is submitted, and no receipt
    processed after the submission is discarded as unknown. *)
Theorem logs_precede_submissions (campaign : Campaign.t)
    (audience : list Customer.t) (env : Campaigns.Env) :
  let batch :=
    imap (Campaigns.newLog (Campaign.start (Campaigns.startedNow env) campaign) env)
         audience in
  let effects := (Campaigns.launchCampaign campaign audience env).1 in
  (CommunicationLog.customerId <$> batch) = (Customer._id <$> audience) /\
  length batch = length audience /\
  (if forallb Campaigns.validLog batch && negb (bool_decide (audience = []))
   then exists sends,
          effects
          = Campaigns.SaveStarted (Campaign._id campaign)
              (Campaigns.startedNow env)
            :: Campaigns.InsertMany batch :: sends /\
          batches effects = [batch] /\ submissions effects = batch /\
          batches sends = []
   else batches effects = [] /\ submissions effects = []) /\
  (forall pre log post,
     effects = pre ++ Campaigns.VendorSend log :: post ->
     Campaigns.InsertMany batch ∈ pre /\ log ∈ batch) /\
  (forall schedule db p log q,
     Schedule.launchOf schedule = effects ->
     schedule = p ++ Schedule.Launch (Campaigns.VendorSend log) :: q ->
     is_Some (findOne (CommunicationLog.messageId log) (Schedule.run p db)) /\
     forall q1 r renv q2,
       q = q1 ++ Schedule.Receipt r renv :: q2 ->
       Receipt.messageId r = CommunicationLog.messageId log ->
       (Vendor.processDeliveryReceipt r renv
          (Schedule.run (p ++ Schedule.Launch (Campaigns.VendorSend log) :: q1) db)).1
       <> Vendor.Discarded).
Proof.
  intros batch effects. split_and!.
  - unfold batch. rewrite fmap_imap.
    rewrite <- (imap_const Customer._id). by apply imap_ext.
  - apply length_imap.
  - subst effects. unfold Campaigns.launchCampaign. fold batch.
    pose proof (length_imap
                  (Campaigns.newLog
                     (Campaign.start (Campaigns.startedNow env) campaign) env)
                  audience) as Hlen.
    fold batch in Hlen.
    destruct batch as [|l0 rest] eqn:Hb.
    + destruct audience; [|done].
      by rewrite bool_decide_eq_true_2, andb_false_r.
    + destruct (forallb Campaigns.validLog (l0 :: rest)) eqn:Hv;
        [|done].
      rewrite bool_decide_eq_false_2 by (by intros ->). cbn [andb negb].
      pose proof (sendMessagesToVendor_effects (l0 :: rest)
                    (Campaign.start (Campaigns.startedNow env) campaign)
                    env 0) as [Hsub Hbat].
      destruct (Campaigns.sendMessagesToVendor (l0 :: rest) _ env 0)
        as [sends final].
      cbn [fst] in *. exists sends. split; [done|].
      rewrite !batches_cons, !submissions_cons. by rewrite Hsub, Hbat.
  - intros pre log post Heff.
    by apply (launch_order campaign audience env pre post).
  - intros schedule db p log q Hl ->.
    unfold Schedule.launchOf in Hl. rewrite omap_app in Hl. simpl in Hl.
    symmetry in Hl.
    apply (launch_order campaign audience env) in Hl as [Hin Hlog].
    fold batch in Hin, Hlog.
    apply list_elem_of_omap in Hin as (s & Hs & Heq).
    destruct s; try discriminate. injection Heq as ->.
    apply list_elem_of_split in Hs as (p1 & p2 & ->).
    assert (Hm : CommunicationLog.messageId log
                 ∈ messageIds (Schedule.run
                      (p1 ++ Schedule.Launch (Campaigns.InsertMany batch) :: p2) db)).
    { rewrite run_app. change (Schedule.run (?s :: ?r) ?d)
        with (Schedule.run r (Schedule.step d s)).
      apply run_keeps_message. simpl. unfold messageIds. simpl.
      rewrite fmap_app. apply elem_of_app. right.
      by apply list_elem_of_fmap_2. }
    split; [by apply findOne_is_Some|].
    intros q1 r renv q2 _ Hr. apply known_receipt_not_discarded.
    rewrite Hr, run_app. by apply run_keeps_message.
Qed.

Lemma logs_precede_submissions_witness :
  let campaign := sampleCampaign Campaign.draft 1 in
  let db := mkDB [johnDoe] {[ "c1" := campaign ]} [] in
  let effects := (Campaigns.launchCampaign campaign [johnDoe] launchEnv).1 in
  let log :=
    Campaigns.newLog (Campaign.start 100 campaign) launchEnv 0 johnDoe in
  let p := (Schedule.Launch <$> take 1 effects)
           ++ Schedule.TrackOpen "MSG-c1-0-0-abc" 5
           :: (Schedule.Launch <$> take 1 (drop 1 effects)) in
  let q := Schedule.Launch <$> drop 3 effects in
  batches effects = [[log]] /\
  submissions effects = [log] /\
  is_Some (findOne (CommunicationLog.messageId log) (Schedule.run p db)).
Proof.
  intros campaign db effects log p q.
  destruct (logs_precede_submissions campaign [johnDoe] launchEnv)
    as (_ & _ & (sends & _ & Hbatch & Hsub & _) & _ & H).
  split; [exact Hbatch|]. split; [exact Hsub|].
  exact (proj1 (H (p ++ Schedule.Launch (Campaigns.VendorSend log) :: q)
                  db p log q eq_refl eq_refl)).
Defined.

(** ** Campaign counters against the audience size (C2) *)


(** A delivered receipt that overtakes the vendor accounting, or is
    repeated, breaks the second bound as well. *)
Lemma delivered_without_sent :
  let r := Receipt.mk "MSG-c1-0-0-abc" r_delivered 0 None None None in
  (Campaign.stats <$>
     findById "c1" (Vendor.processDeliveryReceipt r receiptEnv runningStore).2)
  = Some (Campaign.mkStats 0 1 0 0).
Proof. vm_compute. reflexivity. Qed.



(** A receipt leaves a campaign as it is or records one outcome on it. *)
Lemma processDeliveryReceipt_campaign (r : Receipt.t) (env : Vendor.Env)
    (db : DB) (cid : string) (c : Campaign.t) :
  campaigns db !! cid = Some c ->
  campaigns (Vendor.processDeliveryReceipt r env db).2 !! cid = Some c \/
  campaigns (Vendor.processDeliveryReceipt r env db).2 !! cid
    = Some (Vendor.recordOutcome r env c).
Proof.
  intros Hc.
  destruct (findOne (Receipt.messageId r) db) as [[i l]|] eqn:Hf.
  - destruct (processDeliveryReceipt_found r env db i l Hf)
      as [(e & _ & ->) | (log2 & timer & _ & _ & _ & ->)]; [by left|].
    unfold findById.
    destruct (decide (CommunicationLog.campaignId l = cid)) as [->|Hne].
    + rewrite Hc. right. apply lookup_insert_eq.
    + left. destruct (campaigns db !! CommunicationLog.campaignId l); [|done].
      by rewrite lookup_insert_ne.
  - left. unfold Vendor.processDeliveryReceipt. by rewrite Hf.
Qed.







(** ** Audience resolution (C3) *)

(** C3 (an AND rule resolves to the intersection of the per-condition
    matches, also when conditions share a field) does not hold of the code
    for two conditions on one field: the second criterion overwrites the
    first in the query object. With totalSpent > 1000 AND totalSpent < 5000
    the resolver returns the customers below 5000, among them one who spent
    500. *)
Theorem and_same_field_last_wins :
  let rules := Audience.mkRules [above1000; below5000] Audience.AND in
  Audience.evaluateAudience threeCustomers (Some rules)
    = [spent "a" 500; spent "b" 3000] /\
  matchAll threeCustomers (Audience.conditions rules) = [spent "b" 3000] /\
  Audience.matchesCondition (spent "a" 500) above1000 = false.
Proof. vm_compute. done. Qed.

(** The parts of C3 that hold: OR rules resolve to the union of the
    per-condition matches, AND rules whose conditions name pairwise distinct
    fields to their intersection. *)
Lemma matchesFields_insert (c : Customer.t) (f : string)
    (crit : Audience.Criterion) (q : gmap string Audience.Criterion) :
  q !! f = None ->
  Audience.matchesFields c (<[f := crit]> q)
  = Audience.matchCriterion (Audience.getField c f) crit
    && Audience.matchesFields c q.
Proof.
  intros Hf. unfold Audience.matchesFields.
  destruct (Audience.matchCriterion (Audience.getField c f) crit) eqn:Hm.
  - apply bool_decide_ext. rewrite map_Forall_insert by done. simpl. tauto.
  - apply bool_decide_eq_false_2. rewrite map_Forall_insert by done.
    simpl. intros [H _]. congruence.
Qed.

Lemma matchesCondition_alone (c : Customer.t) (cond : Audience.Condition) :
  exists crit,
    Audience.buildConditionQuery cond = {[ Audience.field cond := crit ]} /\
    Audience.matchesCondition c cond
    = Audience.matchCriterion (Audience.getField c (Audience.field cond)) crit.
Proof.
  unfold Audience.matchesCondition, Audience.buildConditionQuery.
  eexists. split; [done|].
  rewrite <- insert_empty, matchesFields_insert by apply lookup_empty.
  unfold Audience.matchesFields.
  rewrite (bool_decide_eq_true_2 _ (map_Forall_empty _)).
  apply andb_true_r.
Qed.

Lemma matchesFields_assigned (c : Customer.t)
    (conds : list Audience.Condition) (q : gmap string Audience.Criterion) :
  NoDup (Audience.field <$> conds) ->
  (forall cond, cond ∈ conds -> q !! Audience.field cond = None) ->
  Audience.matchesFields c
    (foldl (fun query cond =>
              Audience.assign query (Audience.buildConditionQuery cond))
           q conds)
  = Audience.matchesFields c q
    && forallb (Audience.matchesCondition c) conds.
Proof.
  revert q. induction conds as [|cond rest IH]; intros q Hnd Hfresh.
  - simpl. by rewrite andb_true_r.
  - rewrite fmap_cons in Hnd. apply NoDup_cons in Hnd as [Hnotin Hnd].
    cbn [foldl forallb].
    destruct (matchesCondition_alone c cond) as (crit & Hq & Hm).
    rewrite Hq, Hm. unfold Audience.assign.
    rewrite <- insert_union_singleton_l.
    rewrite IH; [| done |].
    + rewrite matchesFields_insert by (apply Hfresh, elem_of_cons; by left).
      by destruct (Audience.matchCriterion _ crit),
        (Audience.matchesFields c q), (forallb _ rest).
    + intros cond' Hin. rewrite lookup_insert_ne.
      * apply Hfresh, elem_of_cons. by right.
      * intros Heq. apply Hnotin. rewrite Heq.
        by apply list_elem_of_fmap_2.
Qed.

Lemma evaluateAudience_or (customers : list Customer.t)
    (conds : list Audience.Condition) :
  conds <> [] ->
  Audience.evaluateAudience customers
    (Some (Audience.mkRules conds Audience.OR))
  = matchAny customers conds.
Proof.
  intros Hne. unfold Audience.evaluateAudience, matchAny. simpl.
  destruct conds as [|cond rest]; [done|].
  unfold Audience.find, Audience.buildQuery. simpl.
  apply List.filter_ext. intros c. f_equal.
  induction rest as [|x rest IH]; [done|]. simpl. by rewrite IH.
Qed.

Lemma evaluateAudience_and_distinct (customers : list Customer.t)
    (conds : list Audience.Condition) :
  conds <> [] ->
  NoDup (Audience.field <$> conds) ->
  Audience.evaluateAudience customers
    (Some (Audience.mkRules conds Audience.AND))
  = matchAll customers conds.
Proof.
  intros Hne Hnd. unfold Audience.evaluateAudience, matchAll. simpl.
  destruct conds as [|cond rest]; [done|].
  unfold Audience.find, Audience.buildQuery.
  cbn [Audience.logic Audience.conditions Audience.matchesQuery].
  apply List.filter_ext. intros c.
  rewrite matchesFields_assigned; [| done | intros; apply lookup_empty].
  unfold Audience.matchesFields at 1.
  by rewrite (bool_decide_eq_true_2 _ (map_Forall_empty _)).
Qed.

(** ** Strings: append, prefix and occurrences *)

Lemma str_cons_app (x : ascii) (a b : string) :
  String x a +:+ b = String x (a +:+ b).
Proof. reflexivity. Qed.

Lemma str_nil_app (b : string) : "" +:+ b = b.
Proof. reflexivity. Qed.

Lemma str_app_assoc (a b c : string) : (a +:+ b) +:+ c = a +:+ (b +:+ c).
Proof.
  induction a as [|x a IH]; [done|]. rewrite !str_cons_app. by f_equal.
Qed.

Lemma str_app_nil_r (a : string) : a +:+ "" = a.
Proof.
  induction a as [|x a IH]; [done|]. rewrite str_cons_app. by f_equal.
Qed.

Lemma str_length_app (a b : string) :
  String.length (a +:+ b) = (String.length a + String.length b)%nat.
Proof.
  induction a as [|x a IH]; [done|]. rewrite str_cons_app. simpl. by f_equal.
Qed.

Lemma str_drop_app (a b : string) : JS.drop (String.length a) (a +:+ b) = b.
Proof.
  induction a as [|x a IH]; [by destruct b|]. rewrite str_cons_app. done.
Qed.

Lemma str_prefix_app (a b : string) : String.prefix a (a +:+ b) = true.
Proof.
  induction a as [|x a IH]; [by destruct b|]. rewrite str_cons_app. simpl.
  by destruct (ascii_dec x x).
Qed.

Lemma str_prefix_split (p s : string) :
  String.prefix p s = true -> s = p +:+ JS.drop (String.length p) s.
Proof.
  revert s. induction p as [|x p IH]; intros s H; [by destruct s|].
  destruct s as [|y s]; simpl in H; [done|].
  destruct (ascii_dec x y) as [->|]; [|done].
  rewrite str_cons_app. simpl. f_equal. by apply IH.
Qed.

(** Two ways of cutting one string: the shorter first part is a prefix of
    the longer one. *)
Lemma str_app_cut (a b c d : string) :
  a +:+ b = c +:+ d -> (String.length a <= String.length c)%nat ->
  exists e, c = a +:+ e /\ b = e +:+ d.
Proof.
  revert c. induction a as [|x a IH]; intros c H Hlen.
  - by exists c.
  - destruct c as [|y c]; simpl in Hlen; [lia|].
    rewrite !str_cons_app in H. injection H as -> H.
    destruct (IH c H ltac:(lia)) as (e & -> & ->). by exists e.
Qed.

Lemma agree_app (a b p q : string) : a +:+ p = b +:+ q -> agree a b = true.
Proof.
  unfold agree. revert b. induction a as [|x a IH]; intros b H.
  - by destruct b.
  - destruct b as [|y b]; [done|].
    rewrite !str_cons_app in H. injection H as -> H. simpl.
    destruct (ascii_dec y y); [|done]. by apply IH.
Qed.

Lemma occurs_app_l (x s t : string) : JS.occurs x s -> JS.occurs x (s +:+ t).
Proof.
  intros (pre & post & ->). exists pre, (post +:+ t).
  by rewrite !str_app_assoc.
Qed.

Lemma occurs_app_r (x s t : string) : JS.occurs x t -> JS.occurs x (s +:+ t).
Proof.
  intros (pre & post & ->). exists (s +:+ pre), post.
  by rewrite !str_app_assoc.
Qed.

Lemma barrier_intro (pat x : string) :
  (forall k, (1 <= k < String.length pat)%nat -> agree (JS.drop k pat) x = false) ->
  (forall j, (j < String.length x)%nat -> agree pat (JS.drop j x) = false) ->
  Barrier pat x.
Proof.
  intros Hbefore Hinside pre post u v Heq.
  destruct (Nat.le_gt_cases (String.length pre) (String.length u)) as [Hle|Hgt].
  - (* the occurrence starts at or after the start of x *)
    destruct (str_app_cut _ _ _ _ Heq Hle) as (e & -> & Hx).
    rewrite str_length_app.
    destruct (Nat.le_gt_cases (String.length x) (String.length e)) as [|Hj];
      [right; lia|].
    exfalso.
    destruct (str_app_cut e (pat +:+ v) x post (eq_sym Hx) ltac:(lia))
      as (g & -> & Hg).
    specialize (Hinside (String.length e) Hj).
    rewrite str_drop_app in Hinside.
    by rewrite (agree_app _ _ _ _ Hg) in Hinside.
  - (* the occurrence starts before x *)
    destruct (str_app_cut u (pat +:+ v) pre (x +:+ post) (eq_sym Heq) ltac:(lia))
      as (e & -> & He).
    rewrite str_length_app in *.
    destruct (Nat.le_gt_cases (String.length pat) (String.length e)) as [|Hk];
      [left; lia|].
    exfalso.
    destruct (str_app_cut e (x +:+ post) pat v (eq_sym He) ltac:(lia))
      as (f & Hpat & Hf).
    specialize (Hbefore (String.length e) ltac:(lia)).
    rewrite Hpat, str_drop_app in Hbefore.
    by rewrite (agree_app _ _ _ _ (eq_sym Hf)) in Hbefore.
Qed.

Lemma clashb_barrier (pat x : string) : clashb pat x = true -> Barrier pat x.
Proof.
  unfold clashb. intros [H1 H2]%andb_true_iff.
  rewrite forallb_forall in H1, H2. apply barrier_intro.
  - intros k Hk. apply negb_true_iff, H1, in_seq. lia.
  - intros j Hj. apply negb_true_iff, H2, in_seq. lia.
Qed.

(** ** The global replace *)

Section ReplaceFacts.
Variable pat : string.
Variable sub : string -> string -> string.
Hypothesis pat_nonempty : pat <> "".

Local Abbreviation scan0 := (JS.scan pat sub 0).

Lemma scan_skip (u b s : string) :
  JS.scan pat sub (String.length u) b (u +:+ s) = scan0 (b +:+ u) s.
Proof.
  revert b. induction u as [|c u IH]; intros b.
  - rewrite str_nil_app, str_app_nil_r. by destruct s.
  - rewrite str_cons_app. simpl. rewrite IH, str_app_assoc.
    by rewrite str_cons_app, str_nil_app.
Qed.

Lemma scan_match (b s : string) :
  scan0 b (pat +:+ s) = sub b s +:+ scan0 (b +:+ pat) s.
Proof.
  assert (exists c p, pat = String c p) as (c & p & Hp)
    by (destruct pat; [done | by eexists _, _]).
  assert (Hs : pat +:+ s = String c (p +:+ s)) by by rewrite Hp.
  rewrite Hs. cbn [JS.scan]. rewrite <- Hs.
  rewrite str_prefix_app, str_drop_app. f_equal.
  replace (String.length pat - 1)%nat with (String.length p)
    by (rewrite Hp; simpl; lia).
  rewrite scan_skip, str_app_assoc. by rewrite Hp.
Qed.

Lemma scan_nomatch (c : ascii) (b s : string) :
  String.prefix pat (String c s) = false ->
  scan0 b (String c s) = String c (scan0 (b +:+ String c "") s).
Proof. intros H. cbn [JS.scan]. by rewrite H. Qed.

(** The three ways a scan can go on. *)
Lemma scan_cases (b s : string) :
  (exists s2, s = pat +:+ s2 /\
     scan0 b s = sub b s2 +:+ scan0 (b +:+ pat) s2) \/
  (s = "" /\ scan0 b s = "") \/
  (exists c s', s = String c s' /\ String.prefix pat s = false /\
     scan0 b s = String c (scan0 (b +:+ String c "") s')).
Proof.
  destruct (String.prefix pat s) eqn:Hp.
  - left. apply str_prefix_split in Hp. eexists. split; [exact Hp|].
    rewrite Hp at 1. apply scan_match.
  - right. destruct s as [|c s']; [by left|].
    right. exists c, s'. split_and!; [done | done |]. by apply scan_nomatch.
Qed.

Lemma pat_length : (0 < String.length pat)%nat.
Proof. destruct pat; [done | simpl; lia]. Qed.

(** A barrier passes through the scan untouched. *)
Lemma scan_through (x post : string) :
  Barrier pat x ->
  forall x2 x1 b, x = x1 +:+ x2 ->
    scan0 b (x2 +:+ post) = x2 +:+ scan0 (b +:+ x2) post.
Proof.
  intros Hbar. induction x2 as [|c x2 IH]; intros x1 b Hx.
  - by rewrite str_nil_app, str_app_nil_r.
  - assert (Hno : String.prefix pat (String c (x2 +:+ post)) = false).
    { destruct (String.prefix pat (String c (x2 +:+ post))) eqn:Hp; [|done].
      exfalso. apply str_prefix_split in Hp.
      set (v := JS.drop (String.length pat) (String c (x2 +:+ post))) in *.
      destruct (Hbar "" post x1 v) as [H|H].
      - rewrite str_nil_app, Hx, str_app_assoc, str_cons_app.
        by rewrite Hp at 1.
      - pose proof pat_length. simpl in H. lia.
      - rewrite Hx, str_length_app in H. simpl in H. lia. }
    rewrite str_cons_app, (scan_nomatch _ _ _ Hno).
    rewrite (IH (x1 +:+ String c "")).
    + by rewrite str_cons_app, str_app_assoc, str_cons_app, str_nil_app.
    + by rewrite Hx, str_app_assoc, str_cons_app, str_nil_app.
Qed.

Lemma scan_barrier (x post : string) :
  Barrier pat x ->
  forall pre b, exists pre',
    scan0 b (pre +:+ x +:+ post)
    = pre' +:+ x +:+ scan0 (b +:+ pre +:+ x) post.
Proof.
  intros Hbar pre.
  remember (String.length pre) as n eqn:Hn. revert pre Hn.
  induction n as [n IH] using lt_wf_ind. intros pre Hn b.
  destruct (scan_cases b (pre +:+ x +:+ post))
    as [(s2 & Hs & Hscan) | [(Hs & Hscan) | (c & s' & Hs & Hno & Hscan)]].
  - (* a match at the head: it lies within pre *)
    destruct (Hbar pre post "" s2) as [Hin|Hout]; [done | |].
    + simpl in Hin.
      destruct (str_app_cut pat s2 pre (x +:+ post) (eq_sym Hs) Hin)
        as (e & -> & ->).
      destruct (IH (String.length e)
                  ltac:(pose proof pat_length; rewrite Hn, str_length_app; lia)
                  e eq_refl (b +:+ pat)) as (pre'' & Hrec).
      exists (sub b (e +:+ x +:+ post) +:+ pre'').
      rewrite str_app_assoc, scan_match, Hrec.
      by rewrite !str_app_assoc.
    + simpl in Hout.
      assert (pre = "") as -> by (destruct pre; [done | simpl in Hout; lia]).
      assert (x = "") as -> by (destruct x; [done | simpl in Hout; lia]).
      exists "". by rewrite !str_nil_app, !str_app_nil_r.
  - exists "". destruct pre; [|done]. destruct x; [|done].
    by rewrite !str_nil_app, !str_app_nil_r.
  - destruct pre as [|c' pre2].
    + exists "". rewrite !str_nil_app.
      apply (scan_through x post Hbar x ""). done.
    + rewrite str_cons_app in Hs. injection Hs as <- <-.
      destruct (IH (String.length pre2) ltac:(rewrite Hn; simpl; lia)
                  pre2 eq_refl (b +:+ String c' "")) as (pre'' & Hrec).
      exists (String c' pre''). rewrite Hscan, Hrec.
      by rewrite !str_cons_app, !str_app_assoc, str_cons_app, str_nil_app.
Qed.

(** What is a barrier for [pat] survives the replace. *)
Lemma replace_keeps (x s : string) :
  Barrier pat x -> JS.occurs x s -> JS.occurs x (JS.replaceWith pat sub s).
Proof.
  intros Hbar (pre & post & ->). unfold JS.replaceWith.
  destruct (scan_barrier x post Hbar pre "") as (pre' & ->).
  by eexists _, _.
Qed.

End ReplaceFacts.

Lemma occurs_cons (x : string) (c : ascii) (s : string) :
  JS.occurs x s -> JS.occurs x (String c s).
Proof. intros H. apply (occurs_app_r x (String c "") s H). Qed.

Lemma occurs_trans (a b c : string) :
  JS.occurs a b -> JS.occurs b c -> JS.occurs a c.
Proof.
  intros (p1 & q1 & ->) (p2 & q2 & ->). exists (p2 +:+ p1), (q1 +:+ q2).
  by rewrite !str_app_assoc.
Qed.

Lemma occurs_within_l (q a b u v : string) :
  a +:+ b = u +:+ q +:+ v ->
  (String.length u + String.length q <= String.length a)%nat ->
  JS.occurs q a.
Proof.
  intros Heq Hlen.
  destruct (str_app_cut u (q +:+ v) a b (eq_sym Heq) ltac:(lia))
    as (e & -> & He).
  rewrite str_length_app in Hlen.
  destruct (str_app_cut q v e b He ltac:(lia)) as (f & -> & _).
  by exists u, f.
Qed.

Lemma occurs_within_r (q a b u v : string) :
  a +:+ b = u +:+ q +:+ v ->
  (String.length a <= String.length u)%nat ->
  JS.occurs q b.
Proof.
  intros Heq Hlen.
  destruct (str_app_cut a b u (q +:+ v) Heq Hlen) as (e & -> & ->).
  by exists e, v.
Qed.

Lemma occurs_nonempty (q s : string) :
  q <> "" -> JS.occurs q s -> s <> "".
Proof.
  intros Hq (pre & post & ->) H.
  apply (f_equal String.length) in H. rewrite !str_length_app in H.
  destruct q; [done | simpl in H; lia].
Qed.

Lemma str_drop_S (k : nat) (p : string) (d : ascii) (rest : string) :
  JS.drop k p = String d rest ->
  JS.drop (S k) p = rest /\ (k < String.length p)%nat.
Proof.
  revert p. induction k as [|k IH]; intros p H.
  - destruct p; simpl in *; [done|]. injection H as -> ->. split; [|lia].
    by destruct rest.
  - destruct p as [|c p]; [done|]. simpl in H.
    destruct (IH p H) as [H1 H2]. split; [exact H1 | simpl; lia].
Qed.

Section ReplaceConstant.
(** The replacement text does not depend on the match's surroundings. *)
Variable pat rep : string.
Variable sub : string -> string -> string.
Hypothesis pat_nonempty : pat <> "".
Hypothesis sub_constant : forall b a, sub b a = rep.

Local Abbreviation scan0 := (JS.scan pat sub 0).

(** Where the pattern occurs, the replacement text is put in. *)
Lemma replace_inserts (s : string) :
  JS.occurs pat s -> JS.occurs rep (JS.replaceWith pat sub s).
Proof.
  unfold JS.replaceWith. generalize "".
  induction s as [|c s IH]; intros b Hocc.
  - by apply occurs_nonempty in Hocc.
  - destruct (scan_cases pat sub pat_nonempty b (String c s))
      as [(s2 & Hs & ->) | [(Hs & _) | (c' & s' & Hs & Hno & ->)]].
    + rewrite sub_constant. by exists "", (JS.scan pat sub 0 (b +:+ pat) s2).
    + done.
    + injection Hs as <- <-. apply occurs_cons, IH.
      destruct Hocc as ([|c1 pre] & post & Heq).
      * rewrite str_nil_app in Heq. by rewrite Heq, str_prefix_app in Hno.
      * rewrite str_cons_app in Heq. injection Heq as _ ->. by exists pre, post.
Qed.

Hypothesis rep_clash : clashb pat rep = true.

Lemma scan_tail (s : string) :
  forall k b v, (1 <= k)%nat ->
    scan0 b s = JS.drop k pat +:+ v ->
    String.prefix (JS.drop k pat) s = true.
Proof.
  induction s as [|e s IH]; intros k b v Hk Hscan.
  - simpl in Hscan. destruct (JS.drop k pat); [done|].
    by rewrite str_cons_app in Hscan.
  - destruct (JS.drop k pat) as [|d rest] eqn:Hdrop; [done|].
    apply str_drop_S in Hdrop as Hrest. destruct Hrest as [Hrest Hlt].
    destruct (scan_cases pat sub pat_nonempty b (String e s))
      as [(s2 & Hs & Hm) | [(Hs & _) | (c' & s' & Hs & Hno & Hm)]].
    + exfalso. rewrite Hm, sub_constant in Hscan.
      apply agree_app in Hscan. pose proof rep_clash as Hclash.
      unfold clashb in Hclash. apply andb_true_iff in Hclash as [H1 _].
      rewrite forallb_forall in H1.
      specialize (H1 k ltac:(apply in_seq; lia)).
      rewrite Hdrop in H1. unfold agree in *.
      rewrite orb_comm in Hscan. by rewrite Hscan in H1.
    + done.
    + injection Hs as <- <-. rewrite Hm, str_cons_app in Hscan.
      injection Hscan as -> Hscan. rewrite <- Hrest in Hscan.
      apply IH in Hscan; [|lia]. simpl.
      destruct (ascii_dec d d); [|done]. by rewrite <- Hrest.
Qed.

(** After the replace the pattern occurs nowhere. *)
Lemma replace_removes (s : string) :
  ~ JS.occurs pat (JS.replaceWith pat sub s).
Proof.
  unfold JS.replaceWith. generalize "".
  remember (String.length s) as n eqn:Hn. revert s Hn.
  induction n as [n IH] using lt_wf_ind. intros s Hn b (u & v & Heq).
  pose proof (pat_length pat pat_nonempty) as Hpl.
  destruct (scan_cases pat sub pat_nonempty b s)
    as [(s2 & Hs & Hm) | [(Hs & Hm) | (c & s' & Hs & Hno & Hm)]];
    rewrite Hm in Heq.
  - rewrite sub_constant in Heq.
    destruct (clashb_barrier _ _ rep_clash "" (scan0 (b +:+ pat) s2) u v)
      as [H|H]; [done | simpl in H; lia |].
    simpl in H.
    destruct (str_app_cut rep _ u (pat +:+ v) Heq H) as (e & -> & He).
    apply (IH (String.length s2)
             ltac:(rewrite Hn, Hs, str_length_app; lia) s2 eq_refl (b +:+ pat)).
    by exists e, v.
  - apply (f_equal String.length) in Heq. rewrite !str_length_app in Heq.
    simpl in Heq. lia.
  - destruct u as [|c' u].
    + rewrite str_nil_app in Heq.
      assert (exists c0 p, pat = String c0 p) as (c0 & p & Hp)
        by (destruct pat; [done | by eexists _, _]).
      assert (Hd : JS.drop 1 pat = p) by (rewrite Hp; by destruct p).
      assert (Hpv : pat +:+ v = String c0 (p +:+ v)) by by rewrite Hp.
      rewrite Hpv in Heq. injection Heq as -> Heq.
      rewrite <- Hd in Heq. apply scan_tail in Heq; [|lia].
      rewrite Hs, Hp in Hno. simpl in Hno.
      destruct (ascii_dec c0 c0); [|done].
      rewrite Hd in Heq. by rewrite Heq in Hno.
    + rewrite str_cons_app in Heq. injection Heq as _ Heq.
      apply (IH (String.length s') ltac:(rewrite Hn, Hs; simpl; lia) s'
               eq_refl (b +:+ String c "")).
      by exists u, v.
Qed.

(** A replace does not bring in a string that the replacement text is a
    barrier for. *)
Lemma scan_adds_none (q : string) :
  Barrier q rep ->
  forall s b acc,
    ~ JS.occurs q (acc +:+ s) -> ~ JS.occurs q (acc +:+ scan0 b s).
Proof.
  intros Hbar s.
  remember (String.length s) as n eqn:Hn. revert s Hn.
  induction n as [n IH] using lt_wf_ind. intros s Hn b acc Hnone.
  pose proof (pat_length pat pat_nonempty) as Hpl.
  destruct (scan_cases pat sub pat_nonempty b s)
    as [(s2 & Hs & ->) | [(Hs & ->) | (c & s' & Hs & Hno & ->)]].
  - rewrite sub_constant, <- str_app_assoc.
    apply (IH (String.length s2)
             ltac:(rewrite Hn, Hs, str_length_app; lia) s2 eq_refl).
    rewrite str_app_assoc. intros (u & v & Heq).
    destruct (Hbar acc s2 u v Heq) as [H|H].
    + apply Hnone, occurs_app_l. by eapply occurs_within_l.
    + apply Hnone. rewrite Hs. apply occurs_app_r, occurs_app_r.
      rewrite <- str_app_assoc in Heq.
      eapply occurs_within_r; [exact Heq|]. by rewrite str_length_app.
  - by rewrite Hs in Hnone.
  - replace (acc +:+ String c (scan0 (b +:+ String c "") s'))
      with ((acc +:+ String c "") +:+ scan0 (b +:+ String c "") s')
      by (by rewrite str_app_assoc, str_cons_app, str_nil_app).
    apply (IH (String.length s') ltac:(rewrite Hn, Hs; simpl; lia) s' eq_refl).
    by rewrite str_app_assoc, str_cons_app, str_nil_app, <- Hs.
Qed.

Lemma replace_adds_none (q s : string) :
  Barrier q rep ->
  ~ JS.occurs q s -> ~ JS.occurs q (JS.replaceWith pat sub s).
Proof.
  intros Hbar Hnone. unfold JS.replaceWith.
  rewrite <- (str_nil_app (scan0 "" s)). by apply scan_adds_none.
Qed.

End ReplaceConstant.

(** ** Placeholder tokens *)

Lemma token_cons (w : string) : token w = String "{" (w +:+ "}").
Proof. reflexivity. Qed.

Lemma hasChar_app (c : ascii) (a b : string) :
  hasChar c (a +:+ b) = hasChar c a || hasChar c b.
Proof.
  induction a as [|d a IH]; [done|]. rewrite str_cons_app. simpl.
  by rewrite IH, orb_assoc.
Qed.

Lemma agree_heads (c d : ascii) (r t : string) :
  c <> d -> agree (String c r) (String d t) = false.
Proof.
  intros Hne. unfold agree. simpl.
  destruct (ascii_dec c d); [done|]. destruct (ascii_dec d c); [by subst | done].
Qed.

Lemma agree_same (c : ascii) (r t : string) :
  agree (String c r) (String c t) = agree r t.
Proof. unfold agree. simpl. by destruct (ascii_dec c c). Qed.

Lemma drop_head_not (c0 : ascii) (p : string) (j : nat) :
  hasChar c0 p = false -> (j < String.length p)%nat ->
  exists c r, JS.drop j p = String c r /\ c0 <> c.
Proof.
  revert j. induction p as [|d p IH]; intros j Hno Hj;
    cbn [hasChar String.length] in *; [lia|].
  apply orb_false_iff in Hno as [Hd Hp].
  destruct j as [|j].
  - exists d, p. split; [done|]. by apply Ascii.eqb_neq.
  - cbn [JS.drop]. apply IH; [done | lia].
Qed.

Lemma agree_closed (body w : string) :
  hasChar "}" body = false -> hasChar "}" w = false ->
  agree (body +:+ "}") (w +:+ "}") = true -> body = w.
Proof.
  revert w. induction body as [|c body IH]; intros w Hb Hw Hag.
  - destruct w as [|d w]; [done|]. exfalso.
    cbn [hasChar] in Hw. apply orb_false_iff in Hw as [Hd _].
    apply Ascii.eqb_neq in Hd.
    rewrite str_nil_app, str_cons_app in Hag.
    by rewrite agree_heads in Hag.
  - cbn [hasChar] in Hb. apply orb_false_iff in Hb as [Hc Hb].
    apply Ascii.eqb_neq in Hc. rewrite str_cons_app in Hag.
    destruct w as [|d w].
    + exfalso. rewrite str_nil_app in Hag.
      rewrite agree_heads in Hag; [done | congruence].
    + cbn [hasChar] in Hw. apply orb_false_iff in Hw as [_ Hw].
      rewrite str_cons_app in Hag.
      destruct (ascii_dec c d) as [->|Hne].
      * rewrite agree_same in Hag. f_equal. by apply IH.
      * by rewrite agree_heads in Hag.
Qed.

(** A token with another name is a barrier for a placeholder. *)
Lemma token_barrier (body w : string) :
  braceFree body -> braceFree w -> w <> body ->
  Barrier (token body) (token w).
Proof.
  intros [Hbo Hbc] [Hwo Hwc] Hne. apply barrier_intro.
  - intros k [Hk1 Hk2]. rewrite token_cons in Hk2. simpl in Hk2.
    destruct k as [|k]; [lia|]. rewrite (token_cons body). simpl.
    destruct (drop_head_not "{" (body +:+ "}") k) as (c & r & -> & Hc).
    + rewrite hasChar_app, Hbo. done.
    + lia.
    + rewrite token_cons. apply agree_heads. congruence.
  - intros j Hj. rewrite token_cons in Hj. simpl in Hj.
    destruct j as [|j].
    + rewrite !token_cons. simpl. rewrite agree_same.
      destruct (agree (body +:+ "}") (w +:+ "}")) eqn:Hag; [|done].
      apply agree_closed in Hag; [congruence | done | done].
    + rewrite (token_cons w). simpl.
      destruct (drop_head_not "{" (w +:+ "}") j) as (c & r & -> & Hc).
      * rewrite hasChar_app, Hwo. done.
      * lia.
      * rewrite token_cons. by apply agree_heads.
Qed.

(** ** Personalisation (C5) *)

Lemma personalizeMessage_passes (template : string) (customer : Customer.t) :
  exists sub1 sub2 sub3,
    personalizeMessage template customer
    = JS.replaceWith (token "visitCount") sub3
        (JS.replaceWith (token "totalSpent") sub2
           (JS.replaceWith (token "name") sub1 template)).
Proof. by eexists _, _, _. Qed.

Lemma personalizeMessage_johnDoe (template : string) :
  personalizeMessage template johnDoe
  = JS.replaceWith (token "visitCount") (fun _ _ => "8")
      (JS.replaceWith (token "totalSpent") (fun _ _ => rupee15000)
         (JS.replaceWith (token "name") (fun _ _ => "John Doe") template)).
Proof. reflexivity. Qed.

Lemma token_nonempty (w : string) : token w <> "".
Proof. by rewrite token_cons. Qed.

(** C5: against the customer John Doe (totalSpent 15000, visitCount 8) a
    template that holds the three placeholders is rendered to a string that
    holds "John Doe", "15,000" and "8" and none of the three placeholders;
    and for every template and customer a token {w} with another name is
    kept: where the template holds it, so does the output. *)
Theorem personalizeMessage_renders (template : string) :
  (JS.occurs "{name}" template -> JS.occurs "{totalSpent}" template ->
   JS.occurs "{visitCount}" template ->
   let out := personalizeMessage template johnDoe in
   JS.occurs "John Doe" out /\ JS.occurs "15,000" out /\ JS.occurs "8" out /\
   ~ JS.occurs "{name}" out /\ ~ JS.occurs "{totalSpent}" out /\
   ~ JS.occurs "{visitCount}" out) /\
  (forall (customer : Customer.t) (w : string),
     braceFree w ->
     w <> "name" -> w <> "totalSpent" -> w <> "visitCount" ->
     JS.occurs (token w) template ->
     JS.occurs (token w) (personalizeMessage template customer)).
Proof.
  split.
  - intros Hn Ht Hv out. subst out. rewrite personalizeMessage_johnDoe.
    set (s1 := JS.replaceWith (token "name") (fun _ _ => "John Doe") template).
    set (s2 := JS.replaceWith (token "totalSpent") (fun _ _ => rupee15000) s1).
    assert (B : forall pat x, clashb pat x = true -> Barrier pat x)
      by apply clashb_barrier.
    assert (Hs1n : JS.occurs "John Doe" s1)
      by (by apply (replace_inserts (token "name") "John Doe")).
    assert (Hs1t : JS.occurs (token "totalSpent") s1)
      by (apply replace_keeps; [done | by apply B | done]).
    assert (Hs1v : JS.occurs (token "visitCount") s1)
      by (apply replace_keeps; [done | by apply B | done]).
    assert (Hs2t : JS.occurs rupee15000 s2)
      by (by apply (replace_inserts (token "totalSpent") rupee15000)).
    assert (Hs2v : JS.occurs (token "visitCount") s2)
      by (apply replace_keeps; [done | by apply B | done]).
    assert (Hno1 : ~ JS.occurs (token "name") s1)
      by (by apply (replace_removes (token "name") "John Doe")).
    assert (Hno2 : ~ JS.occurs (token "totalSpent") s2)
      by (by apply (replace_removes (token "totalSpent") rupee15000)).
    split_and!.
    + apply replace_keeps; [done | by apply B |].
      apply replace_keeps; [done | by apply B | done].
    + apply replace_keeps; [done | by apply B |].
      apply (occurs_trans _ rupee15000); [by exists rupee, "" | done].
    + by apply (replace_inserts (token "visitCount") "8").
    + apply (replace_adds_none _ "8"); [done | done | by apply B |].
      apply (replace_adds_none _ rupee15000); [done | done | by apply B | done].
    + apply (replace_adds_none _ "8"); [done | done | by apply B | done].
    + by apply (replace_removes (token "visitCount") "8").
  - intros customer w Hw H1 H2 H3 Hocc.
    destruct (personalizeMessage_passes template customer)
      as (sub1 & sub2 & sub3 & ->).
    assert (Hb : forall body, braceFree body -> w <> body ->
                   Barrier (token body) (token w))
      by (intros body Hbody Hne; by apply token_barrier).
    apply replace_keeps; [apply token_nonempty | by apply Hb |].
    apply replace_keeps; [apply token_nonempty | by apply Hb |].
    apply replace_keeps; [apply token_nonempty | by apply Hb | done].
Qed.

Lemma personalizeMessage_renders_witness :
  let template :=
    "Hi {name}, you spent {totalSpent} in {visitCount} visits {offer}" in
  let out := personalizeMessage template johnDoe in
  (JS.occurs "John Doe" out /\ JS.occurs "15,000" out /\ JS.occurs "8" out /\
   ~ JS.occurs "{name}" out /\ ~ JS.occurs "{totalSpent}" out /\
   ~ JS.occurs "{visitCount}" out) /\
  JS.occurs "{offer}" out.
Proof.
  intros template out.
  destruct (personalizeMessage_renders template) as [H1 H2].
  split.
  - apply H1.
    + by exists "Hi ", ", you spent {totalSpent} in {visitCount} visits {offer}".
    + by exists "Hi {name}, you spent ", " in {visitCount} visits {offer}".
    + by exists "Hi {name}, you spent {totalSpent} in ", " visits {offer}".
  - apply (H2 johnDoe "offer").
    + by split.
    + discriminate.
    + discriminate.
    + discriminate.
    + by exists "Hi {name}, you spent {totalSpent} in {visitCount} visits ", "".
Defined.

(** * Further properties *)

(** ** Audience resolution *)

Lemma matchesFields_singleton (c : Customer.t) (f : string)
    (crit : Audience.Criterion) :
  Audience.matchesFields c {[ f := crit ]}
  = Audience.matchCriterion (Audience.getField c f) crit.
Proof.
  rewrite <- insert_empty, matchesFields_insert by apply lookup_empty.
  unfold Audience.matchesFields.
  rewrite (bool_decide_eq_true_2 _ (map_Forall_empty _)).
  apply andb_true_r.
Qed.

Lemma matchesFields_true (c : Customer.t)
    (q : gmap string Audience.Criterion) :
  Audience.matchesFields c q = true <->
  forall f crit, q !! f = Some crit ->
    Audience.matchCriterion (Audience.getField c f) crit = true.
Proof. unfold Audience.matchesFields. by rewrite bool_decide_eq_true. Qed.

Lemma buildConditionQuery_lookup (cond : Audience.Condition) (f : string)
    (crit : Audience.Criterion) (c : Customer.t) :
  Audience.buildConditionQuery cond !! f = Some crit ->
  f = Audience.field cond /\
  Audience.matchesCondition c cond
  = Audience.matchCriterion (Audience.getField c f) crit.
Proof.
  unfold Audience.matchesCondition, Audience.buildConditionQuery.
  intros [<- Hc]%lookup_singleton_Some. split; [done|].
  by rewrite matchesFields_singleton, Hc.
Qed.

Lemma buildConditionQuery_field (cond : Audience.Condition) :
  exists crit,
    Audience.buildConditionQuery cond !! Audience.field cond = Some crit.
Proof.
  unfold Audience.buildConditionQuery. eexists. apply lookup_singleton_eq.
Qed.

Lemma buildConditionQuery_other (cond : Audience.Condition) (f : string) :
  f <> Audience.field cond -> Audience.buildConditionQuery cond !! f = None.
Proof.
  intros Hne. unfold Audience.buildConditionQuery.
  by apply lookup_singleton_ne.
Qed.

Lemma lastForField_cons (x : Audience.Condition)
    (rest : list Audience.Condition) (cond : Audience.Condition) :
  lastForField (x :: rest) cond <->
  (cond = x /\ forall other, other ∈ rest ->
     Audience.field other <> Audience.field x) \/
  lastForField rest cond.
Proof.
  split.
  - intros ([|y pre] & post & Heq & Hpost); simpl in Heq.
    + injection Heq as -> ->. by left.
    + injection Heq as -> ->. right. by exists pre, post.
  - intros [[-> Hrest] | (pre & post & -> & Hpost)].
    + by exists [], rest.
    + by exists (x :: pre), post.
Qed.

Lemma lastForField_field (conds : list Audience.Condition)
    (cond : Audience.Condition) :
  lastForField conds cond -> cond ∈ conds.
Proof.
  intros (pre & post & -> & _). apply elem_of_app. right.
  apply elem_of_cons. by left.
Qed.

(** What the merged query of an AND rule holds under a field name. *)
Lemma assigned_lookup (conds : list Audience.Condition) :
  forall (q : gmap string Audience.Criterion) (f : string)
         (crit : Audience.Criterion),
    foldl (fun query cond =>
             Audience.assign query (Audience.buildConditionQuery cond))
          q conds !! f = Some crit <->
    (exists cond, lastForField conds cond /\
       Audience.buildConditionQuery cond !! f = Some crit) \/
    ((forall cond, cond ∈ conds -> Audience.field cond <> f) /\
     q !! f = Some crit).
Proof.
  induction conds as [|x rest IH]; intros q f crit.
  - simpl. split.
    + intros H. right. split; [|done]. intros cond Hin. by apply elem_of_nil in Hin.
    + intros [(cond & Hl & _) | [_ H]]; [|done].
      apply lastForField_field in Hl. by apply elem_of_nil in Hl.
  - cbn [foldl]. rewrite IH. unfold Audience.assign.
    rewrite lookup_union_Some_raw. split.
    + intros [(cond & Hl & Hc) | (Hrest & [Hx | [Hx Hq]])].
      * left. exists cond. split; [|done]. apply lastForField_cons. by right.
      * left. exists x. split; [|done]. apply lastForField_cons. left.
        split; [done|]. intros other Hin.
        pose proof (buildConditionQuery_lookup x f crit johnDoe Hx) as [-> _].
        by apply Hrest.
      * right. split; [|done]. intros cond Hin%elem_of_cons.
        destruct Hin as [->|Hin]; [|by apply Hrest].
        intros Heq. destruct (buildConditionQuery_field x) as [k Hk].
        rewrite Heq in Hk. congruence.
    + intros [(cond & Hl & Hc) | (Hall & Hq)].
      * apply lastForField_cons in Hl as [[-> Hrest] | Hl].
        -- right. split; [|by left].
           pose proof (buildConditionQuery_lookup x f crit johnDoe Hc) as [-> _].
           done.
        -- left. by exists cond.
      * right. split.
        -- intros cond Hin. apply Hall, elem_of_cons. by right.
        -- right. split; [|done]. apply buildConditionQuery_other.
           intros ->. apply (Hall x); [|done]. apply elem_of_cons. by left.
Qed.

(** X1: an AND rule whose conditions are well typed selects exactly the
    customers that satisfy, for every field the rule names, the last
    condition naming it; earlier conditions on the same field have no
    effect. *)
Theorem evaluateAudience_and_last (customers : list Customer.t)
    (conds : list Audience.Condition) (c : Customer.t) :
  conds <> [] ->
  forallb wellTyped conds = true ->
  (In c (Audience.evaluateAudience customers
           (Some (Audience.mkRules conds Audience.AND))) <->
   In c customers /\
   forall cond, lastForField conds cond ->
     Audience.matchesCondition c cond = true).
Proof.
  intros Hne _. unfold Audience.evaluateAudience. simpl.
  destruct conds as [|x rest] eqn:Hconds; [done|]. rewrite <- Hconds in *.
  unfold Audience.find, Audience.buildQuery.
  cbn [Audience.logic Audience.conditions Audience.matchesQuery].
  rewrite filter_In, matchesFields_true.
  split; intros [Hin Hall]; (split; [done|]).
  - intros cond Hl.
    destruct (buildConditionQuery_field cond) as [crit Hc].
    rewrite (proj2 (buildConditionQuery_lookup cond _ crit c Hc)).
    apply Hall. apply assigned_lookup. left. by exists cond.
  - intros f crit [(cond & Hl & Hc) | [_ He]]%assigned_lookup; [|done].
    rewrite <- (proj2 (buildConditionQuery_lookup cond f crit c Hc)).
    by apply Hall.
Qed.

Lemma evaluateAudience_and_last_witness :
  In (spent "a" 500)
     (Audience.evaluateAudience threeCustomers
        (Some (Audience.mkRules [above1000; below5000] Audience.AND))).
Proof.
  apply (evaluateAudience_and_last threeCustomers [above1000; below5000]
           (spent "a" 500) ltac:(discriminate) eq_refl).
  split; [by left|].
  intros cond [[-> Hrest] | [[-> _] | Hl]%lastForField_cons]%lastForField_cons.
  - exfalso. eapply (Hrest below5000); [|reflexivity].
    apply elem_of_cons. by left.
  - reflexivity.
  - apply lastForField_field in Hl. by apply elem_of_nil in Hl.
Defined.

Lemma filter_constant {A : Type} (b : bool) (f : A -> bool) (l : list A) :
  (forall x, f x = b) -> List.filter f l = if b then l else [].
Proof.
  intros Hf. induction l as [|x l IH]; simpl; [by destruct b|].
  rewrite Hf, IH. by destruct b.
Qed.

Lemma getField_virtual (c : Customer.t) (f : string) :
  virtualField f -> Audience.getField c f = None.
Proof. by intros [-> | ->]. Qed.

(** X3: a rule with one condition on a virtual field of the customer schema
    (valueCategory, daysSinceLastOrder) does not look at the customers: the
    query sees no such stored field, so comparisons, eq and in select nobody,
    ne and nin select everybody, and exists selects everybody exactly for a
    falsy value. *)
Theorem virtual_field_conditions (customers : list Customer.t)
    (cond : Audience.Condition) (logic : Audience.Logic) :
  virtualField (Audience.field cond) ->
  Audience.evaluateAudience customers
    (Some (Audience.mkRules [cond] logic))
  = match Audience.operator cond with
    | Audience.op_ne | Audience.op_nin => customers
    | Audience.op_exists =>
        if Audience.truthy (Audience.value cond) then [] else customers
    | _ => []
    end.
Proof.
  intros Hv.
  assert (Hm : forall c,
            Audience.matchesCondition c cond
            = match Audience.operator cond with
              | Audience.op_ne | Audience.op_nin => true
              | Audience.op_exists => negb (Audience.truthy (Audience.value cond))
              | _ => false
              end).
  { intros c. unfold Audience.matchesCondition, Audience.buildConditionQuery.
    rewrite matchesFields_singleton, (getField_virtual c _ Hv).
    destruct (Audience.operator cond); simpl; try done;
      by destruct (Audience.value cond). }
  destruct logic.
  - rewrite evaluateAudience_and_distinct;
      [| done | rewrite fmap_cons; apply NoDup_singleton].
    unfold matchAll. simpl.
    rewrite (filter_constant _ _ customers
               (fun c => eq_trans (andb_true_r _) (Hm c))).
    destruct (Audience.operator cond); try done.
    by destruct (Audience.truthy (Audience.value cond)).
  - rewrite evaluateAudience_or by done. unfold matchAny. simpl.
    rewrite (filter_constant _ _ customers
               (fun c => eq_trans (orb_false_r _) (Hm c))).
    destruct (Audience.operator cond); try done.
    by destruct (Audience.truthy (Audience.value cond)).
Qed.

Lemma virtual_field_conditions_witness :
  Audience.evaluateAudience [spent "vip" 90000]
    (Some (Audience.mkRules [premiumOnly] Audience.AND)) = [] /\
  Customer.valueCategory (spent "vip" 90000) = "premium".
Proof.
  split; [|reflexivity].
  exact (virtual_field_conditions [spent "vip" 90000] premiumOnly Audience.AND
           ltac:(left; reflexivity)).
Defined.

(** X4: with a value that is not an array, in behaves as eq and nin as ne. *)
Theorem in_with_scalar_is_eq (c : Customer.t) (f : string)
    (s : Audience.Scalar) :
  Audience.matchesCondition c
    (Audience.mkCond f Audience.op_in (Audience.VScalar s))
  = Audience.matchesCondition c
      (Audience.mkCond f Audience.op_eq (Audience.VScalar s)) /\
  Audience.matchesCondition c
    (Audience.mkCond f Audience.op_nin (Audience.VScalar s))
  = Audience.matchesCondition c
      (Audience.mkCond f Audience.op_ne (Audience.VScalar s)).
Proof.
  unfold Audience.matchesCondition, Audience.buildConditionQuery. simpl.
  rewrite !matchesFields_singleton. simpl.
  assert (H : Audience.among (Audience.getField c f) [s]
              = Audience.equals (Audience.getField c f) (Audience.VScalar s)).
  { destruct (Audience.getField c f) as [a|]; simpl; [|done].
    apply bool_decide_ext. apply list_elem_of_singleton. }
  by rewrite H.
Qed.

(** X5: for a well-typed rule, the preview refuses exactly the rules the
    validators refuse, and creation refuses them too; otherwise it answers
    with the size of the audience and with its first five customers, and a
    campaign created (without launch) from the same rule and store is
    stored with that size, under that rule, without any log entry. *)
Theorem preview_predicts_creation (body : Campaigns.Body) (newId : string)
    (env : Campaigns.Env) (db : DB) :
  Campaigns.b_launch body = false ->
  wellTypedRules (Campaigns.b_audienceRules body) = true ->
  match postPreview (Campaigns.b_audienceRules body) db with
  | None =>
      validRules (Campaigns.b_audienceRules body) = false /\
      Campaigns.postCreate body newId env db
      = (Campaigns.R400 "Validation failed", db)
  | Some p =>
      let audience :=
        Audience.evaluateAudience (customers db)
          (Some (Campaigns.b_audienceRules body)) in
      p_audienceSize p = length audience /\
      p_sampleCustomers p `prefix_of` audience /\
      length (p_sampleCustomers p) = Nat.min 5 (p_audienceSize p) /\
      (forall c, In c (p_sampleCustomers p) -> In c (customers db)) /\
      ((Campaigns.postCreate body newId env db).1
       = Campaigns.R201 "Campaign created successfully" ->
       exists campaign,
         (Campaigns.postCreate body newId env db).2
         = set_campaigns (<[newId := campaign]> (campaigns db)) db /\
         findById newId db = None /\
         Campaign.audienceSize campaign = p_audienceSize p /\
         Campaign.audienceRules campaign = Campaigns.b_audienceRules body /\
         Campaign.status campaign
         = default Campaign.draft (Campaigns.b_status body))
  end.
Proof.
  intros Hl _. unfold postPreview, Campaigns.postCreate, validateCampaign.
  rewrite Hl.
  destruct (validRules (Campaigns.b_audienceRules body)) eqn:Hvalid.
  - cbv zeta. cbn [p_audienceSize p_sampleCustomers]. split_and!.
    + done.
    + apply prefix_take.
    + by rewrite length_take.
    + intros cust Hin. apply list_elem_of_In in Hin.
      apply elem_of_take in Hin as (i & Hi & _).
      apply list_elem_of_lookup_2, list_elem_of_In in Hi.
      unfold Audience.evaluateAudience in Hi.
      destruct (Audience.conditions (Campaigns.b_audienceRules body));
        [done|].
      unfold Audience.find in Hi. by apply filter_In in Hi as [Hi _].
    + rewrite andb_true_r.
      destruct (Validator.isLength 1 100 _ && Validator.isLength 1 1000 _);
        [|done].
      destruct (schemaAccepts _); [|done]. simpl.
      destruct (bool_decide (is_Some (findById newId db))) eqn:Hfresh;
        [done|].
      intros _. eexists. split; [reflexivity|].
      apply bool_decide_eq_false in Hfresh.
      split; [|done]. destruct (findById newId db) eqn:Hf; [|done].
      exfalso. apply Hfresh. by eexists.
  - split; [done|]. by rewrite andb_false_r.
Qed.

Lemma preview_predicts_creation_witness :
  let body := withLaunch false launchBody in
  exists campaign,
    findById "c1" (Campaigns.postCreate body "c1" launchEnv emptyStore).2
      = Some campaign /\
    Campaign.audienceSize campaign = 1%nat.
Proof.
  intros body.
  destruct (preview_predicts_creation body "c1" launchEnv emptyStore eq_refl
              eq_refl)
    as (_ & _ & _ & _ & Hcreated).
  destruct (Hcreated eq_refl) as (campaign & Hstore & _ & Hsize & _).
  exists campaign. split; [|exact Hsize].
  rewrite Hstore. apply lookup_insert_eq.
Defined.

(** ** Receipts *)

Lemma mark_sameMessage (r : Receipt.t) (env : Vendor.Env)
    (l l' : CommunicationLog.t) :
  Vendor.mark r env l = Ok l' -> sameMessage l l'.
Proof.
  unfold Vendor.mark, CommunicationLog.markAsSent,
    CommunicationLog.markAsDelivered, CommunicationLog.markAsFailed,
    CommunicationLog.save, sameMessage.
  destruct (Receipt.status r); simpl;
    repeat case_match; intros [= <-]; done.
Qed.

Lemma mark_retryCount (r : Receipt.t) (env : Vendor.Env)
    (l l' : CommunicationLog.t) :
  Vendor.mark r env l = Ok l' ->
  (CommunicationLog.retryCount l <= 3)%nat ->
  (CommunicationLog.retryCount l' <= 3)%nat.
Proof.
  unfold Vendor.mark, CommunicationLog.markAsSent,
    CommunicationLog.markAsDelivered, CommunicationLog.markAsFailed,
    CommunicationLog.save, CommunicationLog.maxRetryCount.
  destruct (Receipt.status r); simpl;
    repeat case_match; intros [= <-]; simpl; try done;
    intros _; match goal with H : (_ <? _)%nat = false |- _ =>
      apply Nat.ltb_ge in H; exact H end.
Qed.

(** X6: a receipt rewrites the entry it finds and the campaign of that entry,
    and nothing else: the customers, every other log entry, the number of
    log entries and every other campaign stay, and the rewritten entry keeps
    its campaign, customer, messageId, message and channel. *)
Theorem receipt_touches_one_entry (r : Receipt.t) (env : Vendor.Env)
    (db : DB) :
  let db' := (Vendor.processDeliveryReceipt r env db).2 in
  match findOne (Receipt.messageId r) db with
  | None => db' = db
  | Some (i, l) =>
      customers db' = customers db /\
      length (logs db') = length (logs db) /\
      (forall j, j <> i -> logs db' !! j = logs db !! j) /\
      (exists l', logs db' !! i = Some l' /\ sameMessage l l') /\
      (forall cid, cid <> CommunicationLog.campaignId l ->
         campaigns db' !! cid = campaigns db !! cid)
  end.
Proof.
  intros db'. subst db'.
  destruct (findOne (Receipt.messageId r) db) as [[i l]|] eqn:Hf.
  - apply findOne_lookup in Hf as Hil. destruct Hil as [Hi _].
    destruct (processDeliveryReceipt_found r env db i l Hf)
      as [(e & _ & ->) | (log2 & timer & Hm & _ & Hlogs & Hcs)].
    + simpl. split_and!; try done. exists l. by split.
    + rewrite Hlogs, Hcs. split_and!.
      * unfold Vendor.processDeliveryReceipt. rewrite Hf. simpl. rewrite Hm.
        destruct (findById (CommunicationLog.campaignId log2) _); reflexivity.
      * apply length_insert.
      * intros j Hj. by apply list_lookup_insert_ne.
      * exists log2. split.
        -- apply list_lookup_insert_eq. by eapply lookup_lt_Some.
        -- apply mark_sameMessage in Hm. unfold sameMessage in *. simpl in Hm.
           done.
      * intros cid Hne. case_match; [|done]. by apply lookup_insert_ne.
  - unfold Vendor.processDeliveryReceipt. by rewrite Hf.
Qed.

(** X7: a receipt changes the status of a campaign only from running to
    completed, and only when the counted sent + failed has reached
    audienceSize; a campaign that is not running keeps its status and its
    completion time whatever is counted on it. Name, rule, template,
    audienceSize and start time are never changed. *)
Theorem receipt_completes_only_running (r : Receipt.t) (env : Vendor.Env)
    (db : DB) (cid : string) (c c' : Campaign.t) :
  campaigns db !! cid = Some c ->
  campaigns (Vendor.processDeliveryReceipt r env db).2 !! cid = Some c' ->
  (Campaign.name c' = Campaign.name c /\
   Campaign.audienceRules c' = Campaign.audienceRules c /\
   Campaign.messageTemplate c' = Campaign.messageTemplate c /\
   Campaign.audienceSize c' = Campaign.audienceSize c /\
   Campaign.startedAt c' = Campaign.startedAt c) /\
  (Campaign.status c <> Campaign.running ->
   Campaign.status c' = Campaign.status c /\
   Campaign.completedAt c' = Campaign.completedAt c) /\
  ((Campaign.status c' = Campaign.status c /\
    Campaign.completedAt c' = Campaign.completedAt c) \/
   (Campaign.status c = Campaign.running /\
    Campaign.status c' = Campaign.completed /\
    Campaign.completedAt c' = Some (Vendor.completedAt env) /\
    (Campaign.audienceSize c
     <= Campaign.sent (Campaign.stats c') + Campaign.failed (Campaign.stats c'))%nat)).
Proof.
  intros Hc Hc'.
  destruct (processDeliveryReceipt_campaign r env db cid c Hc) as [H|H];
    rewrite H in Hc'; injection Hc' as <-.
  - split_and!; try done. by left.
  - unfold Vendor.recordOutcome.
    set (c1 := Campaign.updateStats (Vendor.statKey (Receipt.status r)) c).
    assert (H1 : Campaign.name c1 = Campaign.name c /\
                 Campaign.audienceRules c1 = Campaign.audienceRules c /\
                 Campaign.messageTemplate c1 = Campaign.messageTemplate c /\
                 Campaign.audienceSize c1 = Campaign.audienceSize c /\
                 Campaign.startedAt c1 = Campaign.startedAt c /\
                 Campaign.status c1 = Campaign.status c /\
                 Campaign.completedAt c1 = Campaign.completedAt c).
    { unfold c1, Campaign.updateStats. by case_match. }
    destruct H1 as (Hn & Hr & Ht & Ha & Hs & Hst & Hco).
    destruct (Nat.leb_spec (Campaign.audienceSize c1)
                (Campaign.sent (Campaign.stats c1)
                 + Campaign.failed (Campaign.stats c1))) as [Hle|Hgt];
      [destruct (decide (Campaign.status c1 = Campaign.running)) as [Hrun|Hnot]|].
    + rewrite bool_decide_eq_true_2 by done. simpl.
      split_and!; try done.
      * intros Hn'. congruence.
      * right. split_and!; [congruence | done | done | by rewrite <- Ha].
    + rewrite bool_decide_eq_false_2 by done. simpl.
      split_and!; try done. by left.
    + simpl. split_and!; try done. by left.
Qed.

Lemma receipt_completes_only_running_witness :
  let db := mkDB [johnDoe] {[ "c1" := sampleCampaign Campaign.running 1 ]}
              [sampleLog CommunicationLog.pending 0] in
  exists c',
    campaigns (Vendor.processDeliveryReceipt sentReceipt receiptEnv db).2 !! "c1"
      = Some c' /\
    (Campaign.status c' = Campaign.running \/
     Campaign.status c' = Campaign.completed).
Proof.
  intros db.
  exists (Vendor.recordOutcome sentReceipt receiptEnv
            (sampleCampaign Campaign.running 1)).
  split; [reflexivity|].
  destruct (receipt_completes_only_running sentReceipt receiptEnv db "c1"
              (sampleCampaign Campaign.running 1)
              (Vendor.recordOutcome sentReceipt receiptEnv
                 (sampleCampaign Campaign.running 1)) eq_refl eq_refl)
    as (_ & _ & [[H _] | (_ & H & _)]).
  - left. exact H.
  - right. exact H.
Defined.

(** ** Launches *)


Lemma count_step (env : Campaigns.Env) (index n : nat) :
  acceptedCount env index (S n) =
    ((if Campaigns.accepted env index then 1 else 0)
     + acceptedCount env (S index) n)%nat /\
  refusedCount env index (S n) =
    ((if Campaigns.accepted env index then 0 else 1)
     + refusedCount env (S index) n)%nat.
Proof.
  unfold acceptedCount, refusedCount. simpl.
  by destruct (Campaigns.accepted env index).
Qed.

(** The document the vendor loop ends with: the counters of the accepted
    and of the rejected calls, on the document it was given. *)
Lemma sendMessagesToVendor_final (batch : list CommunicationLog.t)
    (campaign : Campaign.t) (env : Campaigns.Env) (index : nat) :
  (Campaigns.sendMessagesToVendor batch campaign env index).2 =
  Campaign.set_stats
    (Campaign.mkStats
       (Campaign.sent (Campaign.stats campaign)
        + acceptedCount env index (length batch))
       (Campaign.delivered (Campaign.stats campaign))
       (Campaign.failed (Campaign.stats campaign)
        + refusedCount env index (length batch))
       (Campaign.pending (Campaign.stats campaign)))
    campaign.
Proof.
  revert campaign index.
  induction batch as [|log rest IH]; intros campaign index.
  - simpl. unfold acceptedCount, refusedCount. simpl.
    rewrite !Nat.add_0_r. by destruct campaign as [? ? ? ? ? ? ? ? [] ?].
  - cbn [Campaigns.sendMessagesToVendor length].
    specialize (IH (Campaign.updateStats
                      (if Campaigns.accepted env index then "sent" else "failed")
                      campaign) (S index)).
    destruct (Campaigns.sendMessagesToVendor rest _ env (S index))
      as [effects final].
    simpl in IH. simpl. rewrite IH.
    destruct (count_step env index (length rest)) as [-> ->].
    destruct (Campaigns.accepted env index); unfold Campaign.updateStats;
      simpl; unfold Campaign.set_stats; simpl; f_equal; f_equal; lia.
Qed.

(** The vendor loop run against a store whose copy of the campaign has the
    counters of the loop's own document: the store ends with the loop's
    final counters on its copy. *)
Lemma exec_sends (batch : list CommunicationLog.t) (campaign c0 : Campaign.t)
    (env : Campaigns.Env) (index : nat) (db : DB) :
  campaigns db !! Campaign._id campaign = Some c0 ->
  Campaign.stats c0 = Campaign.stats campaign ->
  Campaigns.exec (Campaigns.sendMessagesToVendor batch campaign env index).1 db =
  set_campaigns
    (<[Campaign._id campaign :=
         Campaign.set_stats
           (Campaign.stats
              (Campaigns.sendMessagesToVendor batch campaign env index).2) c0]>
       (campaigns db))
    db.
Proof.
  revert campaign c0 index db.
  induction batch as [|log rest IH]; intros campaign c0 index db Hc Hs.
  - simpl. rewrite <- Hs.
    replace (Campaign.set_stats (Campaign.stats c0) c0) with c0
      by (by destruct c0).
    rewrite insert_id by done. by destruct db.
  - cbn [Campaigns.sendMessagesToVendor].
    set (key := if Campaigns.accepted env index then "sent" else "failed").
    set (campaign' := Campaign.updateStats key campaign).
    assert (Hid : Campaign._id campaign' = Campaign._id campaign).
    { unfold campaign', Campaign.updateStats. by case_match. }
    assert (Hstat : exists v,
               Campaign.readStat (Campaign.stats campaign') key = Some v /\
               Campaign.writeStat (Campaign.stats c0) key v
               = Campaign.stats campaign').
    { unfold campaign', key, Campaign.updateStats. rewrite Hs.
      destruct (Campaigns.accepted env index); simpl; eauto. }
    destruct Hstat as (v & Hv & Hw).
    set (c1 := Campaign.set_stats (Campaign.stats campaign') c0).
    set (db1 := set_campaigns (<[Campaign._id campaign := c1]> (campaigns db)) db).
    specialize (IH campaign' c1 (S index) db1).
    destruct (Campaigns.sendMessagesToVendor rest campaign' env (S index))
      as [effects final].
    simpl in IH. simpl. rewrite Hv. simpl.
    assert (Hdb1 : set_campaigns
                     (alter (fun c => Campaign.set_stats
                                        (Campaign.writeStat (Campaign.stats c) key v) c)
                            (Campaign._id campaign) (campaigns db)) db = db1).
    { unfold db1. f_equal. apply map_eq. intros k.
      destruct (decide (k = Campaign._id campaign)) as [->|Hne].
      - rewrite lookup_alter_eq, lookup_insert_eq, Hc. simpl.
        by rewrite Hw.
      - by rewrite lookup_alter_ne, lookup_insert_ne. }
    rewrite Hdb1. rewrite IH.
    + unfold db1. simpl. rewrite Hid. unfold set_campaigns. simpl.
      f_equal. by rewrite insert_insert_eq.
    + unfold db1. simpl. rewrite Hid. apply lookup_insert_eq.
    + done.
Qed.

(** What a launch does to a store that holds the campaign document it is
    given: with every message valid, the campaign is stored as running with
    the counted calls and the batch is appended to the logs; with an invalid
    message, the campaign is stored as running and nothing else happens. *)
Lemma exec_launch (campaign : Campaign.t) (audience : list Customer.t)
    (env : Campaigns.Env) (db : DB) :
  campaigns db !! Campaign._id campaign = Some campaign ->
  let started := Campaign.start (Campaigns.startedNow env) campaign in
  let batch := imap (Campaigns.newLog started env) audience in
  if forallb Campaigns.validLog batch then
    Campaigns.launchCampaign campaign audience env
    = ((Campaigns.launchCampaign campaign audience env).1,
       Ok (launched campaign env (length audience))) /\
    Campaigns.exec (Campaigns.launchCampaign campaign audience env).1 db
    = mkDB (customers db)
        (<[Campaign._id campaign := launched campaign env (length audience)]>
           (campaigns db))
        (logs db ++ batch)
  else
    Campaigns.launchCampaign campaign audience env
    = ((Campaigns.launchCampaign campaign audience env).1,
       Throw (ValidationError "message")) /\
    Campaigns.exec (Campaigns.launchCampaign campaign audience env).1 db
    = mkDB (customers db)
        (<[Campaign._id campaign := started]> (campaigns db))
        (logs db).
Proof.
  intros Hc started batch.
  assert (Hstart : alter (Campaign.start (Campaigns.startedNow env))
                     (Campaign._id campaign) (campaigns db)
                   = <[Campaign._id campaign := started]> (campaigns db)).
  { apply map_eq. intros k.
    destruct (decide (k = Campaign._id campaign)) as [->|Hne].
    - by rewrite lookup_alter_eq, lookup_insert_eq, Hc.
    - by rewrite lookup_alter_ne, lookup_insert_ne. }
  pose proof (length_imap (Campaigns.newLog started env) audience) as Hlen.
  fold batch in Hlen.
  unfold Campaigns.launchCampaign. fold started. fold batch.
  destruct batch as [|l0 rest] eqn:Hb.
  - simpl. rewrite Hstart. split.
    + f_equal. f_equal. unfold launched. fold started.
      simpl in Hlen. rewrite <- Hlen.
      unfold acceptedCount, refusedCount. simpl. rewrite !Nat.add_0_r.
      by destruct campaign as [? ? ? ? ? ? ? ? [] ?].
    + rewrite app_nil_r. f_equal. f_equal. unfold launched. fold started.
      simpl in Hlen. rewrite <- Hlen.
      unfold acceptedCount, refusedCount. simpl. rewrite !Nat.add_0_r.
      by destruct campaign as [? ? ? ? ? ? ? ? [] ?].
  - destruct (forallb Campaigns.validLog (l0 :: rest)) eqn:Hv.
    + pose proof (sendMessagesToVendor_final (l0 :: rest) started env 0) as Hfin.
      pose proof (exec_sends (l0 :: rest) started started env 0
                    (mkDB (customers db)
                       (<[Campaign._id campaign := started]> (campaigns db))
                       (logs db ++ l0 :: rest))) as Hex.
      destruct (Campaigns.sendMessagesToVendor (l0 :: rest) started env 0)
        as [effects final].
      simpl in Hfin. simpl in Hex.
      assert (Hfinal : final = launched campaign env (length audience)).
      { rewrite Hfin. unfold launched. fold started. by rewrite <- Hlen. }
      split; [simpl; by rewrite Hfinal|].
      unfold Campaigns.exec. simpl. rewrite Hstart.
      unfold Campaigns.exec in Hex. unfold set_campaigns, set_logs. simpl.
      rewrite Hex.
      * unfold set_campaigns. simpl. f_equal.
        rewrite insert_insert_eq. f_equal. rewrite Hfinal.
        unfold launched. by fold started.
      * apply lookup_insert_eq.
      * done.
    + simpl. by rewrite Hstart.
Qed.

(** [POST /:id/launch] on a draft campaign stored under its [_id]. *)
Lemma postLaunch_draft (id : string) (env : Campaigns.Env) (db : DB)
    (c : Campaign.t) :
  findById id db = Some c ->
  Campaign._id c = id ->
  Campaign.status c = Campaign.draft ->
  let audience :=
    Audience.evaluateAudience (customers db) (Some (Campaign.audienceRules c)) in
  let started := Campaign.start (Campaigns.startedNow env) c in
  let batch := imap (Campaigns.newLog started env) audience in
  Campaigns.postLaunch id env db =
  if forallb Campaigns.validLog batch then
    (Campaigns.R200 "Campaign launched successfully",
     mkDB (customers db)
       (<[id := launched c env (length audience)]> (campaigns db))
       (logs db ++ batch))
  else
    (Campaigns.R400 "Validation Error",
     mkDB (customers db) (<[id := started]> (campaigns db)) (logs db)).
Proof.
  intros Hc Hid Hst audience started batch.
  unfold Campaigns.postLaunch, Campaigns.launchRoute. rewrite Hc.
  rewrite decide_False by (rewrite Hst; by intros []).
  fold audience.
  assert (Hc' : campaigns db !! Campaign._id c = Some c) by by rewrite Hid.
  pose proof (exec_launch c audience env db Hc') as Hex. simpl in Hex.
  fold started in Hex. fold batch in Hex.
  destruct (forallb Campaigns.validLog batch);
    destruct Hex as [Hl He]; rewrite Hl; simpl; rewrite He; by rewrite Hid.
Qed.

(** [POST /] with a body that passes the validators and the schema, for an
    [_id] the collection does not hold. *)
Lemma postCreate_accepted (body : Campaigns.Body) (newId : string)
    (env : Campaigns.Env) (db : DB) :
  validateCampaign (Campaigns.b_name body) (Campaigns.b_messageTemplate body)
    (Campaigns.b_audienceRules body) = true ->
  let audience :=
    Audience.evaluateAudience (customers db)
      (Some (Campaigns.b_audienceRules body)) in
  let campaign := Campaigns.newCampaign body newId (length audience) in
  schemaAccepts campaign = true ->
  findById newId db = None ->
  let started := Campaign.start (Campaigns.startedNow env) campaign in
  let batch := imap (Campaigns.newLog started env) audience in
  Campaigns.postCreate body newId env db =
  if Campaigns.b_launch body then
    if forallb Campaigns.validLog batch then
      (Campaigns.R201 "Campaign created and launched successfully",
       mkDB (customers db)
         (<[newId := launched campaign env (length audience)]> (campaigns db))
         (logs db ++ batch))
    else
      (Campaigns.R400 "Validation Error",
       mkDB (customers db) (<[newId := started]> (campaigns db)) (logs db))
  else
    (Campaigns.R201 "Campaign created successfully",
     mkDB (customers db) (<[newId := campaign]> (campaigns db)) (logs db)).
Proof.
  intros Hvalid audience campaign Hschema Hfresh started batch.
  unfold Campaigns.postCreate. rewrite Hvalid.
  fold audience. fold campaign. rewrite Hschema, Hfresh. cbn [negb].
  rewrite bool_decide_eq_false_2 by (by intros [? ?]).
  destruct (Campaigns.b_launch body); [|done].
  set (db1 := set_campaigns (<[newId := campaign]> (campaigns db)) db).
  assert (Hc' : campaigns db1 !! Campaign._id campaign = Some campaign)
    by apply lookup_insert_eq.
  pose proof (exec_launch campaign audience env db1 Hc') as Hex. simpl in Hex.
  fold campaign in Hex. fold started in Hex. fold batch in Hex.
  destruct (forallb Campaigns.validLog batch);
    destruct Hex as [Hl He]; rewrite Hl; simpl; rewrite He;
    by rewrite insert_insert_eq.
Qed.

(** Whatever the body, [POST /] leaves the store as it was or adds one
    campaign under the new [_id] and, behind the logs, the entries of its
    launch. *)
Lemma postCreate_shape (body : Campaigns.Body) (newId : string)
    (env : Campaigns.Env) (db : DB) :
  (Campaigns.postCreate body newId env db).2 = db \/
  exists c extra,
    Campaign._id c = newId /\
    findById newId db = None /\
    (Campaigns.postCreate body newId env db).2
    = mkDB (customers db) (<[newId := c]> (campaigns db)) (logs db ++ extra) /\
    Forall (fun l => CommunicationLog.retryCount l = 0%nat) extra.
Proof.
  destruct (validateCampaign (Campaigns.b_name body)
              (Campaigns.b_messageTemplate body)
              (Campaigns.b_audienceRules body)) eqn:Hvalid;
    [|left; unfold Campaigns.postCreate; by rewrite Hvalid].
  set (audience := Audience.evaluateAudience (customers db)
                     (Some (Campaigns.b_audienceRules body))).
  set (campaign := Campaigns.newCampaign body newId (length audience)).
  destruct (schemaAccepts campaign) eqn:Hschema;
    [|left; unfold Campaigns.postCreate; rewrite Hvalid;
      fold audience; fold campaign; by rewrite Hschema].
  destruct (findById newId db) as [old|] eqn:Hfresh.
  { left. unfold Campaigns.postCreate. rewrite Hvalid.
    fold audience. fold campaign. rewrite Hschema, Hfresh. cbn [negb].
    by rewrite bool_decide_eq_true_2. }
  right.
  rewrite (postCreate_accepted body newId env db Hvalid Hschema Hfresh).
  fold audience. fold campaign.
  destruct (Campaigns.b_launch body);
    [destruct (forallb Campaigns.validLog _)|]; cbn [snd].
  - eexists _, _. split_and!; [| done | reflexivity |]; [done|].
    apply Forall_forall. intros l Hl.
    by apply elem_of_lookup_imap in Hl as (i & cust & -> & _).
  - exists (Campaign.start (Campaigns.startedNow env) campaign), [].
    rewrite app_nil_r. by split_and!.
  - exists campaign, []. rewrite app_nil_r. by split_and!.
Qed.



(** X9: a launch of a draft campaign (with a well-typed rule) for which one
    rendered message is empty or longer than 2000 characters is answered
    400 "Validation Error" by the error middleware, after the campaign has
    been stored as running: no log entry is written, no message is
    submitted and no counter moves, and the campaign is left in a state
    from which it can be neither launched nor updated. *)
Theorem launch_invalid_message (id : string) (env : Campaigns.Env) (db : DB)
    (c : Campaign.t) :
  findById id db = Some c ->
  Campaign._id c = id ->
  Campaign.status c = Campaign.draft ->
  wellTypedRules (Campaign.audienceRules c) = true ->
  let audience :=
    Audience.evaluateAudience (customers db) (Some (Campaign.audienceRules c)) in
  let started := Campaign.start (Campaigns.startedNow env) c in
  forallb Campaigns.validLog (imap (Campaigns.newLog started env) audience)
    = false ->
  let db' := set_campaigns (<[id := started]> (campaigns db)) db in
  Campaigns.postLaunch id env db = (Campaigns.R400 "Validation Error", db') /\
  submissions (Campaigns.launchRoute id env db).2 = [] /\
  Campaign.stats started = Campaign.stats c /\
  (forall env',
     Campaigns.postLaunch id env' db'
     = (Campaigns.R400 "Only draft campaigns can be launched", db')) /\
  (forall body, (putUpdate id body db').2 = db').
Proof.
  intros Hc Hid Hst _ audience started Hinvalid db'.
  pose proof (postLaunch_draft id env db c Hc Hid Hst) as Hp. cbv zeta in Hp.
  fold audience in Hp. fold started in Hp. rewrite Hinvalid in Hp.
  assert (Hc' : findById id db' = Some started) by apply lookup_insert_eq.
  split_and!.
  - exact Hp.
  - unfold Campaigns.launchRoute. rewrite Hc.
    rewrite decide_False by (rewrite Hst; by intros []).
    fold audience. unfold Campaigns.launchCampaign. fold started.
    destruct (imap (Campaigns.newLog started env) audience) eqn:Hb; [done|].
    by rewrite Hinvalid.
  - done.
  - intros env'. unfold Campaigns.postLaunch, Campaigns.launchRoute.
    rewrite Hc'. by rewrite decide_True.
  - intros body. unfold putUpdate. case_match; [|done].
    rewrite Hc'. by rewrite decide_True.
Qed.

Lemma launch_invalid_message_witness :
  Campaigns.postLaunch "c1" launchEnv echoStore =
    (Campaigns.R400 "Validation Error",
     set_campaigns
       (<["c1" := Campaign.start 100 echoCampaign]> (campaigns echoStore))
       echoStore).
Proof.
  refine (proj1 (launch_invalid_message "c1" launchEnv echoStore echoCampaign
                   eq_refl eq_refl eq_refl eq_refl _)).
  vm_compute. reflexivity.
Defined.

(** X10: launching is possible once: after a launch of a draft campaign,
    whether it answered 200 or, for an invalid message, 400, every further
    launch of that campaign is answered 400 and changes nothing. *)
Theorem launch_only_once (id : string) (env env' : Campaigns.Env) (db : DB)
    (c : Campaign.t) :
  findById id db = Some c ->
  Campaign._id c = id ->
  Campaign.status c = Campaign.draft ->
  Campaigns.postLaunch id env' (Campaigns.postLaunch id env db).2 =
  (Campaigns.R400 "Only draft campaigns can be launched",
   (Campaigns.postLaunch id env db).2).
Proof.
  intros Hc Hid Hst.
  pose proof (postLaunch_draft id env db c Hc Hid Hst) as Hp. cbv zeta in Hp.
  rewrite Hp. clear Hp.
  destruct (forallb Campaigns.validLog _); simpl;
    unfold Campaigns.postLaunch, Campaigns.launchRoute, findById; simpl;
    rewrite lookup_insert_eq; by rewrite decide_True.
Qed.

Lemma launch_only_once_witness :
  Campaigns.postLaunch "c1" launchEnv
    (Campaigns.postLaunch "c1" launchEnv draftStore).2 =
  (Campaigns.R400 "Only draft campaigns can be launched",
   (Campaigns.postLaunch "c1" launchEnv draftStore).2).
Proof.
  exact (launch_only_once "c1" launchEnv launchEnv draftStore
           (sampleCampaign Campaign.draft 1) eq_refl eq_refl eq_refl).
Defined.

(** X11: for a body without a status (or with status draft), a well-typed
    rule and an [_id] the collection does not hold, [POST /] with
    [launch: true] leaves the store that [POST /] without the flag followed
    by [POST /:id/launch] on the new campaign leaves, for the same clock
    readings, draws and vendor answers. Where it answers 201, creation
    answers 201 and the launch 200; where it answers 400 for an invalid
    message, creation answers 201 and the launch that 400; where it refuses
    the body, creation refuses it alike and the launch finds no campaign. *)
Theorem create_and_launch_is_create_then_launch (body : Campaigns.Body)
    (newId : string) (env : Campaigns.Env) (db : DB) :
  findById newId db = None ->
  Campaigns.b_launch body = true ->
  Campaigns.b_status body = None \/
  Campaigns.b_status body = Some Campaign.draft ->
  wellTypedRules (Campaigns.b_audienceRules body) = true ->
  let created := Campaigns.postCreate (withLaunch false body) newId env db in
  let launch := Campaigns.postLaunch newId env created.2 in
  (Campaigns.postCreate body newId env db).2 = launch.2 /\
  match (Campaigns.postCreate body newId env db).1 with
  | Campaigns.R201 _ =>
      created.1 = Campaigns.R201 "Campaign created successfully" /\
      launch.1 = Campaigns.R200 "Campaign launched successfully"
  | Campaigns.R400 m =>
      (created.1 = Campaigns.R201 "Campaign created successfully" /\
       m = "Validation Error" /\ launch.1 = Campaigns.R400 m) \/
      (created.1 = Campaigns.R400 m /\
       launch.1 = Campaigns.R404 "Campaign not found")
  | _ => False
  end.
Proof.
  intros Hfresh Hlaunch Hstatus _ created launch.
  assert (Hnone : Campaigns.postLaunch newId env db
                  = (Campaigns.R404 "Campaign not found", db)).
  { unfold Campaigns.postLaunch, Campaigns.launchRoute. by rewrite Hfresh. }
  destruct (validateCampaign (Campaigns.b_name body)
              (Campaigns.b_messageTemplate body)
              (Campaigns.b_audienceRules body)) eqn:Hvalid.
  2:{ subst launch created. unfold Campaigns.postCreate.
      cbn [withLaunch Campaigns.b_name Campaigns.b_messageTemplate
           Campaigns.b_audienceRules]. rewrite Hvalid. cbn [fst snd].
      rewrite Hnone. split; [done|]. by right. }
  set (audience := Audience.evaluateAudience (customers db)
                     (Some (Campaigns.b_audienceRules body))).
  set (campaign := Campaigns.newCampaign body newId (length audience)).
  destruct (schemaAccepts campaign) eqn:Hschema.
  2:{ subst launch created. unfold Campaigns.postCreate.
      cbn [withLaunch Campaigns.b_name Campaigns.b_messageTemplate
           Campaigns.b_audienceRules]. rewrite Hvalid.
      fold audience.
      change (Campaigns.newCampaign (withLaunch false body) newId
                (length audience)) with campaign.
      fold campaign. rewrite Hschema. cbn [negb fst snd].
      rewrite Hnone. split; [done|]. by right. }
  pose proof (postCreate_accepted body newId env db Hvalid Hschema Hfresh)
    as Hb.
  pose proof (postCreate_accepted (withLaunch false body) newId env db
                Hvalid Hschema Hfresh) as Hc.
  cbv zeta in Hb, Hc. rewrite Hlaunch in Hb.
  change (Campaigns.b_launch (withLaunch false body)) with false in Hc.
  cbv iota in Hc.
  change (Campaigns.b_audienceRules (withLaunch false body))
    with (Campaigns.b_audienceRules body) in Hc.
  fold audience in Hb, Hc.
  change (Campaigns.newCampaign (withLaunch false body) newId
            (length audience)) with campaign in Hc.
  fold campaign in Hb.
  subst launch created. rewrite Hb, Hc. clear Hb Hc. cbn [fst snd].
  set (db1 := mkDB (customers db) (<[newId := campaign]> (campaigns db))
                (logs db)).
  assert (Hdraft : Campaign.status campaign = Campaign.draft).
  { unfold campaign, Campaigns.newCampaign. simpl.
    by destruct Hstatus as [-> | ->]. }
  pose proof (postLaunch_draft newId env db1 campaign
                (lookup_insert_eq _ _ _) eq_refl Hdraft) as Hp.
  cbv zeta in Hp.
  change (customers db1) with (customers db) in Hp.
  change (Campaign.audienceRules campaign)
    with (Campaigns.b_audienceRules body) in Hp.
  fold audience in Hp. rewrite Hp. clear Hp.
  destruct (forallb Campaigns.validLog _); cbn [fst snd];
    unfold db1; cbn [campaigns customers logs];
    rewrite insert_insert_eq; split; try done.
  by left.
Qed.

Lemma create_and_launch_is_create_then_launch_witness :
  (Campaigns.postCreate launchBody "c1" launchEnv emptyStore).2
  = (Campaigns.postLaunch "c1" launchEnv
       (Campaigns.postCreate (withLaunch false launchBody) "c1" launchEnv
          emptyStore).2).2.
Proof.
  exact (proj1 (create_and_launch_is_create_then_launch launchBody "c1"
                  launchEnv emptyStore eq_refl eq_refl (or_introl eq_refl)
                  eq_refl)).
Defined.

(** ** The log collection over time *)

Lemma sameMessage_refl (l : CommunicationLog.t) : sameMessage l l.
Proof. by unfold sameMessage. Qed.

Lemma sameMessage_trans (l1 l2 l3 : CommunicationLog.t) :
  sameMessage l1 l2 -> sameMessage l2 l3 -> sameMessage l1 l3.
Proof.
  unfold sameMessage. intros (?&?&?&?&?&?) (?&?&?&?&?&?).
  split_and!; congruence.
Qed.

(** The logs a receipt leaves: as they were, or with the found entry
    replaced by its marked copy. *)
Lemma receipt_logs (r : Receipt.t) (env : Vendor.Env) (db : DB) :
  logs (Vendor.processDeliveryReceipt r env db).2 = logs db \/
  exists i l log2,
    findOne (Receipt.messageId r) db = Some (i, l) /\
    Vendor.mark r env
      (CommunicationLog.set_vendor (Receipt.vendorMessageId r) (Some r) l)
    = Ok log2 /\
    logs (Vendor.processDeliveryReceipt r env db).2 = <[i := log2]> (logs db).
Proof.
  destruct (findOne (Receipt.messageId r) db) as [[i l]|] eqn:Hf.
  - destruct (processDeliveryReceipt_found r env db i l Hf)
      as [(e & _ & ->) | (log2 & timer & Hm & _ & Hlogs & _)]; [by left|].
    right. by exists i, l, log2.
  - left. unfold Vendor.processDeliveryReceipt. by rewrite Hf.
Qed.

Lemma insert_entry (ls : list CommunicationLog.t) (i j : nat)
    (l x y : CommunicationLog.t) :
  ls !! i = Some l -> sameMessage l x -> ls !! j = Some y ->
  exists y', <[i := x]> ls !! j = Some y' /\ sameMessage y y'.
Proof.
  intros Hi Hx Hj. destruct (decide (i = j)) as [->|Hne].
  - exists x. split.
    + apply list_lookup_insert_eq. by eapply lookup_lt_Some.
    + congruence.
  - exists y. split; [by rewrite list_lookup_insert_ne | apply sameMessage_refl].
Qed.

Lemma alter_entry (ls : list CommunicationLog.t) (i j : nat)
    (g : CommunicationLog.t -> CommunicationLog.t) (y : CommunicationLog.t) :
  (forall l, sameMessage l (g l)) -> ls !! j = Some y ->
  exists y', alter g i ls !! j = Some y' /\ sameMessage y y'.
Proof.
  intros Hg Hj. destruct (decide (i = j)) as [->|Hne].
  - exists (g y). split; [|apply Hg].
    by rewrite list_lookup_alter_eq, Hj.
  - exists y. split; [by rewrite list_lookup_alter_ne | apply sameMessage_refl].
Qed.

(** No step of the server removes a log entry, moves it, or changes its
    campaign, customer, messageId, message, channel or personalised data. *)
Lemma step_entry (s : Schedule.Step) (db : DB) (j : nat)
    (y : CommunicationLog.t) :
  logs db !! j = Some y ->
  exists y', logs (Schedule.step db s) !! j = Some y' /\ sameMessage y y'.
Proof.
  intros Hj.
  assert (Hsame : exists y', logs db !! j = Some y' /\ sameMessage y y')
    by (exists y; split; [done | apply sameMessage_refl]).
  destruct s as [e | r env | m now | m now | i doc now click | i doc now];
    simpl.
  - destruct e as [cid now | docs | log | cid key [v|]]; simpl; try done.
    exists y. split; [by apply lookup_app_l_Some | apply sameMessage_refl].
  - destruct (receipt_logs r env db) as [-> | (i & l & log2 & Hf & Hm & ->)];
      [done|].
    apply findOne_lookup in Hf as [Hi _].
    apply (insert_entry _ i j l log2 y); [done| |done].
    apply mark_sameMessage in Hm. exact Hm.
  - unfold Vendor.trackOpen.
    destruct (findOne m db) as [[i l]|] eqn:Hf; [|done].
    rewrite markAsOpened_spec. simpl.
    apply findOne_lookup in Hf as [Hi _].
    apply (insert_entry _ i j l _ y); [done| |done].
    case_decide; [done | apply sameMessage_refl].
  - unfold Vendor.trackClick.
    destruct (findOne m db) as [[i l]|] eqn:Hf; [|done].
    rewrite markAsClicked_spec. simpl.
    apply findOne_lookup in Hf as [Hi _].
    apply (insert_entry _ i j l _ y); [done| |done].
    case_decide; [done | apply sameMessage_refl].
  - unfold Vendor.openTimer. rewrite markAsOpened_spec. simpl.
    case_decide; [|done]. simpl. by apply alter_entry.
  - unfold Vendor.clickTimer. rewrite markAsClicked_spec.
    case_decide; [|done]. simpl. by apply alter_entry.
Qed.

Lemma run_entry (schedule : list Schedule.Step) (db : DB) (j : nat)
    (y : CommunicationLog.t) :
  logs db !! j = Some y ->
  exists y', logs (Schedule.run schedule db) !! j = Some y' /\ sameMessage y y'.
Proof.
  revert db y. induction schedule as [|s rest IH]; intros db y Hj.
  - exists y. split; [done | apply sameMessage_refl].
  - destruct (step_entry s db j y Hj) as (y1 & H1 & Hs1).
    destruct (IH (Schedule.step db s) y1 H1) as (y2 & H2 & Hs2).
    exists y2. split; [exact H2 | by eapply sameMessage_trans].
Qed.

Lemma exec_run (effects : list Campaigns.Effect) (db : DB) :
  Campaigns.exec effects db = Schedule.run (Schedule.Launch <$> effects) db.
Proof.
  unfold Campaigns.exec, Schedule.run. revert db.
  induction effects as [|e rest IH]; intros db; [done|].
  simpl. apply IH.
Qed.

Lemma batchUpdate_run (updates : list (Receipt.t * Vendor.Env)) (db : DB) :
  (Vendor.batchUpdate updates db).2 = Schedule.run (receiptSteps updates) db.
Proof.
  revert db. induction updates as [|[r env] rest IH]; intros db; [done|].
  simpl. specialize (IH (Vendor.processDeliveryReceipt r env db).2).
  destruct (Vendor.processDeliveryReceipt r env db) as [o db1].
  simpl in IH. destruct (Vendor.batchUpdate rest db1) as [os db2]. exact IH.
Qed.

(** Every call of the campaign and vendor routes is a run of steps, but for
    what it does to the campaigns. *)
Lemma call_entry (c : Call) (db : DB) (j : nat) (y : CommunicationLog.t) :
  logs db !! j = Some y ->
  exists y', logs (call db c) !! j = Some y' /\ sameMessage y y'.
Proof.
  intros Hj.
  assert (Hsame : exists y', logs db !! j = Some y' /\ sameMessage y y')
    by (exists y; split; [done | apply sameMessage_refl]).
  destruct c as [body newId env | id body | id env | r env | updates
                 | m now | m now]; simpl.
  - destruct (postCreate_shape body newId env db)
      as [-> | (c & extra & _ & _ & -> & _)]; [done|].
    exists y. split; [by apply lookup_app_l_Some | apply sameMessage_refl].
  - unfold putUpdate. repeat case_match; done.
  - unfold Campaigns.postLaunch.
    destruct (Campaigns.launchRoute id env db) as [response effects]. simpl.
    rewrite exec_run. by apply run_entry.
  - by apply (step_entry (Schedule.Receipt r env)).
  - rewrite batchUpdate_run. by apply run_entry.
  - by apply (step_entry (Schedule.TrackOpen m now)).
  - by apply (step_entry (Schedule.TrackClick m now)).
Qed.

(** X12: log entries are permanent: over every sequence of calls to the campaign
    and vendor routes, and over every schedule of receipts, tracking calls,
    timers and launch writes, an entry stays at its position and keeps its
    campaign, customer, messageId, message, channel and personalised data;
    only its delivery state changes. *)
Theorem log_entries_are_permanent (db : DB) (j : nat)
    (y : CommunicationLog.t) :
  logs db !! j = Some y ->
  (forall cs, exists y',
     logs (calls cs db) !! j = Some y' /\ sameMessage y y') /\
  (forall schedule, exists y',
     logs (Schedule.run schedule db) !! j = Some y' /\ sameMessage y y').
Proof.
  intros Hj. split; [|intros schedule; by apply run_entry].
  intros cs. revert db y Hj. unfold calls.
  induction cs as [|c rest IH]; intros db y Hj.
  - exists y. split; [done | apply sameMessage_refl].
  - destruct (call_entry c db j y Hj) as (y1 & H1 & Hs1).
    destruct (IH (call db c) y1 H1) as (y2 & H2 & Hs2).
    exists y2. split; [exact H2 | by eapply sameMessage_trans].
Qed.

Lemma log_entries_are_permanent_witness :
  exists y',
    logs (calls [DeliveryReceipt sentReceipt receiptEnv;
                 Open "MSG-c1-0-0-abc" 5] runningStore) !! 0%nat = Some y' /\
    sameMessage (sampleLog CommunicationLog.pending 0) y'.
Proof.
  exact (proj1 (log_entries_are_permanent runningStore 0
                  (sampleLog CommunicationLog.pending 0) eq_refl)
           [DeliveryReceipt sentReceipt receiptEnv; Open "MSG-c1-0-0-abc" 5]).
Defined.

Lemma exec_logs (effects : list Campaigns.Effect) (db : DB) :
  logs (Campaigns.exec effects db) = logs db ++ concat (batches effects).
Proof.
  unfold Campaigns.exec. revert db.
  induction effects as [|e rest IH]; intros db; [by rewrite app_nil_r|].
  cbn [foldl]. rewrite IH. rewrite batches_cons.
  destruct e as [cid now | docs | log | cid key [v|]]; simpl; try done.
  by rewrite <- app_assoc.
Qed.

(** The entries a launch inserts start without retries. *)
Lemma launchCampaign_batches (campaign : Campaign.t)
    (audience : list Customer.t) (env : Campaigns.Env) :
  Forall (fun l => (CommunicationLog.retryCount l <= 3)%nat)
    (concat (batches (Campaigns.launchCampaign campaign audience env).1)).
Proof.
  destruct (launchCampaign_shape campaign audience env)
    as [-> | (sends & -> & _ & Hb)]; [done|].
  rewrite !batches_cons. simpl. rewrite Hb. simpl. rewrite app_nil_r.
  apply Forall_forall. intros l Hl.
  apply elem_of_lookup_imap in Hl as (i & cust & -> & _). simpl. lia.
Qed.

Lemma receipt_retriesBounded (r : Receipt.t) (env : Vendor.Env) (db : DB) :
  retriesBounded db ->
  retriesBounded (Vendor.processDeliveryReceipt r env db).2.
Proof.
  unfold retriesBounded. intros Hb.
  destruct (receipt_logs r env db) as [-> | (i & l & log2 & Hf & Hm & ->)];
    [done|].
  apply findOne_lookup in Hf as [Hi _].
  apply Forall_insert; [done|].
  apply (mark_retryCount _ _ _ _ Hm). simpl.
  by apply (Forall_lookup_1 _ _ _ _ Hb Hi).
Qed.

Lemma call_retriesBounded (c : Call) (db : DB) :
  retriesBounded db -> retriesBounded (call db c).
Proof.
  intros Hb.
  destruct c as [body newId env | id body | id env | r env | updates
                 | m now | m now]; simpl.
  - destruct (postCreate_shape body newId env db)
      as [-> | (c & extra & _ & _ & -> & Hextra)]; [done|].
    unfold retriesBounded. cbn [logs]. apply Forall_app. split; [done|].
    eapply Forall_impl; [exact Hextra|]. intros l ->. lia.
  - unfold putUpdate. repeat case_match; done.
  - unfold Campaigns.postLaunch, Campaigns.launchRoute.
    destruct (findById id db) as [campaign|]; [|done].
    case_decide; [done|].
    pose proof (launchCampaign_batches campaign
                  (Audience.evaluateAudience (customers db)
                     (Some (Campaign.audienceRules campaign))) env) as Hl.
    destruct (Campaigns.launchCampaign _ _ env) as [effects [final|e]];
      simpl; unfold retriesBounded; rewrite exec_logs;
      apply Forall_app; split; done.
  - by apply receipt_retriesBounded.
  - revert db Hb. induction updates as [|[r env] rest IH]; intros db Hb;
      [done|].
    simpl. pose proof (receipt_retriesBounded r env db Hb) as H1.
    destruct (Vendor.processDeliveryReceipt r env db) as [o db1].
    specialize (IH db1 H1).
    destruct (Vendor.batchUpdate rest db1) as [os db2]. exact IH.
  - unfold Vendor.trackOpen.
    destruct (findOne m db) as [[i l]|] eqn:Hf; [|done].
    rewrite markAsOpened_spec. simpl.
    apply findOne_lookup in Hf as [Hi _].
    apply Forall_insert; [done|].
    pose proof (Forall_lookup_1 _ _ _ _ Hb Hi) as Hl. simpl in Hl.
    by case_decide.
  - unfold Vendor.trackClick.
    destruct (findOne m db) as [[i l]|] eqn:Hf; [|done].
    rewrite markAsClicked_spec. simpl.
    apply findOne_lookup in Hf as [Hi _].
    apply Forall_insert; [done|].
    pose proof (Forall_lookup_1 _ _ _ _ Hb Hi) as Hl. simpl in Hl.
    by case_decide.
Qed.

(** X13: the schema bound on retries is an invariant of the routes: if no entry
    has more than 3 retries, none has after any sequence of campaign
    creations, updates and launches, receipts, batches of receipts and
    tracking calls. *)
Theorem retries_stay_bounded (cs : list Call) (db : DB) :
  retriesBounded db -> retriesBounded (calls cs db).
Proof.
  unfold calls. revert db. induction cs as [|c rest IH]; intros db Hb; [done|].
  simpl. apply IH. by apply call_retriesBounded.
Qed.

Lemma retries_stay_bounded_witness :
  retriesBounded
    (calls [DeliveryReceipt failedReceipt receiptEnv;
            BatchUpdate [(failedReceipt, receiptEnv);
                         (failedReceipt, receiptEnv);
                         (failedReceipt, receiptEnv)];
            Open "MSG-c1-0-0-abc" 5] runningStore).
Proof.
  apply (retries_stay_bounded
           [DeliveryReceipt failedReceipt receiptEnv;
            BatchUpdate [(failedReceipt, receiptEnv);
                         (failedReceipt, receiptEnv);
                         (failedReceipt, receiptEnv)];
            Open "MSG-c1-0-0-abc" 5] runningStore).
  unfold retriesBounded. simpl.
  apply Forall_cons. split; [simpl; lia | apply Forall_nil_2].
Defined.

(** ** Campaigns over time *)

Lemma settled_trans (c1 c2 c3 : Campaign.t) :
  settled c1 c2 -> settled c2 c3 -> settled c1 c3.
Proof.
  unfold settled, sameContent.
  intros ((?&?&?&?&?&?) & ? & ? & H12) ((?&?&?&?&?&?) & ? & ? & H23).
  split_and!; try congruence.
  intros Hn. destruct (H12 Hn) as [Hs Hc].
  destruct H23 as [Hs' Hc']; [congruence|]. split; congruence.
Qed.

Lemma settled_refl (c : Campaign.t) :
  Campaign.status c <> Campaign.draft -> settled c c.
Proof. intros H. unfold settled, sameContent. by split_and!. Qed.

Lemma recordOutcome_settled (r : Receipt.t) (env : Vendor.Env)
    (c : Campaign.t) :
  Campaign.status c <> Campaign.draft ->
  settled c (Vendor.recordOutcome r env c).
Proof.
  intros Hd. unfold Vendor.recordOutcome.
  set (c1 := Campaign.updateStats (Vendor.statKey (Receipt.status r)) c).
  assert (H1 : sameContent c c1 /\
               Campaign.startedAt c1 = Campaign.startedAt c /\
               Campaign.status c1 = Campaign.status c /\
               Campaign.completedAt c1 = Campaign.completedAt c).
  { unfold c1, Campaign.updateStats, sameContent. by case_match. }
  destruct H1 as ((?&?&?&?&?&?) & Hs & Hst & Hco).
  unfold settled, sameContent.
  case_match eqn:Hcond; simpl.
  - apply andb_true_iff in Hcond as [_ Hrun%bool_decide_eq_true].
    split_and!; congruence.
  - split_and!; try congruence. intros Hn. split; congruence.
Qed.

Lemma recordOutcome_id (r : Receipt.t) (env : Vendor.Env) (c : Campaign.t) :
  Campaign._id (Vendor.recordOutcome r env c) = Campaign._id c.
Proof.
  unfold Vendor.recordOutcome, Campaign.updateStats.
  repeat case_match; done.
Qed.

Lemma keyed_insert (db : DB) (k : string) (c : Campaign.t)
    (ls : list CommunicationLog.t) :
  keyed db -> Campaign._id c = k ->
  keyed (mkDB (customers db) (<[k := c]> (campaigns db)) ls).
Proof.
  intros Hk Hc k' c'. simpl. destruct (decide (k' = k)) as [->|Hne].
  - rewrite lookup_insert_eq. by intros [= <-].
  - rewrite lookup_insert_ne by done. apply Hk.
Qed.

Lemma receipt_keyed (r : Receipt.t) (env : Vendor.Env) (db : DB) :
  keyed db -> keyed (Vendor.processDeliveryReceipt r env db).2.
Proof.
  intros Hk k c Hc.
  destruct (findOne (Receipt.messageId r) db) as [[i l]|] eqn:Hf.
  - destruct (processDeliveryReceipt_found r env db i l Hf)
      as [(e & _ & Heq) | (log2 & timer & _ & _ & _ & Hcs)].
    + rewrite Heq in Hc. by apply Hk.
    + rewrite Hcs in Hc. unfold findById in Hc.
      destruct (campaigns db !! CommunicationLog.campaignId l) as [c0|] eqn:Hc0;
        [|by apply Hk].
      destruct (decide (k = CommunicationLog.campaignId l)) as [->|Hne].
      * rewrite lookup_insert_eq in Hc. injection Hc as <-.
        rewrite recordOutcome_id. by apply Hk.
      * rewrite lookup_insert_ne in Hc by done. by apply Hk.
  - unfold Vendor.processDeliveryReceipt in Hc. rewrite Hf in Hc. by apply Hk.
Qed.

Lemma receipt_settled (r : Receipt.t) (env : Vendor.Env) (db : DB)
    (id : string) (c : Campaign.t) :
  campaigns db !! id = Some c ->
  Campaign.status c <> Campaign.draft ->
  exists c', campaigns (Vendor.processDeliveryReceipt r env db).2 !! id = Some c'
             /\ settled c c'.
Proof.
  intros Hc Hd.
  destruct (processDeliveryReceipt_campaign r env db id c Hc) as [H|H].
  - exists c. split; [done | by apply settled_refl].
  - eexists. split; [exact H | by apply recordOutcome_settled].
Qed.

Lemma call_keyed (c : Call) (db : DB) : keyed db -> keyed (call db c).
Proof.
  intros Hk.
  destruct c as [body newId env | id body | id env | r env | updates
                 | m now | m now]; simpl.
  - destruct (postCreate_shape body newId env db)
      as [-> | (c & extra & Hid & _ & -> & _)]; [done|].
    by apply keyed_insert.
  - unfold putUpdate. case_match; [|done].
    destruct (findById id db) as [campaign|] eqn:Hc; [|done].
    case_decide; [done|]. case_match; [done|].
    simpl. apply keyed_insert; [done|].
    simpl. by apply Hk.
  - destruct (findById id db) as [campaign|] eqn:Hc.
    + destruct (decide (Campaign.status campaign = Campaign.draft)) as [Hd|Hd].
      * rewrite (postLaunch_draft id env db campaign Hc (Hk _ _ Hc) Hd).
        pose proof (Hk _ _ Hc).
        case_match; simpl; by apply keyed_insert.
      * unfold Campaigns.postLaunch, Campaigns.launchRoute. rewrite Hc.
        by rewrite decide_True.
    + unfold Campaigns.postLaunch, Campaigns.launchRoute. by rewrite Hc.
  - by apply receipt_keyed.
  - rewrite batchUpdate_run. revert db Hk.
    induction updates as [|[r env] rest IH]; intros db Hk; [done|].
    simpl. apply IH. by apply receipt_keyed.
  - unfold Vendor.trackOpen. repeat case_match; done.
  - unfold Vendor.trackClick. repeat case_match; done.
Qed.

Lemma call_settled (c : Call) (db : DB) (id : string) (cmp : Campaign.t) :
  keyed db ->
  campaigns db !! id = Some cmp ->
  Campaign.status cmp <> Campaign.draft ->
  id ∉ createdIds [c] ->
  exists cmp', campaigns (call db c) !! id = Some cmp' /\ settled cmp cmp'.
Proof.
  intros Hk Hc Hd Hfresh.
  assert (Hsame : exists cmp', campaigns db !! id = Some cmp' /\ settled cmp cmp')
    by (exists cmp; split; [done | by apply settled_refl]).
  destruct c as [body newId env | id' body | id' env | r env | updates
                 | m now | m now]; simpl.
  - assert (Hne : id <> newId).
    { intros ->. apply Hfresh. simpl. apply elem_of_cons. by left. }
    destruct (postCreate_shape body newId env db)
      as [-> | (c & extra & _ & _ & -> & _)]; [done|].
    cbn [campaigns]. by rewrite lookup_insert_ne.
  - unfold putUpdate. case_match; [|done].
    destruct (findById id' db) as [campaign|] eqn:Hc'; [|done].
    case_decide as Hst; [done|]. case_match; [done|]. simpl.
    destruct (decide (id = id')) as [->|Hne]; [|by rewrite lookup_insert_ne].
    unfold findById in Hc'. rewrite Hc in Hc'. injection Hc' as <-.
    by destruct Hd.
  - destruct (findById id' db) as [campaign|] eqn:Hc'.
    + destruct (decide (Campaign.status campaign = Campaign.draft)) as [Hd'|Hd'].
      * rewrite (postLaunch_draft id' env db campaign Hc' (Hk _ _ Hc') Hd').
        assert (Hne : id <> id').
        { intros ->. unfold findById in Hc'. congruence. }
        case_match; simpl; by rewrite lookup_insert_ne.
      * unfold Campaigns.postLaunch, Campaigns.launchRoute. rewrite Hc'.
        by rewrite decide_True.
    + unfold Campaigns.postLaunch, Campaigns.launchRoute. by rewrite Hc'.
  - by apply receipt_settled.
  - rewrite batchUpdate_run. clear Hsame Hfresh Hk. revert db cmp Hc Hd.
    induction updates as [|[r env] rest IH]; intros db cmp Hc Hd.
    + exists cmp. split; [done | by apply settled_refl].
    + simpl. destruct (receipt_settled r env db id cmp Hc Hd) as (c1 & H1 & Hs1).
      destruct (IH _ c1 H1) as (c2 & H2 & Hs2); [apply Hs1|].
      exists c2. split; [exact H2 | by eapply settled_trans].
  - unfold Vendor.trackOpen. repeat case_match; done.
  - unfold Vendor.trackClick. repeat case_match; done.
Qed.

(** X14: once a campaign has left the draft state, no sequence of calls to the
    campaign and vendor routes (creations under other ids) changes its name,
    rule, message template, channel, recorded audienceSize or start time, or
    makes it a draft again; unless it is running, its status and completion
    time stay as well. Only its counters move, and a running campaign may
    complete. *)
Theorem launched_campaign_is_frozen (cs : list Call) (db : DB) (id : string)
    (cmp : Campaign.t) :
  keyed db ->
  campaigns db !! id = Some cmp ->
  Campaign.status cmp <> Campaign.draft ->
  id ∉ createdIds cs ->
  exists cmp', campaigns (calls cs db) !! id = Some cmp' /\ settled cmp cmp'.
Proof.
  unfold calls. revert db cmp.
  induction cs as [|c rest IH]; intros db cmp Hk Hc Hd Hfresh.
  - exists cmp. split; [done | by apply settled_refl].
  - assert (Hc1 : id ∉ createdIds [c]).
    { intros Hin. apply Hfresh. unfold createdIds in *. simpl in *.
      destruct c; simpl in *; try by apply elem_of_nil in Hin.
      apply elem_of_cons in Hin as [->|Hin]; [|by apply elem_of_nil in Hin].
      apply elem_of_cons. by left. }
    assert (Hrest : id ∉ createdIds rest).
    { intros Hin. apply Hfresh. unfold createdIds in *. simpl.
      destruct c; simpl; try done. apply elem_of_cons. by right. }
    destruct (call_settled c db id cmp Hk Hc Hd Hc1) as (c1 & H1 & Hs1).
    destruct (IH (call db c) c1 (call_keyed c db Hk) H1) as (c2 & H2 & Hs2);
      [apply Hs1 | done |].
    exists c2. split; [exact H2 | by eapply settled_trans].
Qed.

Lemma launched_campaign_is_frozen_witness :
  exists cmp',
    campaigns (calls [Update "c1" (mkChanges "Holi" "Bye" sampleRules None None None None None);
                      LaunchById "c1" launchEnv;
                      DeliveryReceipt sentReceipt receiptEnv] runningStore)
      !! "c1" = Some cmp' /\
    settled (sampleCampaign Campaign.running 5) cmp'.
Proof.
  apply (launched_campaign_is_frozen
           [Update "c1" (mkChanges "Holi" "Bye" sampleRules None None None None None);
            LaunchById "c1" launchEnv;
            DeliveryReceipt sentReceipt receiptEnv] runningStore "c1"
           (sampleCampaign Campaign.running 5)).
  - intros k c. unfold runningStore. simpl.
    intros [<- <-]%lookup_singleton_Some. reflexivity.
  - reflexivity.
  - discriminate.
  - unfold createdIds. simpl. apply not_elem_of_nil.
Defined.

(** ** Retries, batches, timers and tracking *)

(** X15: after a failed or bounced receipt for an entry with fewer than 3
    retries, the entry is selected by getMessagesForRetry exactly from its
    nextRetryAt on, provided the new retryCount is below 3: the third
    failure sets a nextRetryAt (40 minutes ahead) at which the entry is never
    selected. *)
Theorem retry_queue_after_failure (r : Receipt.t) (env : Vendor.Env)
    (db : DB) (i : nat) (l : CommunicationLog.t) (now : Z) :
  findOne (Receipt.messageId r) db = Some (i, l) ->
  isFailure (Receipt.status r) ->
  (CommunicationLog.retryCount l < 3)%nat ->
  let db' := (Vendor.processDeliveryReceipt r env db).2 in
  exists l',
    logs db' !! i = Some l' /\
    (In l' (getMessagesForRetry now db') <->
     (CommunicationLog.retryCount l < 2)%nat /\
     Vendor.retryBase env
     + CommunicationLog.retryDelayMinutes (CommunicationLog.retryCount l + 1)
       * 60 * 1000 <= now).
Proof.
  intros Hf Hfail Hlt db'. subst db'.
  set (log1 := CommunicationLog.set_vendor (Receipt.vendorMessageId r) (Some r) l).
  assert (Hmark : Vendor.mark r env log1 =
            CommunicationLog.markAsFailed (Receipt.errorCode r)
              (Receipt.errorMessage r) (Vendor.markedAt env)
              (Vendor.retryBase env) log1).
  { unfold Vendor.mark. by destruct Hfail as [-> | ->]. }
  rewrite (markAsFailed_below_bound _ _ _ _ log1 Hlt) in Hmark.
  destruct (processDeliveryReceipt_found r env db i l Hf)
    as [(e & Hm & _) | (log2 & timer & Hm & _ & Hlogs & _)];
    fold log1 in Hm; rewrite Hmark in Hm; [done|].
  injection Hm as Hlog2.
  apply findOne_lookup in Hf as [Hi _].
  assert (Hi2 : logs (Vendor.processDeliveryReceipt r env db).2 !! i = Some log2).
  { rewrite Hlogs. apply list_lookup_insert_eq. by eapply lookup_lt_Some. }
  exists log2. split; [exact Hi2|].
  unfold getMessagesForRetry. rewrite filter_In.
  assert (Hin : In log2 (logs (Vendor.processDeliveryReceipt r env db).2)).
  { apply list_elem_of_In. by eapply list_elem_of_lookup_2. }
  assert (Hdue : CommunicationLog.dueForRetry now log2 =
            (CommunicationLog.retryCount l + 1 <? 3)%nat
            && (Vendor.retryBase env
                + CommunicationLog.retryDelayMinutes
                    (CommunicationLog.retryCount l + 1) * 60 * 1000 <=? now)).
  { by rewrite <- Hlog2. }
  rewrite Hdue, andb_true_iff, Nat.ltb_lt, Z.leb_le. split.
  - intros [_ [H1 H2]]. split; [lia | exact H2].
  - intros [H1 H2]. split; [exact Hin|]. split; [lia | exact H2].
Qed.

Lemma retry_queue_after_failure_witness :
  exists l',
    logs (Vendor.processDeliveryReceipt failedReceipt receiptEnv
            (mkDB [johnDoe] ∅ [sampleLog CommunicationLog.sent 2])).2 !! 0%nat
      = Some l' /\
    ~ In l' (getMessagesForRetry 100000000
               (Vendor.processDeliveryReceipt failedReceipt receiptEnv
                  (mkDB [johnDoe] ∅ [sampleLog CommunicationLog.sent 2])).2).
Proof.
  destruct (retry_queue_after_failure failedReceipt receiptEnv
              (mkDB [johnDoe] ∅ [sampleLog CommunicationLog.sent 2]) 0
              (sampleLog CommunicationLog.sent 2) 100000000
              eq_refl (or_introl eq_refl) (le_n 3)) as (l' & Hl & Hiff).
  exists l'. split; [exact Hl|].
  intros Hin. apply Hiff in Hin as [Hlt _]. simpl in Hlt. lia.
Defined.

Lemma receipt_messageIds (r : Receipt.t) (env : Vendor.Env) (db : DB) :
  messageIds (Vendor.processDeliveryReceipt r env db).2 = messageIds db.
Proof.
  unfold messageIds at 1.
  destruct (receipt_logs r env db) as [-> | (i & l & log2 & Hf & Hm & ->)];
    [done|].
  apply findOne_lookup in Hf as [Hi _].
  apply (messageIds_stored db i l log2 Hi).
  by apply mark_keeps_ids in Hm as [-> _].
Qed.

Lemma filter_split {A : Type} (f : A -> bool) (xs : list A) :
  (length (List.filter (fun x => negb (f x)) xs) + length (List.filter f xs)
   = length xs)%nat.
Proof.
  induction xs as [|x xs IH]; [done|].
  simpl. destruct (f x); simpl; lia.
Qed.

(** X16: the loop of [POST /batch-update] goes through every update, whatever
    the earlier ones did: it reports one result per update and leaves the
    store that processing the receipts one by one leaves. Every result is
    either processed or an error, and an update for a messageId no log entry
    has is reported as processed although nothing was stored for it. *)
Theorem batch_update_reports (updates : list (Receipt.t * Vendor.Env))
    (db : DB) :
  let result := Vendor.batchUpdate updates db in
  length result.1 = length updates /\
  result.2 = Schedule.run (receiptSteps updates) db /\
  total (batchSummary result.1) = length updates /\
  (processed (batchSummary result.1) + errors (batchSummary result.1)
   = total (batchSummary result.1))%nat /\
  (forall k u, updates !! k = Some u ->
     Receipt.messageId u.1 ∉ messageIds db ->
     result.1 !! k = Some Vendor.Discarded /\
     isError Vendor.Discarded = false).
Proof.
  intros result. subst result.
  assert (Hlen : length (Vendor.batchUpdate updates db).1 = length updates).
  { revert db. induction updates as [|[r env] rest IH]; intros db; [done|].
    simpl. destruct (Vendor.processDeliveryReceipt r env db) as [o db1].
    specialize (IH db1). destruct (Vendor.batchUpdate rest db1) as [os db2].
    simpl in *. by rewrite IH. }
  split; [exact Hlen|]. split; [apply batchUpdate_run|].
  split; [exact Hlen|]. split; [apply filter_split|].
  intros k u Hk Hnot. split; [|done]. clear Hlen. revert db k Hk Hnot.
  induction updates as [|[r env] rest IH]; intros db k Hk Hnot; [done|].
  simpl. pose proof (receipt_messageIds r env db) as Hids.
  destruct k as [|k].
  - injection Hk as <-. simpl in Hnot.
    assert (Hnone : findOne (Receipt.messageId r) db = None).
    { destruct (findOne (Receipt.messageId r) db) eqn:Hf; [|done].
      exfalso. apply Hnot. apply findOne_is_Some. by rewrite Hf. }
    unfold Vendor.processDeliveryReceipt. rewrite Hnone.
    by destruct (Vendor.batchUpdate rest db).
  - simpl in Hk.
    destruct (Vendor.processDeliveryReceipt r env db) as [o db1].
    simpl in Hids. specialize (IH db1 k Hk).
    rewrite Hids in IH. specialize (IH Hnot).
    by destruct (Vendor.batchUpdate rest db1).
Qed.

Lemma batch_update_reports_witness :
  (Vendor.batchUpdate [(failedReceipt, receiptEnv)] emptyStore).1 !! 0%nat
  = Some Vendor.Discarded.
Proof.
  refine (proj1 (proj2 (proj2 (proj2 (proj2
            (batch_update_reports [(failedReceipt, receiptEnv)] emptyStore))))
            0%nat (failedReceipt, receiptEnv) eq_refl _)).
  unfold emptyStore, messageIds. simpl. apply not_elem_of_nil.
Defined.

Lemma alter_as_insert {A : Type} (g : A -> A) (i : nat) (xs : list A) (x : A) :
  xs !! i = Some x -> alter g i xs = <[i := g x]> xs.
Proof.
  intros Hi. apply list_eq. intros j.
  destruct (decide (i = j)) as [->|Hne].
  - rewrite list_lookup_alter_eq, Hi. simpl. symmetry.
    apply list_lookup_insert_eq. by eapply lookup_lt_Some.
  - by rewrite list_lookup_alter_ne, list_lookup_insert_ne.
Qed.

(** X17: the timer armed by a delivered receipt tests the status of the document
    it captured at the receipt, not of the stored entry: whatever has been
    processed between the receipt and the timer (a failed receipt for the
    same message, say), the timer stores status opened and openedAt on the
    entry and leaves its other stored fields as they then are. *)
Theorem open_timer_overrides_later_state (r : Receipt.t) (env : Vendor.Env)
    (db : DB) (i : nat) (doc : CommunicationLog.t)
    (between : list Schedule.Step) (now : Z) (click : bool) :
  (Vendor.processDeliveryReceipt r env db).1 = Vendor.Processed (Some (i, doc)) ->
  let db2 := Schedule.run between (Vendor.processDeliveryReceipt r env db).2 in
  let opened x :=
    CommunicationLog.set_openedAt (Some now)
      (CommunicationLog.set_status CommunicationLog.opened x) in
  Receipt.status r = r_delivered /\
  exists stored,
    logs db2 !! i = Some stored /\
    Vendor.openTimer i doc now click db2
    = (if click then Some (i, opened doc) else None,
       set_logs (<[i := opened stored]> (logs db2)) db2).
Proof.
  intros Hout db2 opened.
  destruct (findOne (Receipt.messageId r) db) as [[i0 l]|] eqn:Hf.
  - destruct (processDeliveryReceipt_found r env db i0 l Hf)
      as [(e & _ & Heq) | (log2 & timer & Hm & _ & Hlogs & _)].
    + rewrite Heq in Hout. done.
    + unfold Vendor.processDeliveryReceipt in Hout. rewrite Hf in Hout.
      cbv zeta in Hout. rewrite Hm in Hout.
      assert (Htimer : match Receipt.status r with
                       | r_delivered =>
                           if Vendor.openDraw env then Some (i0, log2) else None
                       | _ => None
                       end = Some (i, doc)).
      { destruct (findById _ _); simpl in Hout; by injection Hout. }
      clear Hout.
      destruct (Receipt.status r) eqn:Hst; try done.
      destruct (Vendor.openDraw env); [|done].
      injection Htimer as -> ->. split; [done|].
      apply mark_status in Hm as Hdel. rewrite Hst in Hdel. simpl in Hdel.
      apply findOne_lookup in Hf as [Hi _].
      assert (Hi2 : logs (Vendor.processDeliveryReceipt r env db).2 !! i = Some doc).
      { rewrite Hlogs. apply list_lookup_insert_eq. by eapply lookup_lt_Some. }
      destruct (run_entry between _ i doc Hi2) as (stored & Hs & _).
      fold db2 in Hs. exists stored. split; [exact Hs|].
      unfold Vendor.openTimer. rewrite markAsOpened_spec.
      rewrite !decide_True by done. simpl.
      by rewrite (alter_as_insert _ i (logs db2) stored Hs).
  - unfold Vendor.processDeliveryReceipt in Hout. by rewrite Hf in Hout.
Qed.

Lemma open_timer_overrides_later_state_witness :
  let delivered :=
    Receipt.mk "MSG-c1-0-0-abc" r_delivered 0 None None (Some "VENDOR-1") in
  let env := Vendor.mkEnv 1000 1000 2000 true in
  let doc :=
    CommunicationLog.set_deliveredAt (Some 1000)
      (CommunicationLog.set_status CommunicationLog.delivered
         (CommunicationLog.set_vendor (Some "VENDOR-1") (Some delivered)
            (sampleLog CommunicationLog.pending 0))) in
  let db2 :=
    Schedule.run [Schedule.Receipt failedReceipt receiptEnv]
      (Vendor.processDeliveryReceipt delivered env runningStore).2 in
  exists stored,
    logs db2 !! 0%nat = Some stored /\
    Vendor.openTimer 0 doc 5000 false db2
    = (None,
       set_logs
         (<[0%nat := CommunicationLog.set_openedAt (Some 5000)
                       (CommunicationLog.set_status CommunicationLog.opened
                          stored)]> (logs db2)) db2).
Proof.
  intros delivered env doc db2.
  exact (proj2 (open_timer_overrides_later_state delivered env runningStore 0
                  doc [Schedule.Receipt failedReceipt receiptEnv] 5000 false
                  eq_refl)).
Defined.

Lemma trackOpen_found (m : string) (now : Z) (db : DB) (i : nat)
    (l : CommunicationLog.t) :
  findOne m db = Some (i, l) ->
  Vendor.trackOpen m now db =
  if decide (CommunicationLog.status l = CommunicationLog.delivered)
  then set_logs (<[i := CommunicationLog.set_openedAt (Some now)
                          (CommunicationLog.set_status CommunicationLog.opened l)]>
                   (logs db)) db
  else db.
Proof.
  intros Hf. unfold Vendor.trackOpen. rewrite Hf, markAsOpened_spec.
  apply findOne_lookup in Hf as [Hi _].
  case_decide; [done | by apply store_same_doc].
Qed.

Lemma trackClick_found (m : string) (now : Z) (db : DB) (i : nat)
    (l : CommunicationLog.t) :
  findOne m db = Some (i, l) ->
  Vendor.trackClick m now db =
  if decide (CommunicationLog.status l = CommunicationLog.delivered \/
             CommunicationLog.status l = CommunicationLog.opened)
  then set_logs (<[i := CommunicationLog.set_clickedAt (Some now)
                          (CommunicationLog.set_status CommunicationLog.clicked l)]>
                   (logs db)) db
  else db.
Proof.
  intros Hf. unfold Vendor.trackClick. rewrite Hf, markAsClicked_spec.
  apply findOne_lookup in Hf as [Hi _].
  case_decide; [done | by apply store_same_doc].
Qed.

(** X18: the tracking endpoints record the first event only: a second open does
    not move openedAt, a second click does not move clickedAt, and an open
    that arrives after a click is not recorded at all. *)
Theorem tracking_records_first_event (m : string) (t1 t2 : Z) (db : DB) :
  Vendor.trackOpen m t2 (Vendor.trackOpen m t1 db) = Vendor.trackOpen m t1 db /\
  Vendor.trackClick m t2 (Vendor.trackClick m t1 db) = Vendor.trackClick m t1 db /\
  Vendor.trackOpen m t2 (Vendor.trackClick m t1 db) = Vendor.trackClick m t1 db.
Proof.
  destruct (findOne m db) as [[i l]|] eqn:Hf.
  - apply findOne_lookup in Hf as Hil. destruct Hil as [Hi Hm].
    rewrite (trackOpen_found m t1 db i l Hf).
    rewrite (trackClick_found m t1 db i l Hf).
    split_and!.
    + case_decide as Hd.
      * erewrite trackOpen_found
          by (apply (findOne_stored m db i l); [exact Hf | exact Hm]).
        by rewrite decide_False.
      * rewrite (trackOpen_found m t2 db i l Hf). by rewrite decide_False.
    + case_decide as Hd.
      * erewrite trackClick_found
          by (apply (findOne_stored m db i l); [exact Hf | exact Hm]).
        rewrite decide_False; [done|]. simpl. by intros [|].
      * rewrite (trackClick_found m t2 db i l Hf). by rewrite decide_False.
    + case_decide as Hd.
      * erewrite trackOpen_found
          by (apply (findOne_stored m db i l); [exact Hf | exact Hm]).
        by rewrite decide_False.
      * rewrite (trackOpen_found m t2 db i l Hf).
        rewrite decide_False; [done|]. intros Hdel. apply Hd. by left.
  - unfold Vendor.trackOpen, Vendor.trackClick. rewrite Hf. by rewrite Hf.
Qed.

(** ** Elapsed times *)

Lemma ceilDiv_bounds (a b : Z) :
  0 < b -> b * (ceilDiv a b - 1) < a <= b * ceilDiv a b.
Proof.
  intros Hb. unfold ceilDiv.
  pose proof (Z.div_mod (- a) b ltac:(lia)) as Hdm.
  pose proof (Z.mod_pos_bound (- a) b Hb) as Hm.
  nia.
Qed.

Lemma minutesBetween_bounds (t1 t2 : Z) :
  0 <= minutesBetween t1 t2 /\
  60000 * (minutesBetween t1 t2 - 1) < Z.abs (t2 - t1)
    <= 60000 * minutesBetween t1 t2.
Proof.
  unfold minutesBetween.
  pose proof (ceilDiv_bounds (Z.abs (t2 - t1)) (1000 * 60) ltac:(lia)) as H.
  change (1000 * 60) with 60000 in *. lia.
Qed.

(** X19: the two elapsed-time virtuals, [duration] of a campaign and
    [deliveryTime] of a log entry, are the distance between their two dates
    in whole minutes, rounded up: never negative, 0 only when the dates
    coincide, and the same whichever date is the earlier. *)
Theorem elapsed_minutes_round_up :
  (forall c s e,
     Campaign.startedAt c = Some s -> Campaign.completedAt c = Some e ->
     exists d, duration c = Some d /\ 0 <= d /\
               60000 * (d - 1) < Z.abs (e - s) <= 60000 * d /\
               (d = 0 <-> e = s)) /\
  (forall l s e,
     CommunicationLog.sentAt l = Some s ->
     CommunicationLog.deliveredAt l = Some e ->
     exists d, deliveryTime l = Some d /\ 0 <= d /\
               60000 * (d - 1) < Z.abs (e - s) <= 60000 * d /\
               (d = 0 <-> e = s)) /\
  (forall t1 t2, minutesBetween t1 t2 = minutesBetween t2 t1).
Proof.
  split_and!.
  - intros c s e Hs He. exists (minutesBetween s e).
    unfold duration. rewrite Hs, He.
    pose proof (minutesBetween_bounds s e). split; [done|]. lia.
  - intros l s e Hs He. exists (minutesBetween s e).
    unfold deliveryTime. rewrite Hs, He.
    pose proof (minutesBetween_bounds s e). split; [done|]. lia.
  - intros t1 t2. unfold minutesBetween. f_equal. lia.
Qed.

Lemma elapsed_minutes_round_up_witness :
  exists d,
    duration (Campaign.set_completedAt (Some 60001)
                (Campaign.start 0 (sampleCampaign Campaign.draft 1))) = Some d /\
    60000 * (d - 1) < Z.abs (60001 - 0) <= 60000 * d.
Proof.
  destruct (proj1 elapsed_minutes_round_up
              (Campaign.set_completedAt (Some 60001)
                 (Campaign.start 0 (sampleCampaign Campaign.draft 1)))
              0 60001 eq_refl eq_refl) as (d & Hd & _ & Hb & _).
  exists d. split; [exact Hd | exact Hb].
Defined.

(** X20: a sent and a delivered receipt for the same message, processed in
    either order, leave the entry with both dates, and its deliveryTime is
    the distance between the two processing times in whole minutes, rounded
    up. *)
Theorem deliveryTime_after_receipts (r1 r2 : Receipt.t)
    (env1 env2 : Vendor.Env) (db : DB) (i : nat) (l : CommunicationLog.t) :
  findOne (Receipt.messageId r1) db = Some (i, l) ->
  Receipt.messageId r2 = Receipt.messageId r1 ->
  (Receipt.status r1 = r_sent /\ Receipt.status r2 = r_delivered) \/
  (Receipt.status r1 = r_delivered /\ Receipt.status r2 = r_sent) ->
  let db2 :=
    (Vendor.processDeliveryReceipt r2 env2
       (Vendor.processDeliveryReceipt r1 env1 db).2).2 in
  exists l2 d,
    logs db2 !! i = Some l2 /\
    deliveryTime l2 = Some d /\
    0 <= d /\
    60000 * (d - 1) < Z.abs (Vendor.markedAt env2 - Vendor.markedAt env1)
      <= 60000 * d.
Proof.
  intros Hf Hsame Horder db2. subst db2.
  set (log1 := CommunicationLog.set_vendor (Receipt.vendorMessageId r1) (Some r1) l).
  destruct (processDeliveryReceipt_found r1 env1 db i l Hf)
    as [(e & Hm & _) | (l1 & timer & Hm & _ & Hlogs & Hcs)].
  { fold log1 in Hm. unfold Vendor.mark in Hm.
    by destruct Horder as [[H1 _] | [H1 _]]; rewrite H1 in Hm. }
  fold log1 in Hm.
  set (db1 := (Vendor.processDeliveryReceipt r1 env1 db).2) in *.
  assert (Hf1 : findOne (Receipt.messageId r2) db1 = Some (i, l1)).
  { rewrite Hsame.
    assert (Hid : CommunicationLog.messageId l1 = Receipt.messageId r1).
    { apply mark_keeps_ids in Hm as [-> _].
      by apply findOne_lookup in Hf as [_ ?]. }
    pose proof (findOne_stored _ db i l l1 Hf Hid) as Hst.
    unfold findOne in *. by rewrite Hlogs. }
  set (log2 := CommunicationLog.set_vendor (Receipt.vendorMessageId r2) (Some r2) l1).
  destruct (processDeliveryReceipt_found r2 env2 db1 i l1 Hf1)
    as [(e & Hm2 & _) | (l2 & timer2 & Hm2 & _ & Hlogs2 & _)].
  { fold log2 in Hm2. unfold Vendor.mark in Hm2.
    by destruct Horder as [[_ H2] | [_ H2]]; rewrite H2 in Hm2. }
  fold log2 in Hm2.
  apply findOne_lookup in Hf1 as [Hi1 _].
  exists l2.
  assert (Hdates :
    (CommunicationLog.sentAt l2 = Some (Vendor.markedAt env1) /\
     CommunicationLog.deliveredAt l2 = Some (Vendor.markedAt env2)) \/
    (CommunicationLog.sentAt l2 = Some (Vendor.markedAt env2) /\
     CommunicationLog.deliveredAt l2 = Some (Vendor.markedAt env1))).
  { unfold Vendor.mark in Hm, Hm2.
    destruct Horder as [[H1 H2] | [H1 H2]]; rewrite H1 in Hm; rewrite H2 in Hm2;
      injection Hm as <-; injection Hm2 as <-; [by left | by right]. }
  assert (Hl2 : logs (Vendor.processDeliveryReceipt r2 env2 db1).2 !! i = Some l2).
  { rewrite Hlogs2. apply list_lookup_insert_eq. by eapply lookup_lt_Some. }
  destruct Hdates as [[Hs Hd] | [Hs Hd]].
  - exists (minutesBetween (Vendor.markedAt env1) (Vendor.markedAt env2)).
    split; [exact Hl2|]. unfold deliveryTime. rewrite Hs, Hd.
    split; [done|]. apply minutesBetween_bounds.
  - exists (minutesBetween (Vendor.markedAt env2) (Vendor.markedAt env1)).
    split; [exact Hl2|]. unfold deliveryTime. rewrite Hs, Hd.
    split; [done|].
    pose proof (minutesBetween_bounds (Vendor.markedAt env2) (Vendor.markedAt env1)).
    lia.
Qed.

Lemma deliveryTime_after_receipts_witness :
  let delivered :=
    Receipt.mk "MSG-c1-0-0-abc" r_delivered 0 None None (Some "VENDOR-1") in
  exists l2 d,
    logs (Vendor.processDeliveryReceipt delivered
            (Vendor.mkEnv 90000 90000 90000 false)
            (Vendor.processDeliveryReceipt sentReceipt receiptEnv
               runningStore).2).2 !! 0%nat = Some l2 /\
    deliveryTime l2 = Some d /\
    0 <= d /\
    60000 * (d - 1) < Z.abs (90000 - 1000) <= 60000 * d.
Proof.
  intros delivered.
  exact (deliveryTime_after_receipts sentReceipt delivered receiptEnv
           (Vendor.mkEnv 90000 90000 90000 false) runningStore 0
           (sampleLog CommunicationLog.pending 0) eq_refl eq_refl
           (or_introl (conj eq_refl eq_refl))).
Defined.

(** ** Creation, update and launch together *)










(** ** Personalisation without placeholders *)

Lemma scan_identity (pat : string) (sub : string -> string -> string)
    (s : string) :
  ~ JS.occurs pat s -> forall b, JS.scan pat sub 0 b s = s.
Proof.
  induction s as [|c s IH]; intros Hno b; [done|].
  cbn [JS.scan]. destruct (String.prefix pat (String c s)) eqn:Hp.
  - exfalso. apply Hno. apply str_prefix_split in Hp.
    exists "", (JS.drop (String.length pat) (String c s)).
    by rewrite str_nil_app.
  - f_equal. apply IH. intros Hocc. apply Hno. by apply occurs_cons.
Qed.

(** X23: a template that holds none of the three placeholders is the message:
    personalizeMessage returns it unchanged for every customer. *)
Theorem personalizeMessage_without_tokens (template : string)
    (customer : Customer.t) :
  ~ JS.occurs "{name}" template ->
  ~ JS.occurs "{totalSpent}" template ->
  ~ JS.occurs "{visitCount}" template ->
  personalizeMessage template customer = template.
Proof.
  intros Hn Ht Hv. unfold personalizeMessage, JS.replaceAll, JS.replaceWith.
  rewrite (scan_identity "{name}" _ template Hn).
  rewrite (scan_identity "{totalSpent}" _ template Ht).
  by rewrite (scan_identity "{visitCount}" _ template Hv).
Qed.

Lemma no_brace_no_token (w s : string) :
  hasChar "{" s = false -> ~ JS.occurs (token w) s.
Proof.
  intros Hs (pre & post & ->). rewrite token_cons in Hs.
  rewrite hasChar_app, str_cons_app in Hs. cbn [hasChar] in Hs.
  apply orb_false_iff in Hs as [_ Hs]. simpl in Hs. done.
Qed.

Lemma personalizeMessage_without_tokens_witness :
  personalizeMessage "Happy Diwali" johnDoe = "Happy Diwali".
Proof.
  apply personalizeMessage_without_tokens.
  - apply (no_brace_no_token "name" "Happy Diwali"). reflexivity.
  - apply (no_brace_no_token "totalSpent" "Happy Diwali"). reflexivity.
  - apply (no_brace_no_token "visitCount" "Happy Diwali"). reflexivity.
Defined.

(** X24: a message depends on three fields of the customer only: the name, the
    amount spent and the number of visits, and an absent amount or number
    is rendered as 0. *)
Theorem personalizeMessage_reads_three_fields (template : string)
    (c c' : Customer.t) :
  Customer.name c = Customer.name c' ->
  default 0 (Customer.totalSpent c) = default 0 (Customer.totalSpent c') ->
  default 0 (Customer.visitCount c) = default 0 (Customer.visitCount c') ->
  personalizeMessage template c = personalizeMessage template c'.
Proof.
  intros Hn Ht Hv. unfold personalizeMessage. rewrite Hn.
  assert (Hzero : JS.toLocaleString_enIN 0 = JS.showZ 0) by reflexivity.
  assert (Hspent :
    match Customer.totalSpent c with
    | Some v => JS.toLocaleString_enIN v | None => JS.showZ 0 end =
    match Customer.totalSpent c' with
    | Some v => JS.toLocaleString_enIN v | None => JS.showZ 0 end).
  { destruct (Customer.totalSpent c), (Customer.totalSpent c');
      simpl in Ht; subst; by rewrite ?Hzero. }
  assert (Hvisits :
    match Customer.visitCount c with
    | Some v => JS.showZ v | None => JS.showZ 0 end =
    match Customer.visitCount c' with
    | Some v => JS.showZ v | None => JS.showZ 0 end).
  { destruct (Customer.visitCount c), (Customer.visitCount c');
      simpl in Hv; by subst. }
  by rewrite Hspent, Hvisits.
Qed.

Lemma personalizeMessage_reads_three_fields_witness :
  personalizeMessage "Hi {name}, {totalSpent} in {visitCount} visits"
    (Customer.mk "u1" "Asha" None None None Customer.active None)
  = personalizeMessage "Hi {name}, {totalSpent} in {visitCount} visits"
      (Customer.mk "u2" "Asha" (Some 0) (Some 0) (Some 5) Customer.churned
         (Some "Pune")).
Proof.
  apply personalizeMessage_reads_three_fields; reflexivity.
Defined.

(** ** Pagination *)

Lemma pages_bounds (count limit : nat) :
  (1 <= limit)%nat ->
  (count <= Listing.pages count limit * limit)%nat /\
  (Listing.pages count limit * limit < count + limit)%nat.
Proof.
  intros Hl. unfold Listing.pages.
  pose proof (Nat.div_mod_eq (count + limit - 1) limit) as Hdm.
  pose proof (Nat.mod_upper_bound (count + limit - 1) limit ltac:(lia)) as Hm.
  split; nia.
Qed.

Lemma drop_nonempty {A : Type} (n : nat) (xs : list A) :
  drop n xs <> [] <-> (n < length xs)%nat.
Proof.
  pose proof (length_drop xs n) as Hlen.
  destruct (drop n xs) eqn:Hd; simpl in Hlen; split; intros H;
    try done; lia.
Qed.

Lemma all_pages {A : Type} (limit n : nat) (xs : list A) :
  (length xs <= n * limit)%nat ->
  concat ((fun k => take limit (drop (k * limit) xs)) <$> seq 0 n) = xs.
Proof.
  revert xs. induction n as [|n IH]; intros xs Hlen.
  - destruct xs; [done | simpl in Hlen; lia].
  - cbn [seq fmap list_fmap concat]. rewrite <- fmap_S_seq, <- list_fmap_compose.
    change (drop (0 * limit) xs) with xs.
    transitivity (take limit xs ++ drop limit xs); [|apply take_drop].
    f_equal.
    rewrite <- (IH (drop limit xs)) by (rewrite length_drop; lia).
    f_equal. apply list_fmap_ext. intros i k _. simpl.
    rewrite drop_drop. do 2 f_equal; lia.
Qed.

(** X25: the page a listing route answers with: at most [limit] items, taken in
    order after the items of the earlier pages; totalPages is the number of
    pages the matches fill, hasNextPage holds exactly when an item follows
    this page and hasPrevPage exactly after page 1; a page beyond totalPages
    is empty, every page up to it is not, and the pages 1 to totalPages
    together are the matches, each once and in order. *)
Theorem pagination_is_consistent {A : Type} (matches : list A)
    (page limit : nat) (items : list A) (p : Listing.Pagination) :
  Listing.paginate matches page limit = Some (items, p) ->
  items = take limit (drop ((page - 1) * limit) matches) /\
  (length items <= limit)%nat /\
  Listing.currentPage p = page /\
  Listing.totalCount p = length matches /\
  (length matches <= Listing.totalPages p * limit)%nat /\
  (matches <> [] -> (Listing.totalPages p - 1) * limit < length matches)%nat /\
  (Listing.hasNextPage p = true <-> drop (page * limit) matches <> []) /\
  (Listing.hasPrevPage p = true <-> (1 < page)%nat) /\
  (items <> [] <-> (page <= Listing.totalPages p)%nat) /\
  concat ((fun k => take limit (drop (k * limit) matches))
            <$> seq 0 (Listing.totalPages p)) = matches.
Proof.
  unfold Listing.paginate. intros H.
  destruct ((1 <=? page)%nat && (1 <=? limit)%nat && (limit <=? 100)%nat)
    eqn:Hvalid; [|done].
  apply andb_true_iff in Hvalid as [[Hp Hl]%andb_true_iff Hmax].
  apply Nat.leb_le in Hp, Hl, Hmax.
  injection H as <- <-. simpl.
  destruct (pages_bounds (length matches) limit Hl) as [Hup Hlow].
  set (q := Listing.pages (length matches) limit) in *.
  split_and!; try done.
  - rewrite length_take. lia.
  - intros Hne. assert (length matches <> 0)%nat by by destruct matches. nia.
  - rewrite Nat.ltb_lt, drop_nonempty. split; intros Hlt; nia.
  - apply Nat.ltb_lt.
  - assert (Hitems : take limit (drop ((page - 1) * limit) matches) <> []
                     <-> ((page - 1) * limit < length matches)%nat).
    { rewrite <- drop_nonempty.
      destruct (drop ((page - 1) * limit) matches) eqn:Hd;
        destruct limit; simpl; split; intros; try done; lia. }
    rewrite Hitems. split; intros Hlt; nia.
  - by apply all_pages.
Qed.

Lemma pagination_is_consistent_witness :
  exists items p,
    Listing.paginate threeCustomers 2 2 = Some (items, p) /\
    items = [spent "c" 15000] /\
    Listing.hasNextPage p = false /\ Listing.totalPages p = 2%nat.
Proof.
  eexists. eexists. split; [reflexivity|].
  destruct (pagination_is_consistent threeCustomers 2 2 _ _ eq_refl)
    as (Hitems & _).
  split; [exact Hitems|]. split; reflexivity.
Defined.
